(** * comic-flex: a fullscreen slideshow viewer

    A shallow embedding of [main.go] (current revision) and the properties
    of its enumerator, its configuration defaults and its slideshow
    controller.  The revision before it ([src/unnamed/part_000]) is
    embedded in the module [Previous], as far as it differs, and the
    first revision (the second half of [main.go]) in [Earliest].

    Go values are modelled as follows: [int] and [uint] as [Z] (with the
    wrap-around of [uint] written out), strings as [string] (a Go string is
    a sequence of bytes, as is a Rocq string), slices as lists, a call that
    may end the program ([log.Fatal], a run-time panic) as an [outcome]. *)

From Stdlib Require Import ZArith Lia Ascii SpecFloat Reals Lra Psatz.
From stdpp Require Import base list strings.

Local Open Scope string_scope.
Local Open Scope list_scope.

(** ** Outcomes of Go code that may end the program *)

Module Go.

(** [Ok a]: the code returned [a]. [Fatal m]: [log.Fatal]/[log.Fatalf]
    printed [m] and called [os.Exit(1)]. [Panic m]: a run-time panic
    (nil dereference, index out of range, integer division by zero). *)
Inductive outcome (A : Type) : Type :=
| Ok (a : A)
| Fatal (msg : string)
| Panic (msg : string).
Arguments Ok {A} a.
Arguments Fatal {A} msg.
Arguments Panic {A} msg.

Definition bind {A B} (m : outcome A) (k : A → outcome B) : outcome B :=
  match m with
  | Ok a => k a
  | Fatal msg => Fatal msg
  | Panic msg => Panic msg
  end.

(** A Go [error] value: [None] is [nil], [Some m] an error with text [m]. *)
Definition error := option string.

(** Index expression [s[i]] on a slice: panics out of range. *)
Definition index {A} (s : list A) (i : Z) : outcome A :=
  if (i <? 0)%Z then Panic "index out of range"
  else match s !! Z.to_nat i with
       | Some a => Ok a
       | None => Panic "index out of range"
       end.

(** [len(s)] as a Go [int]. *)
Definition len {A} (s : list A) : Z := Z.of_nat (length s).

(** [a % b] on [int]: truncated remainder, panics when [b] is zero. *)
Definition rem (a b : Z) : outcome Z :=
  if (b =? 0)%Z then Panic "integer divide by zero" else Ok (Z.rem a b).

End Go.
Import Go.

(** [x ← m; k] is sequencing: a [Fatal] or [Panic] in [m] ends the run. *)
#[global] Instance outcome_bind : MBind outcome := λ A B k m, Go.bind m k.
#[global] Instance outcome_ret : MRet outcome := λ A a, Ok a.

(** ** Data model (lines 20-39) *)

Record Entry := {
  ID : string;
  Title : string;
  ImagePath : string;
  Description : string
}.

Record Manifest := { Entries : list Entry }.

Record Config := {
  ContentDirectory : string;
  ManifestPath : string;
  SlideInterval : Z;          (* uint *)
  FillColor : string;
  TextColor : string;
  EnableText : bool;
  IsRandomOrder : bool
}.

(** ** The enumerator (lines 73-136) *)

Module Enumerator.

(** [os.IsPathSeparator] on Unix. *)
Definition IsPathSeparator (c : ascii) : bool :=
  bool_decide (c = "/"%char).

(** [filepath.Ext]: the loop
    [for i := len(path)-1; i >= 0 && !os.IsPathSeparator(path[i]); i--]
    returning [path[i:]] at the first dot met; [n] is [i+1]. *)
Fixpoint Ext_loop (path : string) (n : nat) : string :=
  match n with
  | O => ""
  | S i =>
      match String.get i path with
      | Some c =>
          if IsPathSeparator c then ""
          else if bool_decide (c = "."%char)
               then String.substring i (String.length path - i) path
               else Ext_loop path i
      | None => ""
      end
  end.

Definition Ext (path : string) : string :=
  Ext_loop path (String.length path).

(** One call of the walk function by [filepath.Walk]: the path, whether
    [info.IsDir()] holds, and the error [Walk] met on that path. *)
Record Visit := {
  path : string;
  IsDir : bool;
  err : error
}.

(** The extension switch of the walk function (lines 86-89). *)
Definition allowed : list string :=
  [".jpg"; ".jpeg"; ".png"; ".gif"; ".bmp"].

Definition is_image (p : string) : bool :=
  bool_decide (Ext p ∈ allowed).

(** The walk function of [listImagesAsync] (lines 81-92); [sent] is what
    has been sent on [imagesChan] so far.  It returns the error that
    stops the walk, if any. *)
Definition walkFn (v : Visit) (sent : list string) : list string * error :=
  match err v with
  | Some e => (sent, Some e)
  | None =>
      if negb (IsDir v)
      then (if is_image (path v) then sent ++ [path v] else sent, None)
      else (sent, None)
  end.

(** [filepath.Walk] over the files of the root, in the order it visits
    them: it stops at the first error the walk function returns. *)
Fixpoint Walk (tree : list Visit) (sent : list string) : list string * error :=
  match tree with
  | [] => (sent, None)
  | v :: tree' =>
      match walkFn v sent with
      | (sent', None) => Walk tree' sent'
      | (sent', Some e) => (sent', Some e)
      end
  end.

(** [listImagesAsync]: everything sent on [imagesChan] before it is
    closed, and the error sent on [errChan] ([None]: closed without a
    value). *)
Definition listImagesAsync (tree : list Visit) : list string * error :=
  Walk tree [].

(** The pseudo-random source: [draw k] is the raw value of the [k]-th
    call; [int31n] reduces it to [0 <= j < n]. *)
Definition Rand := nat → nat.

Definition int31n (rdm : Rand) (k n : nat) : nat := rdm k `mod` n.

(** The swap function passed to [Shuffle] (line 131):
    [images[i], images[j] = images[j], images[i]]. *)
Definition swap (images : list string) (i j : nat) : outcome (list string) :=
  match images !! j, images !! i with
  | Some y, Some x => Ok (<[j := x]> (<[i := y]> images))
  | _, _ => Panic "index out of range"
  end.

(** [rand.Shuffle]: [for i := n-1; i > 0; i-- { j := int31n(i+1); swap(i, j) }];
    [k] counts the draws made. *)
Fixpoint Shuffle_loop (rdm : Rand) (k i : nat) (images : list string)
  : outcome (list string) :=
  match i with
  | O => Ok images
  | S i' =>
      images' ← swap images i (int31n rdm k (S i));
      Shuffle_loop rdm (S k) i' images'
  end.

Definition Shuffle (rdm : Rand) (n : nat) (images : list string)
  : outcome (list string) :=
  Shuffle_loop rdm 0 (n - 1) images.

(** The receive loop of [listImages] (lines 106-126): every path received
    is appended; a non-nil error received ends the program. *)
Definition receive (imagesChan : list string) : list string :=
  foldl (λ images p, images ++ [p]) [] imagesChan.

Definition listImages (tree : list Visit) (isRandomOrder : bool) (rdm : Rand)
  : outcome (list string) :=
  let '(imagesChan, errChan) := listImagesAsync tree in
  match errChan with
  | Some e => Fatal ("Error listing images: " +:+ e)
  | None =>
      let images := receive imagesChan in
      if isRandomOrder
      then Shuffle rdm (length images) images
      else Ok images
  end.

End Enumerator.

(** ** float64 arithmetic (IEEE 754 binary64, round to nearest even) *)

Module Float64.

Local Open Scope Z_scope.

Definition prec : Z := 53.
Definition emax : Z := 1024.

Definition float64 := spec_float.

(** The conversion [float64(n)] of an [int]. *)
Definition of_int (n : Z) : float64 := binary_normalize prec emax n 0 false.

Definition div : float64 → float64 → float64 := SFdiv prec emax.
Definition mul : float64 → float64 → float64 := SFmul prec emax.

Definition is_zero (x : float64) : bool :=
  match x with S754_zero _ => true | _ => false end.

Definition Signbit (x : float64) : bool :=
  match x with
  | S754_zero s | S754_infinity s | S754_finite s _ _ => s
  | S754_nan => false
  end.

(** [math.Min]: -Inf wins, then NaN, then -0 is below +0. *)
Definition Min (x y : float64) : float64 :=
  match x, y with
  | S754_infinity true, _ | _, S754_infinity true => S754_infinity true
  | S754_nan, _ | _, S754_nan => S754_nan
  | _, _ =>
      if is_zero x && is_zero y then (if Signbit x then x else y)
      else if SFltb x y then x else y
  end.

(** The conversion [int(x)]: the fraction is discarded (truncation
    towards zero).  Go leaves the value open when it does not fit an
    [int]; on amd64 it is the smallest [int], which is what is taken
    here, also for NaN and the infinities. *)
Definition min_int : Z := - 2 ^ 63.

Definition to_int (x : float64) : Z :=
  match x with
  | S754_zero _ => 0
  | S754_finite s m e =>
      let a := match e with
               | Z0 => Zpos m
               | Zpos _ => Zpos m * 2 ^ e
               | Zneg _ => Zpos m / 2 ^ (- e)
               end in
      if a <? 2 ^ 63 then cond_Zopp s a else min_int
  | _ => min_int
  end.

End Float64.

(** ** The outside world

    What the program reads from its environment: the file system, the YAML
    and scanning libraries, the toolkit and the image decoder.  A Go result
    [(v, err)] is a pair whose second component is [None] for [nil]. *)

Record Pixbuf := {
  file : string;      (* the file the pixels come from *)
  Width : Z;          (* GetWidth() *)
  Height : Z          (* GetHeight() *)
}.

Record World := {
  UintSize : Z;                                   (* bits of [uint]: 32 or 64 *)
  ReadFile : string → string * error;             (* os.ReadFile *)
  UnmarshalConfig : string → Config * error;      (* yaml.Unmarshal into a Config *)
  UnmarshalManifest : string → Manifest * error;  (* yaml.Unmarshal into a Manifest *)
  Sscanf : string → error;                        (* fmt.Sscanf(s, "#%02x%02x%02x", ...) *)
  WindowNew : error;                              (* the toolkit constructors, in call order *)
  CssProviderNew : error;
  ScreenGetDefault : error;
  LabelNew_title : error;
  LabelNew_desc : error;
  OverlayNew : error;
  ImageNew : error;
  DrawingAreaNew : error;
  BoxNew : error;
  Tree : string → list Enumerator.Visit;          (* what filepath.Walk visits under a root *)
  Seed : Enumerator.Rand;                         (* the source seeded with time.Now() *)
  PixbufNewFromFile : string → option Pixbuf * error;
  GetSize : Z * Z;                                (* win.GetSize() *)
  ScaleSimple : Pixbuf → Z → Z → option Pixbuf * error
}.

(** ** Loading the manifest and the configuration (lines 41-71) *)

Section Loaders.
Context (w : World).

Definition loadManifest (path : string) : option Manifest * error :=
  let '(data, err) := ReadFile w path in
  match err with
  | Some e => (None, Some e)
  | None =>
      let '(manifest, err) := UnmarshalManifest w data in
      match err with
      | Some e => (None, Some e)
      | None => (Some manifest, None)
      end
  end.

Definition loadConfig (path : string) : option Config * error :=
  let '(data, err) := ReadFile w path in
  match err with
  | Some e => (None, Some e)
  | None =>
      let '(config, err) := UnmarshalConfig w data in
      match err with
      | Some e => (None, Some e)
      | None => (Some config, None)
      end
  end.

(** [hexToRGB] (lines 138-145): only whether the scan fails matters
    below; the three components colour the caption band. *)
Definition hexToRGB (hexColor : string) : error := Sscanf w hexColor.

End Loaders.

(** ** The settings [main] derives from the configuration (lines 153-183) *)

Record Settings := {
  contentDirectory : string;
  slideInterval : Z;        (* uint, milliseconds *)
  fillColor : string;
  enableText : bool;
  textColor : string;
  manifestPath : string
}.

(** Multiplication on [uint]: the product modulo [2 ^ bits]. *)
Definition uint_mul (bits a b : Z) : Z := ((a * b) mod 2 ^ bits)%Z.

Definition settings (bits : Z) (config : Config) : Settings :=
  let contentDirectory := ContentDirectory config in
  let contentDirectory :=
    if bool_decide (contentDirectory = "") then "./content" else contentDirectory in
  let slideInterval := uint_mul bits (SlideInterval config) 1000 in
  let slideInterval := if (slideInterval =? 0)%Z then 30000%Z else slideInterval in
  let fillColor := FillColor config in
  let fillColor := if bool_decide (fillColor = "") then "#ADD8E6" else fillColor in
  let enableText := EnableText config in
  let textColor := TextColor config in
  let textColor := if bool_decide (textColor = "") then "#000000" else textColor in
  let manifestPath := ManifestPath config in
  let manifestPath :=
    if bool_decide (manifestPath = "") then "./manifest.yaml" else manifestPath in
  {| contentDirectory := contentDirectory; slideInterval := slideInterval;
     fillColor := fillColor; enableText := enableText; textColor := textColor;
     manifestPath := manifestPath |}.

(** ** The slideshow controller (lines 284-409) *)

Module Controller.

Import Float64.
Local Open Scope Z_scope.

(** The two widgets stacked over the image: the caption band and the box
    that holds the title and description labels. *)
Inductive Widget := drawingArea | textContainer.

#[global] Instance Widget_eq_dec : EqDecision Widget.
Proof. solve_decision. Defined.

(** What the closures of [main] capture and never assign again. *)
Record Env := {
  images : list string;
  manifest : Manifest;
  conf : Settings
}.

(** What the closures assign: the index, the widgets' contents and the
    pending timeout of the main loop ([None]: no source is armed). *)
Record State := {
  currentIndex : Z;
  img : option Pixbuf;
  titleLabel : string;
  descLabel : string;
  overlay : list Widget;
  timer : option Z
}.

Definition set_currentIndex (i : Z) (st : State) : State :=
  {| currentIndex := i; img := img st; titleLabel := titleLabel st;
     descLabel := descLabel st; overlay := overlay st; timer := timer st |}.

Definition SetFromPixbuf (p : option Pixbuf) (st : State) : State :=
  {| currentIndex := currentIndex st; img := p; titleLabel := titleLabel st;
     descLabel := descLabel st; overlay := overlay st; timer := timer st |}.

Definition SetMarkup (title desc : string) (st : State) : State :=
  {| currentIndex := currentIndex st; img := img st; titleLabel := title;
     descLabel := desc; overlay := overlay st; timer := timer st |}.

Definition set_overlay (ws : list Widget) (st : State) : State :=
  {| currentIndex := currentIndex st; img := img st; titleLabel := titleLabel st;
     descLabel := descLabel st; overlay := ws; timer := timer st |}.

Definition set_timer (t : option Z) (st : State) : State :=
  {| currentIndex := currentIndex st; img := img st; titleLabel := titleLabel st;
     descLabel := descLabel st; overlay := overlay st; timer := t |}.

(** [overlay.Remove] and [overlay.AddOverlay]. *)
Definition Remove (x : Widget) (st : State) : State :=
  set_overlay (filter (λ y, y ≠ x) (overlay st)) st.

Definition AddOverlay (x : Widget) (st : State) : State :=
  set_overlay (overlay st ++ [x]) st.

Definition quote : string := String "034"%char EmptyString.

Definition span (color font text : string) : string :=
  "<span foreground=" +:+ quote +:+ color +:+ quote +:+ " font=" +:+ quote
    +:+ font +:+ quote +:+ ">" +:+ text +:+ "</span>".

Definition textCardHeight : float64 := of_int 150.

(** Lines 322-329: the size the image is scaled to. *)
Definition scale (width height origWidth origHeight : Z) : float64 :=
  Min (div (of_int width) (of_int origWidth))
      (div (of_int height) (of_int origHeight)).

Definition dest (width height origWidth origHeight : Z) : Z * Z :=
  let height := height - to_int textCardHeight in
  let scale := scale width height origWidth origHeight in
  (to_int (mul (of_int origWidth) scale), to_int (mul (of_int origHeight) scale)).

#[global] Arguments scale : simpl never.
#[global] Arguments dest : simpl never.

(** A cleanup closure: the pointers it dereferences and unrefs. *)
Definition cleanup := list (option Pixbuf).

Fixpoint call (c : cleanup) : outcome () :=
  match c with
  | [] => Ok ()
  | None :: _ => Panic "nil pointer dereference"
  | Some _ :: c' => call c'
  end.

Section WithEnv.
Context (w : World) (env : Env).

(** The loop over the manifest (lines 351-359). *)
Fixpoint caption (entries : list Entry) (imagePath : string) (st : State) : State :=
  match entries with
  | [] => st
  | entry :: entries' =>
      if bool_decide (ImagePath entry = imagePath)
      then
        let st := SetMarkup (span (textColor (conf env)) "24" (Title entry))
                            (span (textColor (conf env)) "20" (Description entry)) st in
        AddOverlay textContainer (AddOverlay drawingArea st)
      else caption entries' imagePath st
  end.

(** [updateImage] (lines 288-366): the new state and the cleanup
    closure it returns. *)
Definition updateImage (st : State) : outcome (State * cleanup) :=
  let st :=
    if (currentIndex st <? 0) || (len (images env) <=? currentIndex st)
    then set_currentIndex 0 st else st in
  imagePath ← index (images env) (currentIndex st);
  let '(pixbuf, err) := PixbufNewFromFile w imagePath in
  match err, pixbuf with
  | Some _, _ => Ok (st, [pixbuf])
  | None, None => Ok (st, [])
  | None, Some pb =>
      let origWidth := Width pb in
      let origHeight := Height pb in
      if (origWidth =? 0) || (origHeight =? 0) then Ok (st, [pixbuf])
      else
        let '(width, height) := GetSize w in
        let '(destWidth, destHeight) := dest width height origWidth origHeight in
        let '(scaledPixbuf, err) := ScaleSimple w pb destWidth destHeight in
        match err with
        | Some e => Fatal ("Unable to scale pixbuf:" +:+ e)
        | None =>
            let st := SetFromPixbuf scaledPixbuf st in
            let st :=
              if enableText (conf env)
              then
                let st := SetMarkup "" "" st in
                let st := Remove textContainer (Remove drawingArea st) in
                caption (Entries (manifest env)) imagePath st
              else st in
            Ok (st, [pixbuf; scaledPixbuf])
        end
  end.

(** [cleanup := updateImage(); cleanup()] *)
Definition refresh (st : State) : outcome State :=
  '(st', c) ← updateImage st;
  _ ← call c;
  Ok st'.

(** [currentIndex = (currentIndex + 1) % len(images)]; the sum does not
    overflow, the index being at most the length of a slice. *)
Definition next (st : State) : outcome State :=
  i ← rem (currentIndex st + 1) (len (images env));
  Ok (set_currentIndex i st).

(** The timeout callback (lines 374-379).  It returns [false], so the
    main loop destroys the source that fired. *)
Definition onTimeout (st : State) : outcome State :=
  st ← next st;
  st ← refresh st;
  Ok (set_timer None st).

Definition KEY_space : Z := 0x020.
Definition KEY_Left : Z := 0xff51.
Definition KEY_Right : Z := 0xff53.

(** The switch of the key press handler (lines 384-394). *)
Definition turn (keyval : Z) (st : State) : outcome State :=
  if (keyval =? KEY_space) || (keyval =? KEY_Right) then next st
  else if keyval =? KEY_Left then
    if currentIndex st =? 0
    then Ok (set_currentIndex (len (images env) - 1) st)
    else Ok (set_currentIndex (currentIndex st - 1) st)
  else Ok st.

(** The key press handler (lines 382-398). *)
Definition onKeyPress (keyval : Z) (st : State) : outcome State :=
  st ← turn keyval st;
  refresh st.

(** The mouse click handler (lines 401-405). *)
Definition onButtonPress (st : State) : outcome State :=
  st ← next st;
  refresh st.

Inductive Event := Timeout | KeyPress (keyval : Z) | ButtonPress.

Definition handle (ev : Event) (st : State) : outcome State :=
  match ev with
  | Timeout => onTimeout st
  | KeyPress keyval => onKeyPress keyval st
  | ButtonPress => onButtonPress st
  end.

(** One turn of [gtk.Main()]: a timeout fires only while a source is
    armed; a handler that ends the program makes no step. *)
Inductive step : State → Event → State → Prop :=
| step_timeout st ms st' :
    timer st = Some ms → onTimeout st = Ok st' → step st Timeout st'
| step_key st keyval st' :
    onKeyPress keyval st = Ok st' → step st (KeyPress keyval) st'
| step_button st st' :
    onButtonPress st = Ok st' → step st ButtonPress st'.

Inductive steps : State → list Event → State → Prop :=
| steps_nil st : steps st [] st
| steps_cons st ev st' evs st'' :
    step st ev st' → steps st' evs st'' → steps st (ev :: evs) st''.

End WithEnv.

(** The state when the closures are created (line 284 and the overlay
    built in lines 264-272), before the first [updateImage]. *)
Definition initial : State :=
  {| currentIndex := 0; img := None; titleLabel := ""; descLabel := "";
     overlay := [drawingArea; textContainer]; timer := None |}.

End Controller.

(** ** [main] up to [gtk.Main()] (lines 147-411) *)

Import Controller.

Definition must {A} (msg : string) (e : error) (k : outcome A) : outcome A :=
  match e with
  | Some m => Fatal (msg +:+ m)
  | None => k
  end.

Definition main (w : World) : outcome (Env * State) :=
  match loadConfig w "config.yaml" with
  | (_, Some e) => Fatal ("Failed to load config: " +:+ e)
  | (None, None) => Panic "nil pointer dereference"
  | (Some config, None) =>
      let s := settings (UintSize w) config in
      must "" (hexToRGB w (fillColor s)) (
      match loadManifest w (manifestPath s) with
      | (_, Some e) => Fatal ("Failed to load manifest: " +:+ e)
      | (None, None) => Panic "nil pointer dereference"
      | (Some manifest, None) =>
          must "Unable to create window:" (WindowNew w) (
          must "Unable to create CSS provider:" (CssProviderNew w) (
          must "Unable to get screen:" (ScreenGetDefault w) (
          must "Unable to create label:" (LabelNew_title w) (
          must "Unable to create label:" (LabelNew_desc w) (
          must "Unable to create overlay:" (OverlayNew w) (
          must "Unable to create image:" (ImageNew w) (
          must "Unable to create drawing area:" (DrawingAreaNew w) (
          must "Unable to create text container:" (BoxNew w) (
          images ← Enumerator.listImages (Tree w (contentDirectory s))
                                         (IsRandomOrder config) (Seed w);
          let env := {| images := images; manifest := manifest; conf := s |} in
          let st := set_timer (Some (slideInterval s)) initial in
          st ← refresh w env st;
          Ok (env, st))))))))))
      end)
  end.

(** ** The colour of the caption band (lines 138-145) *)

Module Colour.

Import Float64.

(** The component [hexToRGB] returns for a scanned [uint8] [c]:
    [float64(c) / 255.0]; the constant is the float of the integer 255. *)
Definition channel (c : Z) : float64 := div (of_int c) (of_int 255).

(** The values of a [uint8]. *)
Definition bytes : list Z := Z.of_nat <$> seq 0 256.

End Colour.

(** * The previous revision ([src/unnamed/part_000], lines 15-343)

    [loadManifest], [loadConfig], [hexToRGB], the settings and the widgets
    are those of the current revision; the configuration has no
    [is_random_order] field, and that field of [Config] is not read here.
    The revision differs in [listImages], which walks the directory
    itself, in [updateImage], which ends the program when an image does
    not decode, clears the caption whether or not captions are enabled and
    arms the timeout again, and in [main], which calls [updateImage]
    twice before the main loop. *)

Module Previous.

Import Float64.
Local Open Scope Z_scope.

(** [listImages] (lines 84-99): the walk function is [Enumerator.walkFn]
    with [append] in place of the send, and what was found before an
    error is returned with the error. *)
Definition listImages (tree : list Enumerator.Visit) : list string * error :=
  Enumerator.Walk tree [].

(** The variables the closures share and the widgets, with the timeouts
    attached to the main loop.  A handle names one attached source; the
    model numbers them upwards ([lastID] is the last one given out), the
    values themselves being those of GLib and of no concern to the
    program, which only stores the handle and hands it back. *)
Record State := {
  currentIndex : Z;
  img : option Pixbuf;
  titleLabel : string;
  descLabel : string;
  overlay : list Widget;
  timeoutID : Z;              (* glib.SourceHandle, 0 before the first one *)
  sources : list (Z * Z);     (* pending timeouts: handle and interval (ms) *)
  lastID : Z
}.

Definition set_currentIndex (i : Z) (st : State) : State :=
  {| currentIndex := i; img := img st; titleLabel := titleLabel st;
     descLabel := descLabel st; overlay := overlay st;
     timeoutID := timeoutID st; sources := sources st; lastID := lastID st |}.

Definition SetFromPixbuf (p : option Pixbuf) (st : State) : State :=
  {| currentIndex := currentIndex st; img := p; titleLabel := titleLabel st;
     descLabel := descLabel st; overlay := overlay st;
     timeoutID := timeoutID st; sources := sources st; lastID := lastID st |}.

Definition SetMarkup (title desc : string) (st : State) : State :=
  {| currentIndex := currentIndex st; img := img st; titleLabel := title;
     descLabel := desc; overlay := overlay st;
     timeoutID := timeoutID st; sources := sources st; lastID := lastID st |}.

Definition set_overlay (ws : list Widget) (st : State) : State :=
  {| currentIndex := currentIndex st; img := img st; titleLabel := titleLabel st;
     descLabel := descLabel st; overlay := ws;
     timeoutID := timeoutID st; sources := sources st; lastID := lastID st |}.

Definition set_timeoutID (id : Z) (st : State) : State :=
  {| currentIndex := currentIndex st; img := img st; titleLabel := titleLabel st;
     descLabel := descLabel st; overlay := overlay st;
     timeoutID := id; sources := sources st; lastID := lastID st |}.

Definition Remove (x : Widget) (st : State) : State :=
  set_overlay (filter (λ y, y ≠ x) (overlay st)) st.

Definition AddOverlay (x : Widget) (st : State) : State :=
  set_overlay (overlay st ++ [x]) st.

(** [glib.SourceRemove]: the source with this handle is destroyed. *)
Definition SourceRemove (id : Z) (st : State) : State :=
  {| currentIndex := currentIndex st; img := img st; titleLabel := titleLabel st;
     descLabel := descLabel st; overlay := overlay st;
     timeoutID := timeoutID st;
     sources := filter (λ s, s.1 ≠ id) (sources st);
     lastID := lastID st |}.

(** [glib.TimeoutAdd]: a new timeout is attached under a handle that no
    pending source has, and the handle is returned. *)
Definition TimeoutAdd (interval : Z) (st : State) : Z * State :=
  let id := lastID st + 1 in
  (id,
   {| currentIndex := currentIndex st; img := img st; titleLabel := titleLabel st;
      descLabel := descLabel st; overlay := overlay st;
      timeoutID := timeoutID st;
      sources := sources st ++ [(id, interval)];
      lastID := id |}).

(** The error of gotk3 for a null pointer returned by GDK. *)
Definition nilPtrErr : string := "cgo returned unexpected nil pointer".

Section WithEnv.

Variable w : World.
Variable env : Env.

(** The loop over the manifest entries (lines 288-296). *)
Fixpoint caption (entries : list Entry) (imagePath : string) (st : State) : State :=
  match entries with
  | [] => st
  | entry :: entries' =>
      if bool_decide (ImagePath entry = imagePath)
      then
        let st := SetMarkup (span (textColor (conf env)) "24" (Title entry))
                            (span (textColor (conf env)) "20" (Description entry)) st in
        AddOverlay textContainer (AddOverlay drawingArea st)
      else caption entries' imagePath st
  end.

(** [updateImage] (lines 252-310).  gotk3 returns a pixbuf whenever it
    returns no error; were there neither, the size read from the nil
    pixbuf would be that of GDK for a null pointer and [ScaleSimple] would
    report the null pointer, which ends the program. *)
Definition updateImage (st : State) : outcome State :=
  let st :=
    if (currentIndex st <? 0) || (len (images env) <=? currentIndex st)
    then set_currentIndex 0 st else st in
  imagePath ← index (images env) (currentIndex st);
  let '(pixbuf, err) := PixbufNewFromFile w imagePath in
  match err, pixbuf with
  | Some e, _ => Fatal ("Unable to create pixbuf:" +:+ e)
  | None, None => Fatal ("Unable to scale pixbuf:" +:+ nilPtrErr)
  | None, Some pb =>
      let '(width, height) := GetSize w in
      let origWidth := Width pb in
      let origHeight := Height pb in
      let '(destWidth, destHeight) := dest width height origWidth origHeight in
      let '(scaledPixbuf, err) := ScaleSimple w pb destWidth destHeight in
      match err with
      | Some e => Fatal ("Unable to scale pixbuf:" +:+ e)
      | None =>
          let st := SetFromPixbuf scaledPixbuf st in
          let st := SetMarkup "" "" st in
          let st := Remove textContainer (Remove drawingArea st) in
          let st :=
            if enableText (conf env)
            then caption (Entries (manifest env)) imagePath st
            else st in
          let st :=
            if timeoutID st =? 0 then st else SourceRemove (timeoutID st) st in
          let '(id, st) := TimeoutAdd (slideInterval (conf env)) st in
          Ok (set_timeoutID id st)
      end
  end.

Definition next (st : State) : outcome State :=
  i ← rem (currentIndex st + 1) (len (images env));
  Ok (set_currentIndex i st).

(** The timeout callback (lines 305-309), run for the source [id] that
    fired.  It returns [false], so the main loop destroys that source if
    the callback has not. *)
Definition onTimeout (id : Z) (st : State) : outcome State :=
  st ← next st;
  st ← updateImage st;
  Ok (SourceRemove id st).

(** The switch of the key press handler (lines 318-328). *)
Definition turn (keyval : Z) (st : State) : outcome State :=
  if (keyval =? KEY_space) || (keyval =? KEY_Right) then next st
  else if keyval =? KEY_Left then
    if currentIndex st =? 0
    then Ok (set_currentIndex (len (images env) - 1) st)
    else Ok (set_currentIndex (currentIndex st - 1) st)
  else Ok st.

(** The key press handler (lines 316-331). *)
Definition onKeyPress (keyval : Z) (st : State) : outcome State :=
  st ← turn keyval st;
  updateImage st.

(** The mouse click handler (lines 334-337). *)
Definition onButtonPress (st : State) : outcome State :=
  st ← next st;
  updateImage st.

Inductive Event := Timeout (id : Z) | KeyPress (keyval : Z) | ButtonPress.

Definition handle (ev : Event) (st : State) : outcome State :=
  match ev with
  | Timeout id => onTimeout id st
  | KeyPress keyval => onKeyPress keyval st
  | ButtonPress => onButtonPress st
  end.

(** One turn of [gtk.Main()]: a timeout fires only for a source that is
    attached; a handler that ends the program makes no step. *)
Inductive step : State → Event → State → Prop :=
| step_timeout st id interval st' :
    (id, interval) ∈ sources st → onTimeout id st = Ok st' →
    step st (Timeout id) st'
| step_key st keyval st' :
    onKeyPress keyval st = Ok st' → step st (KeyPress keyval) st'
| step_button st st' :
    onButtonPress st = Ok st' → step st ButtonPress st'.

Inductive steps : State → list Event → State → Prop :=
| steps_nil st : steps st [] st
| steps_cons st ev st' evs st'' :
    step st ev st' → steps st' evs st'' → steps st (ev :: evs) st''.

End WithEnv.

(** The state when the closures are created (lines 247-248, and the
    overlay built in lines 227 and 235). *)
Definition initial : State :=
  {| currentIndex := 0; img := None; titleLabel := ""; descLabel := "";
     overlay := [drawingArea; textContainer];
     timeoutID := 0; sources := []; lastID := 0 |}.

(** [main] up to [gtk.Main()] (lines 110-341). *)
Definition main (w : World) : outcome (Env * State) :=
  match loadConfig w "config.yaml" with
  | (_, Some e) => Fatal ("Failed to load config: " +:+ e)
  | (None, None) => Panic "nil pointer dereference"
  | (Some config, None) =>
      let s := settings (UintSize w) config in
      must "" (hexToRGB w (fillColor s)) (
      match loadManifest w (manifestPath s) with
      | (_, Some e) => Fatal ("Failed to load manifest: " +:+ e)
      | (None, None) => Panic "nil pointer dereference"
      | (Some manifest, None) =>
          must "Unable to create window:" (WindowNew w) (
          must "Unable to create CSS provider:" (CssProviderNew w) (
          must "Unable to get screen:" (ScreenGetDefault w) (
          must "Unable to create label:" (LabelNew_title w) (
          must "Unable to create label:" (LabelNew_desc w) (
          must "Unable to create overlay:" (OverlayNew w) (
          must "Unable to create image:" (ImageNew w) (
          must "Unable to create drawing area:" (DrawingAreaNew w) (
          must "Unable to create text container:" (BoxNew w) (
          match listImages (Tree w (contentDirectory s)) with
          | (_, Some e) => Fatal ("Failed to list images: " +:+ e)
          | (images, None) =>
              let env := {| images := images; manifest := manifest; conf := s |} in
              st ← updateImage w env initial;
              st ← updateImage w env st;
              Ok (env, st)
          end)))))))))
      end)
  end.

(** The index designates an image of the list. *)
Definition in_range (env : Env) (st : State) : Prop :=
  0 ≤ currentIndex st < len (images env).

(** What is on screen is the image at the index: the picture is that
    image scaled for the window; with captions enabled and an entry of
    the manifest for its path, the labels hold the title and the
    description of the first such entry and are on the overlay with the
    band; otherwise the labels are empty and the overlay holds neither. *)
Definition shows (w : World) (env : Env) (st : State) : Prop :=
  ∃ imagePath pb,
    images env !! Z.to_nat (currentIndex st) = Some imagePath ∧
    PixbufNewFromFile w imagePath = (Some pb, None) ∧
    ScaleSimple w pb (dest (GetSize w).1 (GetSize w).2 (Width pb) (Height pb)).1
                     (dest (GetSize w).1 (GetSize w).2 (Width pb) (Height pb)).2
      = (img st, None) ∧
    match
      (if enableText (conf env)
       then list_find (λ entry, ImagePath entry = imagePath) (Entries (manifest env))
       else None)
    with
    | Some (_, entry) =>
        titleLabel st = span (textColor (conf env)) "24" (Title entry) ∧
        descLabel st = span (textColor (conf env)) "20" (Description entry) ∧
        overlay st = [drawingArea; textContainer]
    | None => titleLabel st = "" ∧ descLabel st = "" ∧ overlay st = []
    end.

(** One timeout is pending: the one whose handle is in [timeoutID], the
    last one attached, for the slide interval. *)
Definition armed (env : Env) (st : State) : Prop :=
  sources st = [(timeoutID st, slideInterval (conf env))] ∧
  timeoutID st = lastID st ∧ 0 < lastID st.

(** The timeouts of [k] transitions that follow a state whose pending
    timeout has the handle [id]: each firing leaves the next handle
    pending. *)
Definition timeouts (id : Z) (k : nat) : list Event :=
  (λ i, Timeout (id + Z.of_nat i)) <$> seq 0 k.

End Previous.

(** * The first revision ([src/main.go], lines 414-666)

    There is no configuration: the manifest is [./manifest.yaml], the
    images are those of [./content], the timeout is armed for 30000 ms
    and captions are always enabled, in black.  [listImages] is that of
    [Previous].  [updateImage] increments the index once it has drawn the
    image, so that between two handlers the index is one above the image
    on screen.  The state is that of [Previous]; the image widget, which
    this revision puts on the overlay once (line 537) and never removes,
    is not listed among the children of the overlay. *)

Module Earliest.

Import Float64 Previous.
Local Open Scope Z_scope.

Record Env := {
  images : list string;
  manifest : Manifest
}.

(** Lines 590-598: the size the image is scaled to; the whole height of
    the window is used. *)
Definition dest (width height origWidth origHeight : Z) : Z * Z :=
  let scale := scale width height origWidth origHeight in
  (to_int (mul (of_int origWidth) scale), to_int (mul (of_int origHeight) scale)).

#[global] Arguments dest : simpl never.

Section WithEnv.

Variable w : World.
Variable env : Env.

(** The loop over the manifest entries (lines 610-619). *)
Fixpoint caption (entries : list Entry) (imagePath : string) (st : State) : State :=
  match entries with
  | [] => st
  | entry :: entries' =>
      if bool_decide (ImagePath entry = imagePath)
      then
        let st := SetMarkup (span "black" "24" (Title entry))
                            (span "black" "20" (Description entry)) st in
        AddOverlay textContainer (AddOverlay drawingArea st)
      else caption entries' imagePath st
  end.

(** [updateImage] (lines 577-633); a decoder that returns neither a
    pixbuf nor an error is treated as in [Previous]. *)
Definition updateImage (st : State) : outcome State :=
  let st :=
    if len (images env) <=? currentIndex st then set_currentIndex 0 st else st in
  imagePath ← index (images env) (currentIndex st);
  let '(pixbuf, err) := PixbufNewFromFile w imagePath in
  match err, pixbuf with
  | Some e, _ => Fatal ("Unable to create pixbuf:" +:+ e)
  | None, None => Fatal ("Unable to scale pixbuf:" +:+ nilPtrErr)
  | None, Some pb =>
      let '(width, height) := GetSize w in
      let origWidth := Width pb in
      let origHeight := Height pb in
      let '(destWidth, destHeight) := dest width height origWidth origHeight in
      let '(scaledPixbuf, err) := ScaleSimple w pb destWidth destHeight in
      match err with
      | Some e => Fatal ("Unable to scale pixbuf:" +:+ e)
      | None =>
          let st := SetFromPixbuf scaledPixbuf st in
          let st := SetMarkup "" "" st in
          let st := Remove textContainer (Remove drawingArea st) in
          let st := caption (Entries (manifest env)) imagePath st in
          let st := set_currentIndex (currentIndex st + 1) st in
          let st :=
            if timeoutID st =? 0 then st else SourceRemove (timeoutID st) st in
          let '(id, st) := TimeoutAdd 30000 st in
          Ok (set_timeoutID id st)
      end
  end.

Definition next (st : State) : outcome State :=
  i ← rem (currentIndex st + 1) (len (images env));
  Ok (set_currentIndex i st).

(** The timeout callback (lines 628-632), run for the source [id] that
    fired. *)
Definition onTimeout (id : Z) (st : State) : outcome State :=
  st ← next st;
  st ← updateImage st;
  Ok (SourceRemove id st).

(** The key press handler (lines 639-654): the image is updated in the
    two cases of the switch only. *)
Definition onKeyPress (keyval : Z) (st : State) : outcome State :=
  if (keyval =? KEY_space) || (keyval =? KEY_Right) then
    st ← next st;
    updateImage st
  else if keyval =? KEY_Left then
    let st :=
      if currentIndex st =? 0
      then set_currentIndex (len (images env) - 1) st
      else set_currentIndex (currentIndex st - 1) st in
    updateImage st
  else Ok st.

(** The mouse click handler (lines 657-660). *)
Definition onButtonPress (st : State) : outcome State :=
  st ← next st;
  updateImage st.

Definition handle (ev : Event) (st : State) : outcome State :=
  match ev with
  | Timeout id => onTimeout id st
  | KeyPress keyval => onKeyPress keyval st
  | ButtonPress => onButtonPress st
  end.

(** The image on screen is the image number [d] of the list, scaled for
    the window, and the index is one above. *)
Definition onscreen (d : Z) (st : State) : Prop :=
  currentIndex st = d + 1 ∧ 0 ≤ d ∧
  ∃ imagePath pb,
    images env !! Z.to_nat d = Some imagePath ∧
    PixbufNewFromFile w imagePath = (Some pb, None) ∧
    ScaleSimple w pb (dest (GetSize w).1 (GetSize w).2 (Width pb) (Height pb)).1
                     (dest (GetSize w).1 (GetSize w).2 (Width pb) (Height pb)).2
      = (img st, None).

End WithEnv.

(** [main] up to [gtk.Main()] (lines 474-664). *)
Definition main (w : World) : outcome (Env * State) :=
  match loadManifest w "./manifest.yaml" with
  | (_, Some e) => Fatal ("Failed to load manifest: " +:+ e)
  | (None, None) => Panic "nil pointer dereference"
  | (Some manifest, None) =>
      must "Unable to create window:" (WindowNew w) (
      must "Unable to create CSS provider:" (CssProviderNew w) (
      must "Unable to create label:" (LabelNew_title w) (
      must "Unable to create label:" (LabelNew_desc w) (
      must "Unable to create overlay:" (OverlayNew w) (
      must "Unable to create image:" (ImageNew w) (
      must "Unable to create drawing area:" (DrawingAreaNew w) (
      must "Unable to create text container:" (BoxNew w) (
      match listImages (Tree w "./content") with
      | (_, Some e) => Fatal ("Failed to list images: " +:+ e)
      | (images, None) =>
          let env := {| images := images; manifest := manifest |} in
          st ← updateImage w env initial;
          st ← updateImage w env st;
          Ok (env, st)
      end))))))))
  end.

End Earliest.

(** ** Vocabulary of the properties *)

(** What a walk sends: the paths of the visits that are files with an
    allowed extension, in visiting order. *)
Definition image_files (tree : list Enumerator.Visit) : list string :=
  filter (λ p, Enumerator.is_image p)
         (Enumerator.path <$> filter (λ v, Enumerator.IsDir v = false) tree).

(** The index designates an image of the list. *)
Definition in_range (env : Env) (st : State) : Prop :=
  (0 ≤ currentIndex st < len (images env))%Z.

(** The caption overlay is on screen: the band and the box of the two
    labels are children of the overlay. *)
Definition caption_shown (st : State) : bool :=
  bool_decide (drawingArea ∈ overlay st) && bool_decide (textContainer ∈ overlay st).

(** Some manifest entry has exactly this image path. *)
Definition has_entry (m : Manifest) (imagePath : string) : bool :=
  bool_decide (Exists (λ entry, ImagePath entry = imagePath) (Entries m)).

(** What the index becomes on an event, [n] being the number of images
    and [i] the index before. *)
Definition target (ev : Event) (n i : Z) : Z :=
  match ev with
  | Timeout | ButtonPress => ((i + 1) mod n)%Z
  | KeyPress keyval =>
      if ((keyval =? KEY_space) || (keyval =? KEY_Right))%Z then ((i + 1) mod n)%Z
      else if (keyval =? KEY_Left)%Z then (if (i =? 0)%Z then n - 1 else i - 1)%Z
      else i
  end.

(** The image decodes with a size and can be scaled: [updateImage] then
    runs to its end. *)
Definition displays (w : World) (imagePath : string) : Prop :=
  ∃ pb scaled,
    PixbufNewFromFile w imagePath = (Some pb, None) ∧
    Width pb ≠ 0%Z ∧ Height pb ≠ 0%Z ∧
    ScaleSimple w pb (dest (GetSize w).1 (GetSize w).2 (Width pb) (Height pb)).1
                     (dest (GetSize w).1 (GetSize w).2 (Width pb) (Height pb)).2
      = (Some scaled, None).

(** Positive normal numbers: the sign is +, the mantissa has 53 digits and
    the exponent is at most [B] in absolute value. *)
Definition normal (B : Z) (x : spec_float) : Prop :=
  match x with
  | S754_finite false m e => (2 ^ 52 <= Zpos m < 2 ^ 53 ∧ - B <= e <= B)%Z
  | _ => False
  end.

(** The same or +0. *)
Definition nonneg (B : Z) (x : spec_float) : Prop :=
  x = S754_zero false ∨ normal B x.

(** Numbers that convert to an [int] that is not positive: -0, the
    negative numbers, -Inf and NaN. *)
Definition not_positive (x : spec_float) : Prop :=
  match x with
  | S754_zero true | S754_finite true _ _ | S754_infinity true | S754_nan => True
  | _ => False
  end.

(** The real value of a float. *)
Definition bpow (e : Z) : R := powerRZ 2 e.

Definition FR (x : spec_float) : R :=
  match x with
  | S754_finite s m e => ((if s then -1 else 1) * IZR (Zpos m) * bpow e)%R
  | _ => 0%R
  end.

(** The relative rounding error allowed for below: one unit in the last
    place of a 53-digit mantissa. *)
Definition eps : R := bpow (-52).

(** Every constructor of the toolkit called by [main] succeeds. *)
Definition toolkit_ok (w : World) : Prop :=
  WindowNew w = None ∧ CssProviderNew w = None ∧ ScreenGetDefault w = None ∧
  LabelNew_title w = None ∧ LabelNew_desc w = None ∧ OverlayNew w = None ∧
  ImageNew w = None ∧ DrawingAreaNew w = None ∧ BoxNew w = None.

(** The decoder reports no error for the image but returns no pixbuf, or
    one without width or height: [updateImage] leaves at lines 304-313. *)
Definition unusable (w : World) (imagePath : string) : Prop :=
  PixbufNewFromFile w imagePath = (None, None) ∨
  ∃ pb, PixbufNewFromFile w imagePath = (Some pb, None) ∧
        (Width pb = 0%Z ∨ Height pb = 0%Z).

#[global] Instance Event_eq_dec : EqDecision Event.
Proof. solve_decision. Defined.

(** ** Sample worlds *)

Module Sample.

Import Enumerator.

Definition config : Config :=
  {| ContentDirectory := ""; ManifestPath := ""; SlideInterval := 5;
     FillColor := ""; TextColor := ""; EnableText := true;
     IsRandomOrder := false |}.

Definition captions : Manifest :=
  {| Entries :=
       [ {| ID := "a"; Title := "First"; ImagePath := "content/a.png";
            Description := "The first page" |} ] |}.

Definition tree : list Visit :=
  [ {| path := "./content"; IsDir := true; err := None |};
    {| path := "content/a.png"; IsDir := false; err := None |};
    {| path := "content/b.jpg"; IsDir := false; err := None |};
    {| path := "content/notes.txt"; IsDir := false; err := None |};
    {| path := "content/old.gif"; IsDir := true; err := None |};
    {| path := "content/old.gif/c.bmp"; IsDir := false; err := None |} ].

Definition seed : Rand := λ k, (7 * k + 3)%nat.

Definition readFile (path : string) : string * error :=
  if bool_decide (path = "config.yaml") then ("config", None)
  else if bool_decide (path = "./manifest.yaml") then ("manifest", None)
  else ("", Some "no such file or directory").

Definition decode (path : string) : option Pixbuf * error :=
  (Some {| file := path; Width := 3000; Height := 2000 |}, None).

Definition scaleSimple (p : Pixbuf) (width height : Z) : option Pixbuf * error :=
  if ((width <=? 0) || (height <=? 0))%Z then (None, Some "nil pointer")
  else (Some {| file := file p; Width := width; Height := height |}, None).

Definition world_with (config : Config) (tree : list Visit)
    (decode : string → option Pixbuf * error) : World :=
  {| UintSize := 64;
     ReadFile := readFile;
     UnmarshalConfig := λ _, (config, None);
     UnmarshalManifest := λ _, (captions, None);
     Sscanf := λ _, None;
     WindowNew := None; CssProviderNew := None; ScreenGetDefault := None;
     LabelNew_title := None; LabelNew_desc := None; OverlayNew := None;
     ImageNew := None; DrawingAreaNew := None; BoxNew := None;
     Tree := λ _, tree;
     Seed := seed;
     PixbufNewFromFile := decode;
     GetSize := (1920, 1080)%Z;
     ScaleSimple := scaleSimple |}.

(** Three images, captions enabled, every file decodes. *)
Definition world : World := world_with config tree decode.

Definition env : Env :=
  {| images := ["content/a.png"; "content/b.jpg"; "content/old.gif/c.bmp"];
     manifest := captions;
     conf := settings 64 config |}.

(** The first image as decoded, as scaled for the window of 1920 by 1080,
    and the state once it is drawn. *)
Definition page : Pixbuf :=
  {| file := "content/a.png"; Width := 3000; Height := 2000 |}.

Definition page_scaled : Pixbuf :=
  {| file := "content/a.png"; Width := 1395; Height := 930 |}.

Definition first : State :=
  {| currentIndex := 0;
     img := Some page_scaled;
     titleLabel := span "#000000" "24" "First";
     descLabel := span "#000000" "20" "The first page";
     overlay := [drawingArea; textContainer];
     timer := None |}.

(** The same with [enable_text: false]. *)
Definition config_no_text : Config :=
  {| ContentDirectory := ""; ManifestPath := ""; SlideInterval := 5;
     FillColor := ""; TextColor := ""; EnableText := false;
     IsRandomOrder := false |}.

Definition world_no_text : World := world_with config_no_text tree decode.

(** The same with a second image that does not decode. *)
Definition decode_bad (path : string) : option Pixbuf * error :=
  if bool_decide (path = "content/b.jpg")
  then (None, Some "Unrecognized image file format")
  else decode path.

Definition world_bad_image : World := world_with config tree decode_bad.

(** The same with a first image that does not decode. *)
Definition decode_bad_first (path : string) : option Pixbuf * error :=
  if bool_decide (path = "content/a.png")
  then (None, Some "Unrecognized image file format")
  else decode path.

Definition world_bad_first : World := world_with config tree decode_bad_first.

(** A content directory without images. *)
Definition tree_empty : list Visit :=
  [ {| path := "./content"; IsDir := true; err := None |} ].

Definition world_empty : World := world_with config tree_empty decode.

(** A slide interval of [2^61] seconds. *)
Definition config_long : Config :=
  {| ContentDirectory := ""; ManifestPath := ""; SlideInterval := 2 ^ 61;
     FillColor := ""; TextColor := ""; EnableText := true;
     IsRandomOrder := false |}.

(** No configuration file. *)
Definition world_no_config : World :=
  {| UintSize := 64;
     ReadFile := λ _, ("", Some "no such file or directory");
     UnmarshalConfig := λ _, (config, None);
     UnmarshalManifest := λ _, (captions, None);
     Sscanf := λ _, None;
     WindowNew := None; CssProviderNew := None; ScreenGetDefault := None;
     LabelNew_title := None; LabelNew_desc := None; OverlayNew := None;
     ImageNew := None; DrawingAreaNew := None; BoxNew := None;
     Tree := λ _, tree;
     Seed := seed;
     PixbufNewFromFile := decode;
     GetSize := (1920, 1080)%Z;
     ScaleSimple := scaleSimple |}.

(** The second image as scaled, and the state once it is drawn: it has no
    caption in the manifest. *)
Definition second : State :=
  {| currentIndex := 1;
     img := Some {| file := "content/b.jpg"; Width := 1395; Height := 930 |};
     titleLabel := "";
     descLabel := "";
     overlay := [];
     timer := None |}.

(** The state in which [main] enters the main loop. *)
Definition armed : State := set_timer (Some 5000%Z) first.

(** The same with a second image that decodes to an empty pixbuf. *)
Definition decode_blank (path : string) : option Pixbuf * error :=
  if bool_decide (path = "content/b.jpg")
  then (Some {| file := path; Width := 0; Height := 0 |}, None)
  else decode path.

Definition world_blank : World := world_with config tree decode_blank.

(** A walk that fails on its second file. *)
Definition tree_unreadable : list Visit :=
  [ {| path := "./content"; IsDir := true; err := None |};
    {| path := "content/a.png"; IsDir := false; err := None |};
    {| path := "content/b.jpg"; IsDir := false; err := Some "permission denied" |};
    {| path := "content/c.bmp"; IsDir := false; err := None |} ].

(** The state in which [main] of the previous revision enters the main
    loop, and the state after a mouse click. *)
Definition previous_first : Previous.State :=
  {| Previous.currentIndex := 0;
     Previous.img := Some page_scaled;
     Previous.titleLabel := span "#000000" "24" "First";
     Previous.descLabel := span "#000000" "20" "The first page";
     Previous.overlay := [drawingArea; textContainer];
     Previous.timeoutID := 2;
     Previous.sources := [(2, 5000)%Z];
     Previous.lastID := 2 |}.

Definition previous_second : Previous.State :=
  {| Previous.currentIndex := 1;
     Previous.img := Some {| file := "content/b.jpg"; Width := 1395; Height := 930 |};
     Previous.titleLabel := "";
     Previous.descLabel := "";
     Previous.overlay := [];
     Previous.timeoutID := 3;
     Previous.sources := [(3, 5000)%Z];
     Previous.lastID := 3 |}.

(** The first revision: the state in which its [main] enters the main
    loop, with the second image on screen, and the state after a mouse
    click, with the first. *)
Definition earliest_env : Earliest.Env :=
  {| Earliest.images := ["content/a.png"; "content/b.jpg"; "content/old.gif/c.bmp"];
     Earliest.manifest := captions |}.

Definition earliest_start : Previous.State :=
  {| Previous.currentIndex := 2;
     Previous.img := Some {| file := "content/b.jpg"; Width := 1620; Height := 1080 |};
     Previous.titleLabel := "";
     Previous.descLabel := "";
     Previous.overlay := [];
     Previous.timeoutID := 2;
     Previous.sources := [(2, 30000)%Z];
     Previous.lastID := 2 |}.

Definition earliest_after_click : Previous.State :=
  {| Previous.currentIndex := 1;
     Previous.img := Some {| file := "content/a.png"; Width := 1620; Height := 1080 |};
     Previous.titleLabel := span "black" "24" "First";
     Previous.descLabel := span "black" "20" "The first page";
     Previous.overlay := [drawingArea; textContainer];
     Previous.timeoutID := 3;
     Previous.sources := [(3, 30000)%Z];
     Previous.lastID := 3 |}.

(** The same with images 3000 wide and one pixel high. *)
Definition thin : Pixbuf :=
  {| file := "content/a.png"; Width := 3000; Height := 1 |}.

Definition decode_thin (path : string) : option Pixbuf * error :=
  (Some {| file := path; Width := 3000; Height := 1 |}, None).

Definition world_thin : World := world_with config tree decode_thin.

End Sample.

(** * Properties of float64 arithmetic *)

Module Float64Facts.

Import Float64.
Local Open Scope Z_scope.

Lemma digits2_pos_bounds m :
  2 ^ (Zpos (digits2_pos m) - 1) <= Zpos m < 2 ^ Zpos (digits2_pos m).
Proof.
  induction m as [m IH|m IH|]; simpl digits2_pos.
  - rewrite Pos2Z.inj_succ.
    replace (Z.succ (Zpos (digits2_pos m)) - 1)
      with (Z.succ (Zpos (digits2_pos m) - 1)) by lia.
    rewrite !Z.pow_succ_r by lia. lia.
  - rewrite Pos2Z.inj_succ.
    replace (Z.succ (Zpos (digits2_pos m)) - 1)
      with (Z.succ (Zpos (digits2_pos m) - 1)) by lia.
    rewrite !Z.pow_succ_r by lia. lia.
  - simpl. lia.
Qed.

(** A mantissa of exactly [d] digits. *)
Lemma digits2_pos_unique m d :
  2 ^ (d - 1) <= Zpos m < 2 ^ d -> Zpos (digits2_pos m) = d.
Proof.
  intros [Hlo Hhi]. pose proof (digits2_pos_bounds m) as [Hl Hh].
  assert (0 < d).
  { destruct (Z_lt_le_dec 0 d) as [|Hd]; [done|]. 
    assert (2 ^ d <= 2 ^ 0)
      by (destruct (Z.eq_dec d 0) as [->|]; [lia|rewrite Z.pow_neg_r by lia; simpl; lia]).
    simpl in *. lia. }
  destruct (Z.lt_trichotomy (Zpos (digits2_pos m)) d) as [Hc|[Hc|Hc]]; [|done|].
  - assert (2 ^ Zpos (digits2_pos m) <= 2 ^ (d - 1)) by (apply Z.pow_le_mono_r; lia). lia.
  - assert (2 ^ d <= 2 ^ (Zpos (digits2_pos m) - 1)) by (apply Z.pow_le_mono_r; lia). lia.
Qed.

Lemma shr_1_m mrs : 0 <= shr_m mrs -> shr_m (shr_1 mrs) = shr_m mrs / 2.
Proof.
  destruct mrs as [m r s]. simpl. intros Hm.
  destruct m as [|[p|p|]|p]; simpl; try lia; Z.div_mod_to_equations; lia.
Qed.

Lemma pow2_xO p : 2 ^ Zpos p~0 = 2 ^ Zpos p * 2 ^ Zpos p.
Proof. rewrite Pos2Z.inj_xO, <- Z.pow_add_r by lia. f_equal. lia. Qed.

Lemma pow2_xI p : 2 ^ Zpos p~1 = 2 * (2 ^ Zpos p * 2 ^ Zpos p).
Proof.
  rewrite Pos2Z.inj_xI, <- Z.pow_add_r, <- Z.pow_succ_r by lia. f_equal. lia.
Qed.

Lemma iter_pos_shr_1_m p : forall mrs,
  0 <= shr_m mrs -> shr_m (SpecFloat.iter_pos shr_1 p mrs) = shr_m mrs / 2 ^ Zpos p.
Proof.
  assert (Hnn : forall a k, 0 <= a -> 0 <= a / 2 ^ Zpos k).
  { intros. apply Z.div_pos; [lia|]. apply Z.pow_pos_nonneg; lia. }
  assert (Hpp : forall k, 0 < 2 ^ Zpos k) by (intros; apply Z.pow_pos_nonneg; lia).
  induction p as [p IH|p IH|]; intros mrs Hm; simpl SpecFloat.iter_pos.
  - assert (H1 : 0 <= shr_m (shr_1 mrs)).
    { rewrite shr_1_m by lia. apply Z.div_pos; lia. }
    rewrite IH; [|rewrite IH by lia; apply Hnn; lia].
    rewrite IH by lia. rewrite shr_1_m by lia.
    rewrite !Z.div_div by (try apply Hpp; lia).
    by rewrite pow2_xI.
  - rewrite IH; [|rewrite IH by lia; apply Hnn; lia].
    rewrite IH by lia.
    rewrite !Z.div_div by (try apply Hpp; lia).
    by rewrite pow2_xO.
  - rewrite shr_1_m by lia. reflexivity.
Qed.

Lemma shr_record_of_loc_m m l : shr_m (shr_record_of_loc m l) = m.
Proof. by destruct l as [|[]]. Qed.

Lemma shr_m_shift mrs e n :
  0 <= shr_m mrs -> 0 <= n ->
  shr_m (shr mrs e n).1 = shr_m mrs / 2 ^ n ∧ (shr mrs e n).2 = e + n.
Proof.
  intros Hm Hn. destruct n as [|p|p]; simpl; [|by rewrite iter_pos_shr_1_m|lia].
  rewrite Z.div_1_r. lia.
Qed.

Lemma fexp_normal e : -1074 <= e - 53 -> fexp prec emax e = e - 53.
Proof. unfold fexp, emin, prec, emax. lia. Qed.

(** [shr_fexp] on a mantissa of [d] digits in the normal range: it drops
    the [d - 53] low bits. *)
Lemma shr_fexp_normal m e l d :
  2 ^ (d - 1) <= m < 2 ^ d -> 53 <= d -> -1074 <= d + e - 53 ->
  shr_m (shr_fexp prec emax m e l).1 = m / 2 ^ (d - 53) ∧
  (shr_fexp prec emax m e l).2 = e + (d - 53).
Proof.
  intros Hm Hd He. unfold shr_fexp.
  assert (0 < m). { pose proof (Z.pow_pos_nonneg 2 (d - 1)). lia. }
  destruct m as [|p|p]; try lia.
  simpl Zdigits2. rewrite (digits2_pos_unique p d Hm).
  rewrite fexp_normal by lia.
  replace (d + e - 53 - e) with (d - 53) by lia.
  pose proof (shr_m_shift (shr_record_of_loc (Zpos p) l) e (d - 53)) as Hs.
  rewrite shr_record_of_loc_m in Hs. apply Hs; lia.
Qed.

Lemma round_nearest_even_cases m l :
  round_nearest_even m l = m ∨ round_nearest_even m l = m + 1.
Proof. destruct l as [|[]]; simpl; auto. destruct (Z.even m); auto. Qed.

Lemma div_pow2_range m d k :
  0 <= k <= d -> 2 ^ (d - 1) <= m < 2 ^ d -> 0 < d - k ->
  2 ^ (d - k - 1) <= m / 2 ^ k < 2 ^ (d - k).
Proof.
  intros Hk Hm Hd.
  assert (Hp : 0 < 2 ^ k) by (apply Z.pow_pos_nonneg; lia).
  assert (E1 : 2 ^ d = 2 ^ (d - k) * 2 ^ k)
    by (rewrite <- Z.pow_add_r by lia; f_equal; lia).
  assert (E2 : 2 ^ (d - 1) = 2 ^ (d - k - 1) * 2 ^ k)
    by (rewrite <- Z.pow_add_r by lia; f_equal; lia).
  split.
  - apply Z.div_le_lower_bound; lia.
  - apply Z.div_lt_upper_bound; lia.
Qed.

(** Rounding a positive mantissa of at least 53 digits in the normal
    range: the result is a normal number whose mantissa is the mantissa
    without its low bits, or that plus one. *)
Lemma binary_round_aux_normal mx ex lx d :
  2 ^ (d - 1) <= mx < 2 ^ d -> 53 <= d ->
  -1074 <= ex + d - 53 -> ex + d - 52 <= 971 ->
  ∃ m e (up : bool),
    binary_round_aux prec emax false mx ex lx = S754_finite false m e ∧
    2 ^ 52 <= Zpos m < 2 ^ 53 ∧
    ex + (d - 53) <= e <= ex + (d - 52) ∧
    Zpos m * 2 ^ (e - ex) = (mx / 2 ^ (d - 53) + (if up then 1 else 0)) * 2 ^ (d - 53).
Proof.
  intros Hm Hd Hlo Hhi. unfold binary_round_aux.
  destruct (shr_fexp_normal mx ex lx d) as [H1 H1e]; [lia..|].
  destruct (shr_fexp prec emax mx ex lx) as [mrs' e']. simpl in H1, H1e.
  pose proof (div_pow2_range mx d (d - 53) ltac:(lia) Hm ltac:(lia)) as Hr.
  replace (d - (d - 53) - 1) with 52 in Hr by lia.
  replace (d - (d - 53)) with 53 in Hr by lia.
  rewrite <- H1 in Hr |- *.
  set (m1 := shr_m mrs') in *.
  set (m2 := round_nearest_even m1 (loc_of_shr_record mrs')).
  assert (Hm2 : m2 = m1 ∨ m2 = m1 + 1) by apply round_nearest_even_cases.
  destruct (Z_lt_le_dec m2 (2 ^ 53)) as [Hlt|Hge].
  - destruct (shr_fexp_normal m2 e' loc_Exact 53) as [H2 H2e]; [lia..|].
    destruct (shr_fexp prec emax m2 e' loc_Exact) as [mrs'' e'']. simpl in H2, H2e.
    rewrite Z.sub_diag, Z.div_1_r in H2. rewrite H2.
    destruct m2 as [|p2|p2] eqn:Ep; try lia.
    replace (e'' <=? emax - prec) with true
      by (symmetry; apply Z.leb_le; unfold emax, prec; lia).
    exists p2, e'', (bool_decide (Zpos p2 = m1 + 1)).
    split; [done|]. split; [lia|]. split; [lia|].
    replace (e'' - ex) with (d - 53) by lia. f_equal.
    case_bool_decide; lia.
  - assert (Em2 : m2 = 2 ^ 53) by lia.
    destruct (shr_fexp_normal m2 e' loc_Exact 54) as [H2 H2e];
      [rewrite Em2; simpl; lia|lia..|].
    destruct (shr_fexp prec emax m2 e' loc_Exact) as [mrs'' e'']. simpl in H2, H2e.
    rewrite H2, Em2. change (2 ^ 53 / 2 ^ (54 - 53)) with (Zpos (2 ^ 52)).
    replace (e'' <=? emax - prec) with true
      by (symmetry; apply Z.leb_le; unfold emax, prec; lia).
    exists (2 ^ 52)%positive, e'', true.
    split; [done|]. split; [simpl; lia|]. split; [lia|].
    replace (e'' - ex) with (1 + (d - 53)) by lia.
    rewrite Z.pow_add_r by lia. replace (m1 + 1) with (2 ^ 53) by lia.
    rewrite Z.mul_assoc. reflexivity.
Qed.

(** A mantissa of 53 digits in the normal range is left as it is. *)
Lemma binary_round_aux_exact m e :
  2 ^ 52 <= Zpos m < 2 ^ 53 -> -1074 <= e <= 971 ->
  binary_round_aux prec emax false (Zpos m) e loc_Exact = S754_finite false m e.
Proof.
  intros Hm He. unfold binary_round_aux, shr_fexp. simpl Zdigits2.
  rewrite (digits2_pos_unique m 53 Hm), fexp_normal by lia.
  replace (53 + e - 53 - e) with 0 by lia. simpl.
  rewrite (digits2_pos_unique m 53 Hm), fexp_normal by lia.
  replace (53 + e - 53 - e) with 0 by lia. simpl.
  replace (e <=? emax - prec) with true
    by (symmetry; apply Z.leb_le; unfold emax, prec; lia).
  done.
Qed.

Lemma Pos_iter_xO m k : Zpos (Pos.iter xO m k) = Zpos m * 2 ^ Zpos k.
Proof.
  revert m. induction k as [k IH|k IH|]; intros m; simpl Pos.iter.
  - rewrite Pos2Z.inj_xO, !IH, pow2_xI. lia.
  - rewrite !IH, pow2_xO. lia.
  - rewrite Pos2Z.inj_xO. lia.
Qed.

(** [float64(n)] is exact for [0 < n < 2^53]. *)
Lemma binary_normalize_exact p :
  Zpos p < 2 ^ 53 ->
  ∃ m e, binary_normalize prec emax (Zpos p) 0 false = S754_finite false m e ∧
         2 ^ 52 <= Zpos m < 2 ^ 53 ∧ -52 <= e <= 0 ∧
         Zpos m = Zpos p * 2 ^ (- e).
Proof.
  intros Hp. unfold binary_normalize, binary_round.
  pose proof (digits2_pos_bounds p) as Hd.
  set (d := Zpos (digits2_pos p)) in *.
  assert (1 <= d) by (subst d; lia).
  assert (d <= 53).
  { destruct (Z_le_gt_dec d 53); [done|].
    assert (2 ^ 53 <= 2 ^ (d - 1)) by (apply Z.pow_le_mono_r; lia). lia. }
  rewrite fexp_normal by lia. rewrite Z.add_0_r.
  unfold shl_align. rewrite Z.sub_0_r.
  destruct (d - 53) as [|k|k] eqn:Ek; try lia.
  - assert (d = 53) as Ed by lia. rewrite Ed in Hd.
    rewrite binary_round_aux_exact by (simpl in Hd; lia).
    exists p, 0. change (53 - 1) with 52 in Hd.
    split; [done|]. split; [lia|]. split; [lia|]. change (2 ^ (- 0)) with 1. lia.
  - rewrite binary_round_aux_exact.
    + exists (Pos.iter xO p k), (Z.neg k). split; [done|].
      rewrite Pos_iter_xO. change (- Z.neg k) with (Zpos k).
      assert (E : 2 ^ 53 = 2 ^ d * 2 ^ Zpos k)
        by (rewrite <- Z.pow_add_r by lia; f_equal; lia).
      assert (E' : 2 ^ 52 = 2 ^ (d - 1) * 2 ^ Zpos k)
        by (rewrite <- Z.pow_add_r by lia; f_equal; lia).
      assert (0 < 2 ^ Zpos k) by (apply Z.pow_pos_nonneg; lia).
      split; [nia|]. split; [lia|done].
    + rewrite Pos_iter_xO.
      assert (E : 2 ^ 53 = 2 ^ d * 2 ^ Zpos k)
        by (rewrite <- Z.pow_add_r by lia; f_equal; lia).
      assert (E' : 2 ^ 52 = 2 ^ (d - 1) * 2 ^ Zpos k)
        by (rewrite <- Z.pow_add_r by lia; f_equal; lia).
      assert (0 < 2 ^ Zpos k) by (apply Z.pow_pos_nonneg; lia).
      nia.
    + lia.
Qed.

(** The quotient of two positive normal numbers. *)
Lemma SFdiv_normal mx ex my ey :
  2 ^ 52 <= Zpos mx < 2 ^ 53 -> 2 ^ 52 <= Zpos my < 2 ^ 53 ->
  -400 <= ex <= 400 -> -400 <= ey <= 400 ->
  ∃ m e d (up : bool),
    SFdiv prec emax (S754_finite false mx ex) (S754_finite false my ey)
      = S754_finite false m e ∧
    2 ^ 52 <= Zpos m < 2 ^ 53 ∧
    ex - ey - 53 <= e <= ex - ey - 51 ∧
    53 <= d ∧
    2 ^ (d - 1) <= Zpos mx * 2 ^ 53 / Zpos my < 2 ^ d ∧
    Zpos m * 2 ^ (e - (ex - ey - 53))
      = (Zpos mx * 2 ^ 53 / Zpos my / 2 ^ (d - 53) + (if up then 1 else 0)) * 2 ^ (d - 53).
Proof.
  intros Hx Hy Hex Hey. unfold SFdiv, SFdiv_core_binary. simpl xorb.
  simpl Zdigits2. rewrite (digits2_pos_unique mx 53 Hx), (digits2_pos_unique my 53 Hy).
  rewrite fexp_normal by lia.
  replace (Z.min (53 + ex - (53 + ey) - 53) (ex - ey)) with (ex - ey - 53) by lia.
  replace (ex - ey - (ex - ey - 53)) with 53 by lia.
  rewrite Z.shiftl_mul_pow2 by lia.
  pose proof (Z.div_eucl_eq (Zpos mx * 2 ^ 53) (Zpos my) ltac:(lia)) as Hq.
  pose proof (Z.mod_pos_bound (Zpos mx * 2 ^ 53) (Zpos my) ltac:(lia)) as Hr.
  unfold Z.modulo in Hr. unfold Z.div.
  destruct (Z.div_eucl (Zpos mx * 2 ^ 53) (Zpos my)) as [q r].
  assert (Hq1 : 2 ^ 52 <= q < 2 ^ 54) by nia.
  set (d := if Z_lt_le_dec q (2 ^ 53) then 53 else 54).
  assert (Hd : 2 ^ (d - 1) <= q < 2 ^ d).
  { subst d. destruct (Z_lt_le_dec q (2 ^ 53)); simpl; lia. }
  assert (Hd' : d = 53 ∨ d = 54) by (subst d; destruct (Z_lt_le_dec q (2 ^ 53)); auto).
  destruct (binary_round_aux_normal q (ex - ey - 53) (new_location (Zpos my) r) d)
    as (m & e & up & Hb & Hm & He & Hv); [done|lia|lia|lia|].
  exists m, e, d, up. rewrite Hb. repeat split; try done; lia.
Qed.

(** The product of two positive normal numbers. *)
Lemma SFmul_normal mx ex my ey :
  2 ^ 52 <= Zpos mx < 2 ^ 53 -> 2 ^ 52 <= Zpos my < 2 ^ 53 ->
  -400 <= ex <= 400 -> -400 <= ey <= 400 ->
  ∃ m e d (up : bool),
    SFmul prec emax (S754_finite false mx ex) (S754_finite false my ey)
      = S754_finite false m e ∧
    2 ^ 52 <= Zpos m < 2 ^ 53 ∧
    ex + ey + 52 <= e <= ex + ey + 54 ∧
    53 <= d ∧
    2 ^ (d - 1) <= Zpos mx * Zpos my < 2 ^ d ∧
    Zpos m * 2 ^ (e - (ex + ey))
      = (Zpos mx * Zpos my / 2 ^ (d - 53) + (if up then 1 else 0)) * 2 ^ (d - 53).
Proof.
  intros Hx Hy Hex Hey. unfold SFmul. simpl xorb. rewrite Pos2Z.inj_mul.
  assert (Hq1 : 2 ^ 104 <= Zpos mx * Zpos my < 2 ^ 106).
  { change (2 ^ 104) with (2 ^ 52 * 2 ^ 52). change (2 ^ 106) with (2 ^ 53 * 2 ^ 53). nia. }
  set (q := Zpos mx * Zpos my) in *.
  set (d := if Z_lt_le_dec q (2 ^ 105) then 105 else 106).
  assert (Hd : 2 ^ (d - 1) <= q < 2 ^ d).
  { subst d. destruct (Z_lt_le_dec q (2 ^ 105)); simpl; lia. }
  assert (Hd' : d = 105 ∨ d = 106) by (subst d; destruct (Z_lt_le_dec q (2 ^ 105)); auto).
  destruct (binary_round_aux_normal q (ex + ey) loc_Exact d)
    as (m & e & up & Hb & Hm & He & Hv); [done|lia|lia|lia|].
  exists m, e, d, up. rewrite Hb. repeat split; try done; lia.
Qed.

Local Open Scope R_scope.

Lemma bpow_pos e : 0 < bpow e.
Proof. apply powerRZ_lt. lra. Qed.

Lemma bpow_add a b : bpow (a + b) = bpow a * bpow b.
Proof. apply powerRZ_add. lra. Qed.

Lemma bpow_IZR n : (0 <= n)%Z -> bpow n = IZR (2 ^ n).
Proof.
  intros Hn. unfold bpow. destruct (Z_of_nat_complete n Hn) as [k ->].
  by rewrite <- pow_powerRZ, <- pow_IZR.
Qed.

Lemma bpow_opp n : bpow (- n) = / bpow n.
Proof. unfold bpow. apply powerRZ_neg'. Qed.

Lemma eps_inv : eps = / IZR (2 ^ 52).
Proof.
  unfold eps. change (-52)%Z with (Z.opp 52). by rewrite bpow_opp, bpow_IZR.
Qed.

Lemma eps_bounds : 0 < eps < 1.
Proof.
  rewrite eps_inv. assert (1 < IZR (2 ^ 52)) by (apply IZR_lt; lia). split.
  - apply Rinv_0_lt_compat. lra.
  - rewrite <- Rinv_1. apply Rinv_lt_contravar; lra.
Qed.

(** Cutting the low [d - 53] digits of a [d]-digit integer [q], and
    perhaps adding one to what is left, changes a real [t] of integer part
    [q] by at most [eps] relatively. *)
Lemma round_rel (t : R) (q d : Z) (up : bool) :
  IZR q <= t < IZR q + 1 ->
  (2 ^ (d - 1) <= q < 2 ^ d)%Z -> (53 <= d)%Z ->
  t * (1 - eps)
    <= IZR ((q / 2 ^ (d - 53) + (if up then 1 else 0)) * 2 ^ (d - 53))
    <= t * (1 + eps).
Proof.
  intros Ht Hq Hd.
  set (P := (2 ^ (d - 53))%Z).
  assert (HP : (0 < P)%Z) by (apply Z.pow_pos_nonneg; lia).
  assert (Hqp : (2 ^ 52 * P <= q)%Z).
  { subst P. rewrite <- Z.pow_add_r by lia.
    replace (52 + (d - 53))%Z with (d - 1)%Z by lia. lia. }
  pose proof (Z.div_mod q P ltac:(lia)) as Hdm.
  pose proof (Z.mod_pos_bound q P HP) as Hmod.
  set (c := ((q / P + (if up then 1 else 0)) * P)%Z).
  assert (Hc : (q - P + 1 <= c <= q + P)%Z).
  { subst c. destruct up; nia. }
  assert (HPe : IZR P <= t * eps).
  { rewrite eps_inv.
    apply IZR_le in Hqp. rewrite mult_IZR in Hqp.
    assert (0 < IZR (2 ^ 52)) by (apply IZR_lt; lia).
    apply Rmult_le_reg_r with (IZR (2 ^ 52)); [done|].
    replace (t * / IZR (2 ^ 52) * IZR (2 ^ 52)) with t by (field; lra).
    lra. }
  destruct Hc as [Hc1 Hc2]. apply IZR_le in Hc1, Hc2.
  rewrite plus_IZR in Hc1, Hc2. rewrite minus_IZR in Hc1.
  fold P. fold c. split; lra.
Qed.

Lemma normal_FR_pos B x : normal B x -> 0 < FR x.
Proof.
  destruct x as [| | |[] m e]; try done. intros _. simpl.
  pose proof (bpow_pos e). assert (0 < IZR (Zpos m)) by (apply IZR_lt; lia).
  rewrite Rmult_1_l. by apply Rmult_lt_0_compat.
Qed.

Lemma nonneg_FR_nonneg B x : nonneg B x -> 0 <= FR x.
Proof. intros [->|H%normal_FR_pos]; simpl; lra. Qed.

Lemma normal_weaken B B' x : (B <= B')%Z -> normal B x -> normal B' x.
Proof. destruct x as [| | |[] m e]; try done. simpl. lia. Qed.

Lemma nonneg_weaken B B' x : (B <= B')%Z -> nonneg B x -> nonneg B' x.
Proof. intros HB [->|H]; [by left|right; by eapply normal_weaken]. Qed.

Lemma FR_scaled m e e' c :
  (e' <= e)%Z -> (Zpos m * 2 ^ (e - e') = c)%Z ->
  FR (S754_finite false m e) = IZR c * bpow e'.
Proof.
  intros He <-. simpl. rewrite mult_IZR, <- bpow_IZR by lia.
  rewrite Rmult_1_l, Rmult_assoc, <- bpow_add. do 2 f_equal. lia.
Qed.

(** [float64(n)] is [n] for [0 <= n < 2^53]. *)
Lemma of_int_exact n :
  (0 <= n < 2 ^ 53)%Z ->
  nonneg 52 (binary_normalize prec emax n 0 false) ∧
  ((0 < n)%Z -> normal 52 (binary_normalize prec emax n 0 false)) ∧
  FR (binary_normalize prec emax n 0 false) = IZR n.
Proof.
  intros Hn. destruct n as [|p|p]; [| |lia].
  - split; [by left|]. split; [lia|done].
  - destruct (binary_normalize_exact p) as (m & e & -> & Hm & He & Hv); [lia|].
    assert (Hnorm : normal 52 (S754_finite false m e)) by (simpl; lia).
    split; [by right|]. split; [done|].
    rewrite (FR_scaled m e e (Zpos m)) by (rewrite ?Z.sub_diag; lia).
    rewrite Hv, mult_IZR, <- bpow_IZR by lia.
    rewrite Rmult_assoc, <- bpow_add. replace (- e + e)%Z with 0%Z by lia.
    unfold bpow. simpl. lra.
Qed.

(** Division of a non-negative by a positive normal number: the quotient
    is non-negative and off by at most [eps] relatively. *)
Lemma div_rel B x y :
  (B <= 400)%Z -> nonneg B x -> normal B y ->
  nonneg (2 * B + 53) (SFdiv prec emax x y) ∧
  FR x / FR y * (1 - eps) <= FR (SFdiv prec emax x y) <= FR x / FR y * (1 + eps).
Proof.
  intros HB [->|Hx] Hy.
  - destruct y as [| | |[] my ey]; try done. simpl SFdiv.
    split; [by left|]. simpl FR. unfold Rdiv. rewrite !Rmult_0_l. lra.
  - destruct x as [| | |[] mx ex]; try done. destruct y as [| | |[] my ey]; try done.
    destruct Hx as [Hmx Hex], Hy as [Hmy Hey].
    destruct (SFdiv_normal mx ex my ey)
      as (m & e & d & up & -> & Hm & He & Hd & Hq & Hv); [done|done|lia|lia|].
    split; [right; simpl; lia|].
    rewrite (FR_scaled m e (ex - ey - 53) _ ltac:(lia) Hv).
    set (t := IZR (Zpos mx) * IZR (2 ^ 53) / IZR (Zpos my)).
    assert (Hmy0 : 0 < IZR (Zpos my)) by (apply IZR_lt; lia).
    assert (Ht : IZR (Zpos mx * 2 ^ 53 / Zpos my) <= t
                 < IZR (Zpos mx * 2 ^ 53 / Zpos my) + 1).
    { pose proof (Z.div_mod (Zpos mx * 2 ^ 53) (Zpos my) ltac:(lia)) as Hdm.
      pose proof (Z.mod_pos_bound (Zpos mx * 2 ^ 53) (Zpos my) ltac:(lia)) as Hmod.
      set (q := (Zpos mx * 2 ^ 53 / Zpos my)%Z) in *.
      assert (H1 : (q * Zpos my <= Zpos mx * 2 ^ 53)%Z) by lia.
      assert (H2 : (Zpos mx * 2 ^ 53 < (q + 1) * Zpos my)%Z) by lia.
      apply IZR_le in H1. apply IZR_lt in H2.
      rewrite !mult_IZR in H1, H2. rewrite plus_IZR in H2.
      subst t. split.
      - apply Rmult_le_reg_r with (IZR (Zpos my)); [done|].
        unfold Rdiv. rewrite Rmult_assoc, Rinv_l by lra. lra.
      - apply Rmult_lt_reg_r with (IZR (Zpos my)); [done|].
        unfold Rdiv. rewrite Rmult_assoc, Rinv_l by lra. lra. }
    pose proof (round_rel t _ d up Ht Hq Hd) as Hr.
    assert (Hxy : FR (S754_finite false mx ex) / FR (S754_finite false my ey)
                  = t * bpow (ex - ey - 53)).
    { simpl. subst t. replace (ex - ey - 53)%Z with (ex + (- ey + - (53)))%Z by lia.
      rewrite !bpow_add, !bpow_opp, (bpow_IZR 53) by lia.
      pose proof (bpow_pos ey). assert (0 < IZR (2 ^ 53)) by (apply IZR_lt; lia).
      field. lra. }
    rewrite Hxy. pose proof (bpow_pos (ex - ey - 53)).
    split.
    + rewrite (Rmult_comm t), Rmult_assoc, (Rmult_comm _ (t * _)).
      apply Rmult_le_compat_r; lra.
    + rewrite (Rmult_comm t), Rmult_assoc, (Rmult_comm _ (t * _)).
      apply Rmult_le_compat_r; lra.
Qed.

(** Multiplication of a positive normal by a non-negative number. *)
Lemma mul_rel B x y :
  (B <= 400)%Z -> normal B x -> nonneg B y ->
  nonneg (2 * B + 54) (SFmul prec emax x y) ∧
  FR x * FR y * (1 - eps) <= FR (SFmul prec emax x y) <= FR x * FR y * (1 + eps).
Proof.
  intros HB Hx [->|Hy].
  - destruct x as [| | |[] mx ex]; try done. simpl SFmul.
    split; [by left|]. simpl FR. rewrite !Rmult_0_r, !Rmult_0_l. lra.
  - destruct x as [| | |[] mx ex]; try done. destruct y as [| | |[] my ey]; try done.
    destruct Hx as [Hmx Hex], Hy as [Hmy Hey].
    destruct (SFmul_normal mx ex my ey)
      as (m & e & d & up & -> & Hm & He & Hd & Hq & Hv); [done|done|lia|lia|].
    split; [right; simpl; lia|].
    rewrite (FR_scaled m e (ex + ey) _ ltac:(lia) Hv).
    set (t := IZR (Zpos mx * Zpos my)).
    assert (Ht : IZR (Zpos mx * Zpos my) <= t < IZR (Zpos mx * Zpos my) + 1)
      by (subst t; lra).
    pose proof (round_rel t _ d up Ht Hq Hd) as Hr.
    assert (Hxy : FR (S754_finite false mx ex) * FR (S754_finite false my ey)
                  = t * bpow (ex + ey)).
    { simpl. subst t. rewrite bpow_add, mult_IZR. ring. }
    rewrite Hxy. pose proof (bpow_pos (ex + ey)).
    split.
    + rewrite (Rmult_comm t), Rmult_assoc, (Rmult_comm _ (t * _)).
      apply Rmult_le_compat_r; lra.
    + rewrite (Rmult_comm t), Rmult_assoc, (Rmult_comm _ (t * _)).
      apply Rmult_le_compat_r; lra.
Qed.

Lemma bpow_le a b : (a <= b)%Z -> bpow a <= bpow b.
Proof.
  intros Hab. replace b with (a + (b - a))%Z by lia.
  rewrite bpow_add, (bpow_IZR (b - a)) by lia.
  assert (1 <= IZR (2 ^ (b - a))).
  { apply IZR_le. pose proof (Z.pow_pos_nonneg 2 (b - a)). lia. }
  pose proof (bpow_pos a). nra.
Qed.

(** Among normal numbers the one with the smaller exponent is smaller. *)
Lemma FR_lt_exp m1 e1 m2 e2 :
  (2 ^ 52 <= Zpos m1 < 2 ^ 53)%Z -> (2 ^ 52 <= Zpos m2 < 2 ^ 53)%Z -> (e1 < e2)%Z ->
  FR (S754_finite false m1 e1) < FR (S754_finite false m2 e2).
Proof.
  intros H1 H2 He. simpl. rewrite !Rmult_1_l.
  assert (Hb : bpow (e1 + 1) <= bpow e2) by (apply bpow_le; lia).
  rewrite bpow_add in Hb. change (bpow 1) with (powerRZ 2 1) in Hb. simpl in Hb.
  assert (IZR (Zpos m1) < IZR (2 ^ 53)) by (apply IZR_lt; lia).
  assert (IZR (2 ^ 52) <= IZR (Zpos m2)) by (apply IZR_le; lia).
  change (IZR (2 ^ 53)) with (2 * IZR (2 ^ 52)) in *.
  assert (0 < IZR (2 ^ 52)) by (apply IZR_lt; lia).
  pose proof (bpow_pos e1). pose proof (bpow_pos e2). nra.
Qed.

Lemma SFltb_normal B x y :
  normal B x -> normal B y ->
  if SFltb x y then FR x < FR y else FR y <= FR x.
Proof.
  destruct x as [| | |[] m1 e1]; try done. destruct y as [| | |[] m2 e2]; try done.
  intros [H1 _] [H2 _]. unfold SFltb, SFcompare.
  destruct (Z.compare_spec e1 e2) as [->|He|He].
  - change (Pos.compare_cont Eq m1 m2) with (Pos.compare m1 m2).
    simpl FR. rewrite !Rmult_1_l. pose proof (bpow_pos e2).
    destruct (Pos.compare_spec m1 m2) as [->|Hm|Hm].
    + lra.
    + apply Rmult_lt_compat_r; [done|]. apply IZR_lt. lia.
    + apply Rmult_le_compat_r; [lra|]. apply IZR_le. lia.
  - by apply FR_lt_exp.
  - apply Rlt_le. by apply FR_lt_exp.
Qed.

(** [math.Min] of two non-negative numbers is one of them and not above
    either. *)
Lemma Min_nonneg B x y :
  nonneg B x -> nonneg B y ->
  nonneg B (Min x y) ∧ FR (Min x y) <= FR x ∧ FR (Min x y) <= FR y.
Proof.
  intros Hx Hy.
  pose proof (nonneg_FR_nonneg B x Hx). pose proof (nonneg_FR_nonneg B y Hy).
  destruct Hx as [->|Hx], Hy as [->|Hy].
  - simpl. split; [by left|lra].
  - destruct y as [| | |[] m2 e2]; try done. simpl in *. split; [by left|lra].
  - destruct x as [| | |[] m1 e1]; try done. simpl in *. split; [by left|lra].
  - pose proof (SFltb_normal B x y Hx Hy) as Hlt.
    destruct x as [| | |[] m1 e1]; try done. destruct y as [| | |[] m2 e2]; try done.
    unfold Min. simpl is_zero. simpl andb. cbv iota.
    destruct (SFltb _ _); (split; [by right|lra]).
Qed.

(** [int(x)] is the integer part of a non-negative number below 2^62. *)
Lemma to_int_floor B x :
  nonneg B x -> FR x < IZR (2 ^ 62) ->
  IZR (to_int x) <= FR x < IZR (to_int x) + 1.
Proof.
  intros [->|Hx] Hlt; [simpl; lra|].
  destruct x as [| | |[] m e]; try done. destruct Hx as [Hm _].
  simpl FR in *. rewrite Rmult_1_l in *. unfold to_int.
  destruct e as [|p|p].
  - unfold bpow in *. simpl powerRZ in *. rewrite Rmult_1_r in *.
    replace (Zpos m <? 2 ^ 63)%Z with true by (symmetry; apply Z.ltb_lt; lia).
    simpl. lra.
  - rewrite (bpow_IZR (Zpos p)), <- mult_IZR in * by lia.
    apply lt_IZR in Hlt.
    replace (Zpos m * 2 ^ Zpos p <? 2 ^ 63)%Z with true by (symmetry; apply Z.ltb_lt; lia).
    simpl. lra.
  - change (- Z.neg p)%Z with (Zpos p). 
    assert (HP : (0 < 2 ^ Zpos p)%Z) by (apply Z.pow_pos_nonneg; lia).
    pose proof (Z.div_mod (Zpos m) (2 ^ Zpos p) ltac:(lia)) as Hdm.
    pose proof (Z.mod_pos_bound (Zpos m) (2 ^ Zpos p) HP) as Hmod.
    set (a := (Zpos m / 2 ^ Zpos p)%Z) in *.
    assert (Ha : (0 <= a <= Zpos m)%Z) by nia.
    replace (a <? 2 ^ 63)%Z with true by (symmetry; apply Z.ltb_lt; lia).
    simpl cond_Zopp.
    change (Z.neg p) with (- Zpos p)%Z. rewrite bpow_opp, (bpow_IZR (Zpos p)) by lia.
    assert (H1 : (a * 2 ^ Zpos p <= Zpos m)%Z) by lia.
    assert (H2 : (Zpos m < (a + 1) * 2 ^ Zpos p)%Z) by lia.
    apply IZR_le in H1. apply IZR_lt in H2. rewrite !mult_IZR in *. rewrite plus_IZR in H2.
    assert (0 < IZR (2 ^ Zpos p)) by (apply IZR_lt; lia).
    split.
    + apply Rmult_le_reg_r with (IZR (2 ^ Zpos p)); [done|].
      rewrite Rmult_assoc, Rinv_l by lra. lra.
    + apply Rmult_lt_reg_r with (IZR (2 ^ Zpos p)); [done|].
      rewrite Rmult_assoc, Rinv_l by lra. lra.
Qed.

Lemma eps_val : eps = / 4503599627370496.
Proof. rewrite eps_inv. reflexivity. Qed.

(** One side of the scaled image: the original side [n] times the factor
    [s], rounded and truncated, when the exact product is at most
    [L * (1 + eps)] for a window side [L]. *)
Lemma side_bound n L s :
  (0 < n < 2 ^ 31)%Z -> (0 <= L < 2 ^ 31)%Z -> nonneg 157 s ->
  IZR n * FR s <= IZR L * (1 + eps) ->
  (0 <= to_int (mul (of_int n) s) <= L)%Z ∧
  IZR n * FR s * (1 - eps) - 1 < IZR (to_int (mul (of_int n) s))
    <= IZR n * FR s * (1 + eps).
Proof.
  intros Hn HL Hs Hb. unfold mul, of_int.
  destruct (of_int_exact n ltac:(lia)) as (_ & Hnorm & Hval).
  specialize (Hnorm ltac:(lia)).
  destruct (mul_rel 157 _ s ltac:(lia) (normal_weaken 52 157 _ ltac:(lia) Hnorm) Hs)
    as [Hnn Hrel].
  rewrite Hval in Hrel.
  set (p := SFmul prec emax (binary_normalize prec emax n 0 false) s) in *.
  pose proof (nonneg_FR_nonneg _ _ Hs) as Hs0.
  pose proof (nonneg_FR_nonneg _ _ Hnn) as Hp0.
  assert (HLr : 0 <= IZR L <= 2147483647).
  { split; [apply IZR_le; lia|]. apply IZR_le. lia. }
  assert (Hn0 : 0 < IZR n) by (apply IZR_lt; lia).
  pose proof eps_val as He.
  assert (Hp1 : FR p < IZR L + 1).
  { apply Rle_lt_trans with (IZR L * (1 + eps) * (1 + eps)).
    - etrans; [apply Hrel|]. apply Rmult_le_compat_r; [rewrite He; lra|done].
    - rewrite He. lra. }
  destruct (to_int_floor _ p Hnn) as [Hf1 Hf2].
  { apply Rlt_le_trans with (IZR L + 1); [done|].
    apply Rle_trans with 2147483648; [lra|]. apply IZR_le. lia. }
  split.
  - split.
    + assert (IZR (-1) < IZR (to_int p)) by lra.
      apply lt_IZR in H. lia.
    + assert (IZR (to_int p) < IZR (L + 1)) by (rewrite plus_IZR; lra).
      apply lt_IZR in H. lia.
  - lra.
Qed.

(** The factor is a non-negative number, at most (by [eps]) either quotient. *)
Lemma scale_bound W H' OW OH :
  (0 <= W < 2 ^ 31)%Z -> (0 <= H' < 2 ^ 31)%Z ->
  (0 < OW < 2 ^ 31)%Z -> (0 < OH < 2 ^ 31)%Z ->
  nonneg 157 (scale W H' OW OH) ∧
  IZR OW * FR (scale W H' OW OH) <= IZR W * (1 + eps) ∧
  IZR OH * FR (scale W H' OW OH) <= IZR H' * (1 + eps).
Proof.
  intros HW HH HOW HOH. unfold scale, div, of_int.
  destruct (of_int_exact W ltac:(lia)) as (HnW & _ & HvW).
  destruct (of_int_exact H' ltac:(lia)) as (HnH & _ & HvH).
  destruct (of_int_exact OW ltac:(lia)) as (_ & HnOW & HvOW).
  destruct (of_int_exact OH ltac:(lia)) as (_ & HnOH & HvOH).
  specialize (HnOW ltac:(lia)). specialize (HnOH ltac:(lia)).
  destruct (div_rel 52 _ _ ltac:(lia) HnW HnOW) as [Hq1 [_ Hr1]].
  destruct (div_rel 52 _ _ ltac:(lia) HnH HnOH) as [Hq2 [_ Hr2]].
  rewrite HvW, HvOW in Hr1. rewrite HvH, HvOH in Hr2.
  destruct (Min_nonneg _ _ _ Hq1 Hq2) as (Hs & Hs1 & Hs2).
  set (s := Min _ _) in *.
  assert (0 < IZR OW) by (apply IZR_lt; lia).
  assert (0 < IZR OH) by (apply IZR_lt; lia).
  split; [done|]. split.
  - apply Rle_trans with (IZR OW * (IZR W / IZR OW * (1 + eps))).
    + apply Rmult_le_compat_l; lra.
    + apply Req_le. field. lra.
  - apply Rle_trans with (IZR OH * (IZR H' / IZR OH * (1 + eps))).
    + apply Rmult_le_compat_l; lra.
    + apply Req_le. field. lra.
Qed.

Lemma textCardHeight_int : to_int textCardHeight = 150%Z.
Proof. vm_compute. reflexivity. Qed.

(** The sizes computed for a window of 1920 by 1080 and of 1000 by 1080,
    for a window lower than the band, and for a window in which the
    rounded product 49 * (1 / 49) stays below 1. *)
Example dest_samples :
  dest 1920 1080 3000 2000 = (1395, 930)%Z ∧
  dest 1000 1080 3 2 = (1000, 666)%Z ∧
  dest 1920 100 3000 2000 = (-75, -50)%Z ∧
  dest 1 151 49 49 = (0, 0)%Z.
Proof. repeat split; vm_compute; reflexivity. Qed.

(** The scaled size fits the window above the caption band, and keeps the
    aspect ratio up to the pixel lost by truncation. *)
Lemma dest_fits W H OW OH dw dh :
  (0 <= W < 2 ^ 31)%Z -> (150 <= H < 2 ^ 31)%Z ->
  (0 < OW < 2 ^ 31)%Z -> (0 < OH < 2 ^ 31)%Z ->
  dest W H OW OH = (dw, dh) ->
  (0 <= dw <= W)%Z ∧ (0 <= dh <= H - 150)%Z ∧
  ((W * OH <= 2 ^ 50)%Z ∨ ((H - 150) * OW <= 2 ^ 50)%Z ->
   (- OH <= dw * OH - dh * OW <= OW)%Z).
Proof.
  intros HW HH HOW HOH. unfold dest. rewrite textCardHeight_int.
  destruct (scale_bound W (H - 150) OW OH) as (Hs & Hb1 & Hb2); [lia..|].
  set (s := scale W (H - 150) OW OH) in *.
  destruct (side_bound OW W s) as [Hw1 Hw2]; [lia|lia|done|done|].
  destruct (side_bound OH (H - 150) s) as [Hh1 Hh2]; [lia|lia|done|done|].
  intros [= <- <-].
  set (dw := to_int (mul (of_int OW) s)) in *.
  set (dh := to_int (mul (of_int OH) s)) in *.
  split; [done|]. split; [done|]. intros Hsmall.
  pose proof (nonneg_FR_nonneg _ _ Hs) as Hs0.
  assert (HOWr : 0 < IZR OW) by (apply IZR_lt; lia).
  assert (HOHr : 0 < IZR OH) by (apply IZR_lt; lia).
  set (K := IZR OW * FR s * IZR OH).
  pose proof eps_val as He.
  assert (HK0 : 0 <= K) by (subst K; apply Rmult_le_pos; [apply Rmult_le_pos|]; lra).
  assert (HK : K <= 1125899906842624 * (1 + eps)).
  { destruct Hsmall as [Hc|Hc]; apply IZR_le in Hc; rewrite mult_IZR in Hc;
      change (IZR (2 ^ 50)) with 1125899906842624 in Hc.
    - apply Rle_trans with (IZR W * (1 + eps) * IZR OH).
      + subst K. apply Rmult_le_compat_r; lra.
      + rewrite He in *. nra.
    - apply Rle_trans with (IZR (H - 150) * (1 + eps) * IZR OW).
      + subst K. replace (IZR OW * FR s * IZR OH) with (IZR OH * FR s * IZR OW) by ring.
        apply Rmult_le_compat_r; lra.
      + rewrite He in *. nra. }
  assert (Hdw_hi : IZR dw * IZR OH <= K * (1 + eps)).
  { subst K. replace (IZR OW * FR s * IZR OH * (1 + eps))
      with (IZR OW * FR s * (1 + eps) * IZR OH) by ring.
    apply Rmult_le_compat_r; lra. }
  assert (Hdw_lo : K * (1 - eps) - IZR OH < IZR dw * IZR OH).
  { subst K. replace (IZR OW * FR s * IZR OH * (1 - eps) - IZR OH)
      with ((IZR OW * FR s * (1 - eps) - 1) * IZR OH) by ring.
    apply Rmult_lt_compat_r; lra. }
  assert (Hdh_hi : IZR dh * IZR OW <= K * (1 + eps)).
  { subst K. replace (IZR OW * FR s * IZR OH * (1 + eps))
      with (IZR OH * FR s * (1 + eps) * IZR OW) by ring.
    apply Rmult_le_compat_r; lra. }
  assert (Hdh_lo : K * (1 - eps) - IZR OW < IZR dh * IZR OW).
  { subst K. replace (IZR OW * FR s * IZR OH * (1 - eps) - IZR OW)
      with ((IZR OH * FR s * (1 - eps) - 1) * IZR OW) by ring.
    apply Rmult_lt_compat_r; lra. }
  rewrite He in *.
  split.
  - assert (Hlt : IZR (- OH - 1) < IZR (dw * OH - dh * OW)).
    { rewrite !minus_IZR, opp_IZR, !mult_IZR. lra. }
    apply lt_IZR in Hlt. lia.
  - assert (Hlt : IZR (dw * OH - dh * OW) < IZR (OW + 1)).
    { rewrite plus_IZR, minus_IZR, !mult_IZR. lra. }
    apply lt_IZR in Hlt. lia.
Qed.

(** ** A window lower than the caption band *)

Lemma binary_round_aux_not_positive mx ex lx :
  not_positive (binary_round_aux prec emax true mx ex lx).
Proof.
  unfold binary_round_aux.
  destruct (shr_fexp prec emax mx ex lx) as [mrs' e'].
  destruct (shr_fexp prec emax _ e' loc_Exact) as [mrs'' e''].
  destruct (shr_m mrs''); [done| |done]. by destruct (_ <=? _)%Z.
Qed.

Lemma of_int_not_positive n : (n < 0)%Z -> not_positive (of_int n).
Proof.
  intros Hn. destruct n as [|p|p]; try lia.
  unfold of_int, binary_normalize, binary_round.
  destruct (shl_align _ _ _) as [mz ez]. apply binary_round_aux_not_positive.
Qed.

Lemma div_not_positive B x y :
  not_positive x -> normal B y -> not_positive (div x y).
Proof.
  destruct y as [| | |[] my ey]; try done. intros Hx _.
  destruct x as [[]|[]| |[] mx ex]; try done. unfold div, SFdiv. simpl xorb.
  destruct (SFdiv_core_binary _ _ _ _ _ _) as [[mz ez] lz].
  apply binary_round_aux_not_positive.
Qed.

Lemma mul_not_positive B x y :
  normal B x -> not_positive y -> not_positive (mul x y).
Proof.
  destruct x as [| | |[] mx ex]; try done. intros _ Hy.
  destruct y as [[]|[]| |[] my ey]; try done. unfold mul, SFmul. simpl xorb.
  apply binary_round_aux_not_positive.
Qed.

Lemma Min_not_positive B x y :
  nonneg B x -> not_positive y -> not_positive (Min x y).
Proof.
  intros [->|Hx] Hy.
  - by destruct y as [[]|[]| |[] my ey].
  - destruct x as [| | |[] mx ex]; try done.
    by destruct y as [[]|[]| |[] my ey].
Qed.

Lemma to_int_not_positive x : not_positive x -> (to_int x <= 0)%Z.
Proof.
  destruct x as [[]|[]| |[] m e]; try done; intros _; unfold to_int, min_int; try lia.
  match goal with |- context [(?a <? 2 ^ 63)%Z] => set (v := a) end.
  assert (0 <= v)%Z.
  { subst v. destruct e as [|p|p]; [lia| |].
    - apply Z.mul_nonneg_nonneg; [lia|]. apply Z.pow_nonneg. lia.
    - apply Z.div_pos; [lia|]. apply Z.pow_pos_nonneg; lia. }
  destruct (v <? 2 ^ 63)%Z; simpl; lia.
Qed.

(** With a window lower than the band the factor is not positive, and
    neither size is. *)
Lemma dest_low_window W H OW OH dw dh :
  (0 <= W < 2 ^ 31)%Z -> (H < 150)%Z ->
  (0 < OW < 2 ^ 31)%Z -> (0 < OH < 2 ^ 31)%Z ->
  dest W H OW OH = (dw, dh) ->
  (dw <= 0)%Z ∧ (dh <= 0)%Z.
Proof.
  intros HW HH HOW HOH. unfold dest. rewrite textCardHeight_int.
  destruct (of_int_exact W ltac:(lia)) as (HnW & _ & _).
  destruct (of_int_exact OW ltac:(lia)) as (_ & HnOW & _).
  destruct (of_int_exact OH ltac:(lia)) as (_ & HnOH & _).
  specialize (HnOW ltac:(lia)). specialize (HnOH ltac:(lia)).
  destruct (div_rel 52 _ _ ltac:(lia) HnW HnOW) as [Hq1 _].
  pose proof (div_not_positive 52 _ _ (of_int_not_positive (H - 150) ltac:(lia)) HnOH)
    as Hq2.
  pose proof (Min_not_positive _ _ _ Hq1 Hq2) as Hs.
  intros [= <- <-]. split; apply to_int_not_positive.
  - by apply (mul_not_positive 52).
  - by apply (mul_not_positive 52).
Qed.

End Float64Facts.

(** * Properties of the enumerator *)

Module EnumeratorFacts.

Import Enumerator.

(** [filepath.Ext] on a few paths: the extension starts at the last dot of
    the last element and keeps its case. *)
Example Ext_samples :
  Ext "content/a.png" = ".png" ∧ Ext "x.tar.gz" = ".gz" ∧ Ext ".bmp" = ".bmp" ∧
  Ext "A.JPG" = ".JPG" ∧ Ext "a.b/c" = "" ∧ Ext "noext" = "" ∧ Ext "" = "".
Proof. repeat split. Qed.

Lemma walkFn_ok v sent sent' :
  walkFn v sent = (sent', None) →
  err v = None ∧ sent' = sent ++ image_files [v].
Proof.
  unfold walkFn, image_files. destruct (err v) as [e|]; [discriminate|].
  rewrite filter_cons, filter_nil.
  destruct (IsDir v) eqn:Hd; simpl.
  - intros [= <-]. by rewrite app_nil_r.
  - rewrite filter_cons, filter_nil.
    destruct (is_image (path v)) eqn:Hi; intros [= <-]; simpl.
    + done.
    + by rewrite app_nil_r.
Qed.

Lemma image_files_cons v tree :
  image_files (v :: tree) = image_files [v] ++ image_files tree.
Proof.
  unfold image_files. rewrite !filter_cons, filter_nil.
  destruct (decide (IsDir v = false)); simpl; [|done].
  rewrite !filter_cons, filter_nil. by destruct (decide (is_image (path v))).
Qed.

(** A walk that ends without an error has sent exactly the image files. *)
Lemma Walk_ok tree : ∀ sent sent',
  Walk tree sent = (sent', None) → sent' = sent ++ image_files tree.
Proof.
  induction tree as [|v tree IH]; intros sent sent'; simpl.
  - intros [= <-]. unfold image_files. simpl. by rewrite app_nil_r.
  - destruct (walkFn v sent) as [s1 [e|]] eqn:Hv; [discriminate|].
    intros Hw. apply walkFn_ok in Hv as [_ ->]. apply IH in Hw as ->.
    by rewrite (image_files_cons v tree), app_assoc.
Qed.

(** The walk ends without an error exactly when no visit carries one. *)
Lemma Walk_no_error tree : ∀ sent,
  Forall (λ v, err v = None) tree → snd (Walk tree sent) = None.
Proof.
  induction tree as [|v tree IH]; intros sent Hall; simpl; [done|].
  inversion_clear Hall as [|? ? Hv Htree].
  unfold walkFn. rewrite Hv.
  destruct (negb (IsDir v)); [destruct (is_image (path v))|]; by apply IH.
Qed.

Lemma Walk_error tree : ∀ sent,
  Exists (λ v, err v ≠ None) tree → snd (Walk tree sent) ≠ None.
Proof.
  induction tree as [|v tree IH]; intros sent Hex; simpl.
  - by apply Exists_nil in Hex.
  - unfold walkFn. destruct (err v) as [e|] eqn:Hv; [done|].
    apply Exists_cons in Hex as [Hex|Hex]; [done|].
    destruct (negb (IsDir v)); [destruct (is_image (path v))|]; by apply IH.
Qed.

Lemma receive_id imagesChan : receive imagesChan = imagesChan.
Proof.
  unfold receive. induction imagesChan as [|p l IH] using rev_ind; [done|].
  by rewrite foldl_snoc, IH.
Qed.

(** Writing [a] over an element [y] of a list and putting [y] in front
    rearranges the list. *)
Lemma insert_head_Permutation (l : list string) : ∀ j y a,
  l !! j = Some y → y :: <[j := a]> l ≡ₚ a :: l.
Proof.
  induction l as [|b l IH]; intros [|j] y a Hj; simplify_eq/=.
  - apply perm_swap.
  - rewrite perm_swap. rewrite (IH _ _ _ Hj). apply perm_swap.
Qed.

Lemma swap_Permutation (l : list string) : ∀ i j x y,
  l !! i = Some x → l !! j = Some y → <[j := x]> (<[i := y]> l) ≡ₚ l.
Proof.
  induction l as [|a l IH]; intros [|i] [|j] x y Hi Hj; simplify_eq/=.
  - done.
  - by apply insert_head_Permutation.
  - by apply insert_head_Permutation.
  - f_equiv. by apply IH.
Qed.

Lemma swap_ok images i j :
  (i < length images)%nat → (j < length images)%nat →
  ∃ images', swap images i j = Ok images' ∧ images' ≡ₚ images.
Proof.
  intros Hi Hj. unfold swap.
  destruct (lookup_lt_is_Some_2 images i Hi) as [x Hx].
  destruct (lookup_lt_is_Some_2 images j Hj) as [y Hy].
  rewrite Hx, Hy. eexists; split; [done|]. by apply swap_Permutation.
Qed.

Lemma int31n_lt rdm k n : (0 < n)%nat → (int31n rdm k n < n)%nat.
Proof. intros. unfold int31n. apply Nat.mod_upper_bound. lia. Qed.

Lemma Shuffle_loop_S rdm k i images :
  Shuffle_loop rdm k (S i) images =
  Go.bind (swap images (S i) (int31n rdm k (S (S i)))) (Shuffle_loop rdm (S k) i).
Proof. reflexivity. Qed.

(** The loop of [Shuffle] never indexes out of range and rearranges. *)
Lemma Shuffle_loop_ok rdm i : ∀ k images,
  (i < length images)%nat →
  ∃ images', Shuffle_loop rdm k i images = Ok images' ∧ images' ≡ₚ images.
Proof.
  induction i as [|i IH]; intros k images Hi.
  - by exists images.
  - pose proof (int31n_lt rdm k (S (S i)) ltac:(lia)) as Hj.
    rewrite Shuffle_loop_S.
    destruct (swap_ok images (S i) (int31n rdm k (S (S i))) Hi ltac:(lia))
      as (images1 & -> & Hp1). cbn [Go.bind].
    destruct (IH (S k) images1) as (images2 & -> & Hp2).
    { rewrite Hp1. lia. }
    exists images2. split; [done|]. by rewrite Hp2.
Qed.

Lemma Shuffle_ok rdm images :
  ∃ images', Shuffle rdm (length images) images = Ok images' ∧ images' ≡ₚ images.
Proof.
  unfold Shuffle. destruct images as [|p images]; [by exists []|].
  apply Shuffle_loop_ok. simpl. lia.
Qed.

(** [listImages] ends the program exactly when the walk met an error. *)
Lemma listImages_total tree isRandomOrder rdm :
  Forall (λ v, err v = None) tree →
  ∃ images, listImages tree isRandomOrder rdm = Ok images.
Proof.
  intros Hall. unfold listImages, listImagesAsync.
  pose proof (Walk_no_error tree [] Hall) as He.
  destruct (Walk tree []) as [sent e]. simpl in He. subst e.
  destruct isRandomOrder; [|by eexists].
  destruct (Shuffle_ok rdm (receive sent)) as (images' & -> & _). by eexists.
Qed.

Lemma listImages_fatal tree isRandomOrder rdm :
  Exists (λ v, err v ≠ None) tree →
  ∃ msg, listImages tree isRandomOrder rdm = Fatal msg.
Proof.
  intros Hex. unfold listImages, listImagesAsync.
  pose proof (Walk_error tree [] Hex) as He.
  destruct (Walk tree []) as [sent [e|]]; [by eexists|done].
Qed.

Lemma image_files_allowed tree : Forall (λ p, Ext p ∈ allowed) (image_files tree).
Proof.
  apply Forall_forall. intros p [Hp _]%list_elem_of_filter.
  unfold is_image in Hp. by apply bool_decide_unpack in Hp.
Qed.

Lemma image_files_sublist tree : sublist (image_files tree) (path <$> tree).
Proof.
  unfold image_files. etrans; [apply sublist_filter|].
  apply fmap_sublist, sublist_filter.
Qed.

End EnumeratorFacts.

(** * Properties of the controller *)

Module ControllerFacts.

Local Open Scope Z_scope.

Section WithEnv.
Context (w : World) (env : Env).

Lemma caption_frame entries imagePath st :
  currentIndex (caption env entries imagePath st) = currentIndex st ∧
  timer (caption env entries imagePath st) = timer st ∧
  img (caption env entries imagePath st) = img st.
Proof.
  induction entries as [|entry entries IH]; simpl; [done|].
  by case_bool_decide.
Qed.

(** Without a matching entry the loop changes nothing; with one it
    adds the band and the labels. *)
Lemma caption_overlay entries imagePath st :
  overlay (caption env entries imagePath st) =
  if bool_decide (Exists (λ entry, ImagePath entry = imagePath) entries)
  then overlay st ++ [drawingArea; textContainer]
  else overlay st.
Proof.
  induction entries as [|entry entries IH]; [done|].
  cbn [caption]. destruct (decide (ImagePath entry = imagePath)) as [He|He].
  - rewrite (bool_decide_eq_true_2 _ He).
    rewrite bool_decide_eq_true_2 by (by left).
    simpl. by rewrite <- app_assoc.
  - rewrite (bool_decide_eq_false_2 _ He), IH.
    assert (bool_decide (Exists (λ e, ImagePath e = imagePath) (entry :: entries))
            = bool_decide (Exists (λ e, ImagePath e = imagePath) entries)) as ->;
      [|done].
    apply bool_decide_ext. rewrite Exists_cons.
    split; [by intros [?|?]|by right].
Qed.

(** [updateImage] leaves the timer alone, resets an index that is out of
    range to 0 and otherwise keeps it, and returns only with an index
    that designates an image. *)
Lemma updateImage_frame st st' c :
  updateImage w env st = Ok (st', c) →
  timer st' = timer st ∧
  currentIndex st' =
    (if (currentIndex st <? 0) || (len (images env) <=? currentIndex st)
     then 0 else currentIndex st) ∧
  in_range env st'.
Proof.
  unfold updateImage. intros H.
  set (st0 := if (currentIndex st <? 0) || (len (images env) <=? currentIndex st)
              then set_currentIndex 0 st else st) in *.
  assert (Ht0 : timer st0 = timer st).
  { subst st0. by destruct (_ || _). }
  assert (Hi0 : currentIndex st0 =
                if (currentIndex st <? 0) || (len (images env) <=? currentIndex st)
                then 0 else currentIndex st).
  { subst st0. by destruct (_ || _). }
  destruct (index (images env) (currentIndex st0)) as [imagePath| |] eqn:Hidx;
    cbn [mbind outcome_bind Go.bind] in H; try discriminate.
  assert (Hr0 : 0 ≤ currentIndex st0 < len (images env)).
  { unfold index in Hidx. destruct (currentIndex st0 <? 0) eqn:Hneg; [discriminate|].
    destruct (images env !! Z.to_nat (currentIndex st0)) eqn:Hl; [|discriminate].
    apply lookup_lt_Some in Hl. unfold len. lia. }
  clearbody st0.
  assert (Hend : ∀ st1, currentIndex st1 = currentIndex st0 → timer st1 = timer st0 →
            st' = st1 →
            timer st' = timer st ∧
            currentIndex st' =
              (if (currentIndex st <? 0) || (len (images env) <=? currentIndex st)
               then 0 else currentIndex st) ∧ in_range env st').
  { intros st1 Hi1 Ht1 ->. unfold in_range. rewrite Hi1, Ht1. by rewrite <- Hi0. }
  destruct (PixbufNewFromFile w imagePath) as [pixbuf [e|]].
  { injection H as <- _. by apply (Hend st0). }
  destruct pixbuf as [pb|]; [|injection H as <- _; by apply (Hend st0)].
  destruct ((Width pb =? 0) || (Height pb =? 0)).
  { injection H as <- _. by apply (Hend st0). }
  destruct (GetSize w) as [width height].
  destruct (dest width height (Width pb) (Height pb)) as [destWidth destHeight].
  destruct (ScaleSimple w pb destWidth destHeight) as [scaledPixbuf [e|]];
    [discriminate|].
  injection H as <- _. destruct (enableText (conf env)).
  - eapply Hend; [| |done].
    + by rewrite (proj1 (caption_frame _ _ _)).
    + by rewrite (proj1 (proj2 (caption_frame _ _ _))).
  - by apply (Hend (SetFromPixbuf scaledPixbuf st0)).
Qed.

Lemma refresh_frame st st' :
  refresh w env st = Ok st' →
  timer st' = timer st ∧
  currentIndex st' =
    (if (currentIndex st <? 0) || (len (images env) <=? currentIndex st)
     then 0 else currentIndex st) ∧
  in_range env st'.
Proof.
  unfold refresh. intros H.
  destruct (updateImage w env st) as [[st1 c]| |] eqn:Hu; try discriminate.
  apply updateImage_frame in Hu. simpl in H.
  destruct (call c); simpl in H; try discriminate. by injection H as <-.
Qed.

Lemma refresh_index st st' :
  in_range env st → refresh w env st = Ok st' → currentIndex st' = currentIndex st.
Proof.
  intros Hr (_ & -> & _)%refresh_frame. unfold in_range in Hr.
  destruct (currentIndex st <? 0) eqn:?, (len (images env) <=? currentIndex st) eqn:?;
    simpl; lia.
Qed.

(** [next] on an index in range: one step forward, back to 0 at the end. *)
Lemma next_spec st :
  in_range env st →
  next env st = Ok (set_currentIndex ((currentIndex st + 1) mod len (images env)) st).
Proof.
  intros Hr. unfold in_range in Hr. unfold next, rem.
  destruct (len (images env) =? 0) eqn:Hz; [lia|]. simpl.
  by rewrite Z.rem_mod_nonneg by lia.
Qed.

(** On an empty list [next] divides by zero. *)
Lemma next_empty st :
  images env = [] → next env st = Panic "integer divide by zero".
Proof. intros He. unfold next, rem, len. by rewrite He. Qed.

Lemma turn_spec keyval st :
  in_range env st →
  turn env keyval st =
  Ok (if (keyval =? KEY_space) || (keyval =? KEY_Right)
      then set_currentIndex ((currentIndex st + 1) mod len (images env)) st
      else if keyval =? KEY_Left
           then if currentIndex st =? 0
                then set_currentIndex (len (images env) - 1) st
                else set_currentIndex (currentIndex st - 1) st
           else st).
Proof.
  intros Hr. unfold turn.
  destruct ((keyval =? KEY_space) || (keyval =? KEY_Right)); [by apply next_spec|].
  destruct (keyval =? KEY_Left); [|done]. by destruct (currentIndex st =? 0).
Qed.

(** Every handler ends with [updateImage], so it returns with an index
    in range and with the timer it found, the timeout being the
    exception: its source is gone once it has fired. *)
Lemma handle_frame ev st st' :
  handle w env ev st = Ok st' →
  in_range env st' ∧
  timer st' = match ev with Timeout => None | _ => timer st end.
Proof.
  destruct ev as [|keyval|]; simpl.
  - unfold onTimeout. intros H.
    destruct (next env st) as [st1| |] eqn:H1; try discriminate.
    cbn [mbind outcome_bind Go.bind] in H.
    destruct (refresh w env st1) as [st2| |] eqn:H2; try discriminate.
    injection H as <-. apply refresh_frame in H2 as (_ & _ & Hr). done.
  - unfold onKeyPress. intros H.
    destruct (turn env keyval st) as [st1| |] eqn:H1; try discriminate.
    cbn [mbind outcome_bind Go.bind] in H.
    apply refresh_frame in H as (Ht & _ & Hr). split; [done|].
    rewrite Ht. unfold turn, next in H1.
    repeat case_match; simplify_eq; try done.
    all: by destruct (rem _ _); simplify_eq/=.
  - unfold onButtonPress. intros H.
    destruct (next env st) as [st1| |] eqn:H1; try discriminate.
    cbn [mbind outcome_bind Go.bind] in H.
    apply refresh_frame in H as (Ht & _ & Hr). split; [done|].
    rewrite Ht. unfold next in H1.
    by destruct (rem _ _); simplify_eq/=.
Qed.

Lemma step_handle st ev st' : step w env st ev st' → handle w env ev st = Ok st'.
Proof. by destruct 1. Qed.

Lemma steps_in_range st evs st' :
  in_range env st → steps w env st evs st' → in_range env st'.
Proof.
  intros Hr Hs. induction Hs as [|st ev st1 evs st2 H1 _ IH]; [done|].
  apply IH. by apply step_handle, handle_frame in H1 as [? _].
Qed.

(** Once no source is armed, none is armed ever again. *)
Lemma steps_unarmed st evs st' :
  timer st = None → steps w env st evs st' → timer st' = None ∧ Timeout ∉ evs.
Proof.
  intros Ht Hs. induction Hs as [|st ev st1 evs st2 H1 _ IH].
  - split; [done|]. apply not_elem_of_nil.
  - assert (ev ≠ Timeout) by (destruct H1; congruence).
    apply step_handle, handle_frame in H1 as [_ Ht1].
    destruct IH as [IH1 IH2].
    { rewrite Ht1. by destruct ev. }
    split; [done|]. by apply not_elem_of_cons.
Qed.

Lemma target_in_range ev n i : 0 ≤ i < n → 0 ≤ target ev n i < n.
Proof.
  intros Hi. pose proof (Z.mod_pos_bound (i + 1) n ltac:(lia)).
  unfold target. destruct ev as [|keyval|]; [lia| |lia].
  destruct (_ || _); [lia|]. destruct (keyval =? KEY_Left); [|lia].
  destruct (i =? 0) eqn:?; lia.
Qed.

Lemma handle_index ev st st' :
  in_range env st → handle w env ev st = Ok st' →
  currentIndex st' = target ev (len (images env)) (currentIndex st).
Proof.
  intros Hr H.
  pose proof (target_in_range ev _ _ Hr) as Htg.
  assert (Hset : ∀ i st1, in_range env (set_currentIndex i st1) ↔
                          0 ≤ i < len (images env)) by done.
  destruct ev as [|keyval|]; simpl in H.
  - unfold onTimeout in H. rewrite next_spec in H by done.
    cbn [mbind outcome_bind Go.bind] in H.
    destruct (refresh w env _) as [st2| |] eqn:H2; try discriminate.
    injection H as <-. apply refresh_index in H2; [done|]. by apply Hset.
  - unfold onKeyPress in H. rewrite turn_spec in H by done.
    cbn [mbind outcome_bind Go.bind] in H. apply refresh_index in H.
    + rewrite H. unfold target. by repeat case_match.
    + unfold target in Htg. repeat case_match; by try apply Hset.
  - unfold onButtonPress in H. rewrite next_spec in H by done.
    cbn [mbind outcome_bind Go.bind] in H.
    apply refresh_index in H; [done|]. by apply Hset.
Qed.

Lemma refresh_total st imagePath :
  in_range env st →
  images env !! Z.to_nat (currentIndex st) = Some imagePath →
  displays w imagePath →
  ∃ st', refresh w env st = Ok st'.
Proof.
  intros Hr Hl (pb & scaled & Hd & Hw & Hh & Hs).
  unfold in_range in Hr. unfold refresh, updateImage.
  destruct (currentIndex st <? 0) eqn:?; [lia|].
  destruct (len (images env) <=? currentIndex st) eqn:?; [lia|]. simpl.
  unfold index. destruct (currentIndex st <? 0) eqn:?; [lia|]. rewrite Hl.
  cbn [mbind outcome_bind Go.bind]. rewrite Hd.
  destruct (Width pb =? 0) eqn:?; [lia|]. destruct (Height pb =? 0) eqn:?; [lia|].
  simpl. destruct (GetSize w) as [width height]. simpl in Hs.
  destruct (dest width height (Width pb) (Height pb)) as [dw dh]. simpl in Hs.
  rewrite Hs. simpl. by eexists.
Qed.

(** A decoding error, reported with a nil pointer as the decoder does,
    makes the cleanup dereference nil. *)
Lemma refresh_decode_error st imagePath e :
  in_range env st →
  images env !! Z.to_nat (currentIndex st) = Some imagePath →
  PixbufNewFromFile w imagePath = (None, Some e) →
  refresh w env st = Panic "nil pointer dereference".
Proof.
  intros Hr Hl Hd. unfold in_range in Hr. unfold refresh, updateImage.
  destruct (currentIndex st <? 0) eqn:?; [lia|].
  destruct (len (images env) <=? currentIndex st) eqn:?; [lia|]. simpl.
  unfold index. destruct (currentIndex st <? 0) eqn:?; [lia|]. rewrite Hl.
  cbn [mbind outcome_bind Go.bind]. by rewrite Hd.
Qed.

(** With captions disabled no handler touches the overlay. *)
Lemma updateImage_overlay_no_text st st' c :
  enableText (conf env) = false →
  updateImage w env st = Ok (st', c) → overlay st' = overlay st.
Proof.
  intros Hno. unfold updateImage. rewrite Hno. intros H.
  assert (overlay (if (currentIndex st <? 0) || (len (images env) <=? currentIndex st)
                   then set_currentIndex 0 st else st) = overlay st) as <-
    by by destruct (_ || _).
  destruct (index _ _); cbn [mbind outcome_bind Go.bind] in H; try discriminate.
  repeat case_match; by simplify_eq.
Qed.

Lemma handle_overlay_no_text ev st st' :
  enableText (conf env) = false →
  handle w env ev st = Ok st' → overlay st' = overlay st.
Proof.
  intros Hno.
  assert (Hre : ∀ st1 st2, refresh w env st1 = Ok st2 → overlay st2 = overlay st1).
  { unfold refresh. intros st1 st2 H.
    destruct (updateImage w env st1) as [[st3 c]| |] eqn:Hu; try discriminate.
    apply updateImage_overlay_no_text in Hu; [|done]. simpl in H.
    destruct (call c); simpl in H; by simplify_eq. }
  assert (Hnx : ∀ st1 st2, next env st1 = Ok st2 → overlay st2 = overlay st1).
  { unfold next. intros st1 st2 H. by destruct (rem _ _); simplify_eq/=. }
  destruct ev as [|keyval|]; simpl.
  - unfold onTimeout. intros H.
    destruct (next env st) as [st1| |] eqn:H1; try discriminate.
    cbn [mbind outcome_bind Go.bind] in H.
    destruct (refresh w env st1) as [st2| |] eqn:H2; try discriminate.
    injection H as <-. simpl. by rewrite (Hre _ _ H2), (Hnx _ _ H1).
  - unfold onKeyPress. intros H.
    destruct (turn env keyval st) as [st1| |] eqn:H1; try discriminate.
    cbn [mbind outcome_bind Go.bind] in H. rewrite (Hre _ _ H).
    unfold turn in H1. repeat case_match; simplify_eq; try done. by apply Hnx.
  - unfold onButtonPress. intros H.
    destruct (next env st) as [st1| |] eqn:H1; try discriminate.
    cbn [mbind outcome_bind Go.bind] in H. by rewrite (Hre _ _ H), (Hnx _ _ H1).
Qed.

Lemma steps_overlay_no_text st evs st' :
  enableText (conf env) = false →
  steps w env st evs st' → overlay st' = overlay st.
Proof.
  intros Hno Hs. induction Hs as [|st ev st1 evs st2 H1 _ IH]; [done|].
  rewrite IH. by apply step_handle, handle_overlay_no_text in H1.
Qed.

(** With captions enabled, an update that draws a new image shows the
    caption exactly when the manifest has an entry for its path. *)
Lemma updateImage_caption_with_text st st' pixbuf scaled :
  enableText (conf env) = true →
  updateImage w env st = Ok (st', [pixbuf; scaled]) →
  ∃ imagePath,
    images env !! Z.to_nat (currentIndex st') = Some imagePath ∧
    img st' = scaled ∧
    caption_shown st' = has_entry (manifest env) imagePath.
Proof.
  intros Hyes. unfold updateImage. rewrite Hyes. intros H.
  set (st0 := if (currentIndex st <? 0) || (len (images env) <=? currentIndex st)
              then set_currentIndex 0 st else st) in *. clearbody st0.
  destruct (index (images env) (currentIndex st0)) as [imagePath| |] eqn:Hidx;
    cbn [mbind outcome_bind Go.bind] in H; try discriminate.
  exists imagePath.
  assert (Hl : images env !! Z.to_nat (currentIndex st0) = Some imagePath).
  { unfold index in Hidx. repeat case_match; by simplify_eq. }
  repeat case_match; simplify_eq.
  destruct (caption_frame (Entries (manifest env)) imagePath
              (Remove textContainer (Remove drawingArea
                 (SetMarkup "" "" (SetFromPixbuf scaled st0))))) as (-> & _ & ->).
  split; [done|]. split; [done|].
  unfold caption_shown, has_entry. rewrite caption_overlay.
  set (rest := overlay (Remove textContainer _)).
  assert (Hd : drawingArea ∉ rest).
  { subst rest. simpl. intros (_ & (? & _)%list_elem_of_filter)%list_elem_of_filter.
    done. }
  assert (Ht : textContainer ∉ rest).
  { subst rest. simpl. by intros (? & _)%list_elem_of_filter. }
  destruct (bool_decide (Exists _ _)).
  - rewrite !bool_decide_eq_true_2; [done|..]; apply elem_of_app; right;
      repeat constructor.
  - by rewrite (bool_decide_eq_false_2 _ Hd).
Qed.

(** An update that returns the cleanup of two pixbufs has decoded the
    image at the index, found a size on it and scaled it to [dest]. *)
Lemma updateImage_scaled st st' pb scaled :
  updateImage w env st = Ok (st', [Some pb; scaled]) →
  ∃ imagePath,
    images env !! Z.to_nat (currentIndex st') = Some imagePath ∧
    PixbufNewFromFile w imagePath = (Some pb, None) ∧
    ScaleSimple w pb (dest (GetSize w).1 (GetSize w).2 (Width pb) (Height pb)).1
                     (dest (GetSize w).1 (GetSize w).2 (Width pb) (Height pb)).2
      = (scaled, None) ∧
    img st' = scaled.
Proof.
  unfold updateImage. intros H.
  set (st0 := if (currentIndex st <? 0) || (len (images env) <=? currentIndex st)
              then set_currentIndex 0 st else st) in *. clearbody st0.
  destruct (index (images env) (currentIndex st0)) as [imagePath| |] eqn:Hidx;
    cbn [mbind outcome_bind Go.bind] in H; try discriminate.
  exists imagePath.
  assert (Hl : images env !! Z.to_nat (currentIndex st0) = Some imagePath).
  { unfold index in Hidx. repeat case_match; by simplify_eq. }
  destruct (PixbufNewFromFile w imagePath) as [[pb'|] [e|]]; try by simplify_eq.
  destruct ((Width pb' =? 0) || (Height pb' =? 0)); [by simplify_eq|].
  destruct (GetSize w) as [width height]. cbn [fst snd].
  destruct (dest width height (Width pb') (Height pb')) as [dw dh] eqn:Hdest.
  destruct (ScaleSimple w pb' dw dh) as [scaled' [e|]] eqn:Hs; [discriminate|].
  injection H as <- <- <-. rewrite Hdest. cbn [fst snd].
  destruct (enableText (conf env)).
  - destruct (caption_frame (Entries (manifest env)) imagePath
                (Remove textContainer (Remove drawingArea
                   (SetMarkup "" "" (SetFromPixbuf scaled' st0))))) as (-> & _ & ->).
    done.
  - done.
Qed.

End WithEnv.

(** A run of [main] that reaches the main loop has loaded the
    configuration and the manifest, listed the images and drawn the
    first one. *)
Lemma main_Ok w env st0 :
  main w = Ok (env, st0) →
  ∃ config manifest images,
    loadConfig w "config.yaml" = (Some config, None) ∧
    loadManifest w (manifestPath (settings (UintSize w) config)) = (Some manifest, None) ∧
    Enumerator.listImages (Tree w (contentDirectory (settings (UintSize w) config)))
      (IsRandomOrder config) (Seed w) = Ok images ∧
    env = {| images := images; manifest := manifest;
             conf := settings (UintSize w) config |} ∧
    refresh w env (set_timer (Some (slideInterval (conf env))) initial) = Ok st0.
Proof.
  unfold main, must. intros H.
  destruct (loadConfig w "config.yaml") as [[config|] [e|]] eqn:Hc; try discriminate.
  destruct (hexToRGB w _); try discriminate.
  destruct (loadManifest w _) as [[manifest|] [e|]] eqn:Hm; try discriminate.
  destruct (WindowNew w), (CssProviderNew w), (ScreenGetDefault w),
    (LabelNew_title w), (LabelNew_desc w), (OverlayNew w), (ImageNew w),
    (DrawingAreaNew w), (BoxNew w); try discriminate.
  destruct (Enumerator.listImages _ _ _) as [images| |] eqn:Hl; try discriminate.
  cbn [mbind outcome_bind Go.bind] in H.
  destruct (refresh w _ _) as [st| |] eqn:Hr; try discriminate.
  cbn [mbind outcome_bind Go.bind] in H. injection H as <- <-.
  by exists config, manifest, images.
Qed.

(** In every state of a slideshow that has reached the main loop the
    index designates an image; there is one, then. *)
Lemma main_index_in_range w env st0 evs st :
  main w = Ok (env, st0) → steps w env st0 evs st →
  images env ≠ [] ∧ in_range env st.
Proof.
  intros (config & m & imgs & _ & _ & _ & _ & Hr)%main_Ok Hs.
  apply refresh_frame in Hr as (_ & _ & Hr).
  pose proof (steps_in_range w env st0 evs st Hr Hs) as Hin.
  split; [|done]. intros He. unfold in_range, len in Hin. rewrite He in Hin.
  simpl in Hin. lia.
Qed.

(** With captions disabled the band and the labels put on the overlay by
    [main] stay on it in every state of the main loop. *)
Lemma main_overlay_no_text w env st0 evs st :
  main w = Ok (env, st0) → enableText (conf env) = false →
  steps w env st0 evs st →
  overlay st = [drawingArea; textContainer] ∧ caption_shown st = true.
Proof.
  intros (config & m & imgs & _ & _ & _ & _ & Hr)%main_Ok Hno Hs.
  assert (Ho : overlay st = [drawingArea; textContainer]).
  { rewrite (steps_overlay_no_text w env st0 evs st Hno Hs).
    unfold refresh in Hr.
    destruct (updateImage w env _) as [[st1 c]| |] eqn:Hu; try discriminate.
    apply updateImage_overlay_no_text in Hu; [|done].
    simpl in Hr. destruct (call c); simpl in Hr; by simplify_eq. }
  split; [done|]. unfold caption_shown. by rewrite Ho.
Qed.

(** After the first timeout of a slideshow no other timeout follows. *)
Lemma main_one_timeout w env st0 evs1 st1 st2 evs2 st3 :
  main w = Ok (env, st0) →
  steps w env st0 evs1 st1 → step w env st1 Timeout st2 →
  steps w env st2 evs2 st3 →
  timer st3 = None ∧ Timeout ∉ evs2.
Proof.
  intros _ _ Ht Hs. apply step_handle, handle_frame in Ht as [_ Ht].
  by apply (steps_unarmed w env st2).
Qed.

End ControllerFacts.

(** * The properties of the specification *)

Import EnumeratorFacts ControllerFacts.

Local Open Scope Z_scope.

(** C5: every path in the list returned by [listImages] has one of the
    extensions .jpg, .jpeg, .png, .gif or .bmp, and when no shuffle is
    requested the paths are the image files in the order in which the
    directory walk visits them. *)
Theorem listImages_extensions_and_order tree isRandomOrder rdm images :
  Enumerator.listImages tree isRandomOrder rdm = Ok images →
  Forall (λ p, Enumerator.Ext p ∈ [".jpg"; ".jpeg"; ".png"; ".gif"; ".bmp"]) images ∧
  (isRandomOrder = false →
   images = image_files tree ∧ sublist images (Enumerator.path <$> tree)).
Proof.
  unfold Enumerator.listImages, Enumerator.listImagesAsync.
  destruct (Enumerator.Walk tree []) as [sent [e|]] eqn:Hw; [discriminate|].
  apply Walk_ok in Hw. simpl in Hw. subst sent. rewrite receive_id.
  destruct isRandomOrder.
  - destruct (Shuffle_ok rdm (image_files tree)) as (images' & -> & Hp).
    intros [= <-]. split; [|discriminate].
    rewrite Hp. apply image_files_allowed.
  - intros [= <-]. split; [apply image_files_allowed|].
    intros _. split; [done|apply image_files_sublist].
Qed.

Lemma listImages_extensions_and_order_witness :
  Forall (λ p, Enumerator.Ext p ∈ [".jpg"; ".jpeg"; ".png"; ".gif"; ".bmp"])
    ["content/a.png"; "content/b.jpg"; "content/old.gif/c.bmp"] ∧
  (false = false →
   ["content/a.png"; "content/b.jpg"; "content/old.gif/c.bmp"] = image_files Sample.tree ∧
   sublist ["content/a.png"; "content/b.jpg"; "content/old.gif/c.bmp"]
           (Enumerator.path <$> Sample.tree)).
Proof.
  apply (listImages_extensions_and_order Sample.tree false Sample.seed).
  vm_compute. reflexivity.
Defined.

(** C6: for every list of paths the walk has enumerated, [listImages]
    without the random-order flag returns that list unchanged; with the
    flag it returns the result of one [Shuffle] of it, which is a
    permutation of the list and has its length. *)
Theorem listImages_shuffles_only_on_request tree rdm enumerated :
  Enumerator.listImagesAsync tree = (enumerated, None) →
  Enumerator.listImages tree false rdm = Ok enumerated ∧
  ∃ shuffled,
    Enumerator.listImages tree true rdm = Ok shuffled ∧
    Enumerator.Shuffle rdm (length enumerated) enumerated = Ok shuffled ∧
    shuffled ≡ₚ enumerated ∧
    length shuffled = length enumerated.
Proof.
  intros Ha. unfold Enumerator.listImages. rewrite Ha, receive_id.
  split; [done|].
  destruct (Shuffle_ok rdm enumerated) as (shuffled & Hs & Hp).
  exists shuffled. rewrite Hs. repeat split; [done|]. by rewrite Hp.
Qed.

Lemma listImages_shuffles_only_on_request_witness :
  Enumerator.listImages Sample.tree false Sample.seed
    = Ok ["content/a.png"; "content/b.jpg"; "content/old.gif/c.bmp"] ∧
  ∃ shuffled,
    Enumerator.listImages Sample.tree true Sample.seed = Ok shuffled ∧
    Enumerator.Shuffle Sample.seed
      (length ["content/a.png"; "content/b.jpg"; "content/old.gif/c.bmp"])
      ["content/a.png"; "content/b.jpg"; "content/old.gif/c.bmp"] = Ok shuffled ∧
    shuffled ≡ₚ ["content/a.png"; "content/b.jpg"; "content/old.gif/c.bmp"] ∧
    length shuffled = length ["content/a.png"; "content/b.jpg"; "content/old.gif/c.bmp"].
Proof.
  apply (listImages_shuffles_only_on_request Sample.tree Sample.seed).
  vm_compute. reflexivity.
Defined.

(** C3, as stated, fails on a content directory without images: the list
    produced at startup is empty, so the index 0 that [main] starts from
    is not within [0, len(images)), and the first [updateImage] indexes
    out of range. *)
Lemma empty_list_index_not_in_range :
  Enumerator.listImages Sample.tree_empty false Sample.seed = Ok [] ∧
  ¬ in_range {| images := []; manifest := Sample.captions;
                conf := settings 64 Sample.config |} initial ∧
  main Sample.world_empty = Panic "index out of range".
Proof.
  split; [reflexivity|]. split; [|vm_compute; reflexivity].
  unfold in_range. simpl. unfold len. simpl. lia.
Qed.

(** C3, amended: for every non-empty image list and every sequence of
    transitions (timer fires, key presses, mouse clicks) starting from
    index 0, the current index stays within [0, len(images)): the index 0
    is in range, each event handler maps an index in range to an index in
    range, and so does every run of the main loop that follows the first
    [updateImage]. *)
Theorem index_stays_in_range w env :
  images env ≠ [] →
  in_range env initial ∧
  (∀ ev st st', in_range env st → handle w env ev st = Ok st' → in_range env st') ∧
  (∀ ms st0 evs st,
     refresh w env (set_timer ms initial) = Ok st0 →
     steps w env st0 evs st →
     in_range env st).
Proof.
  intros Hne. split; [|split].
  - unfold in_range, len. simpl. destruct (images env); [done|]. simpl. lia.
  - intros ev st st' _ H. by apply handle_frame in H as [? _].
  - intros ms st0 evs st H0 Hs. apply refresh_frame in H0 as (_ & _ & Hr).
    by eapply steps_in_range.
Qed.

Lemma index_stays_in_range_witness :
  in_range Sample.env initial ∧
  (∀ ev st st', in_range Sample.env st →
                handle Sample.world Sample.env ev st = Ok st' →
                in_range Sample.env st') ∧
  (∀ ms st0 evs st,
     refresh Sample.world Sample.env (set_timer ms initial) = Ok st0 →
     steps Sample.world Sample.env st0 evs st →
     in_range Sample.env st).
Proof.
  apply (index_stays_in_range Sample.world Sample.env). simpl. discriminate.
Defined.

(** C4: for an image list of length n > 0 and an index i in [0, n), a
    timer fire, a right-arrow or space key press and a mouse click set the
    index to (i + 1) mod n, and a left-arrow key press sets it to i - 1 when
    i > 0 and to n - 1 when i = 0; the handler returns with that index, and
    it does return when the image at that index can be displayed. *)
Theorem index_transitions w env st :
  0 < len (images env) →
  0 ≤ currentIndex st < len (images env) →
  next env st
    = Ok (set_currentIndex ((currentIndex st + 1) mod len (images env)) st) ∧
  turn env KEY_Right st
    = Ok (set_currentIndex ((currentIndex st + 1) mod len (images env)) st) ∧
  turn env KEY_space st
    = Ok (set_currentIndex ((currentIndex st + 1) mod len (images env)) st) ∧
  turn env KEY_Left st
    = Ok (set_currentIndex (if currentIndex st =? 0 then len (images env) - 1
                            else currentIndex st - 1) st) ∧
  (∀ ev st',
     ev ∈ [Timeout; KeyPress KEY_Right; KeyPress KEY_space; ButtonPress] →
     handle w env ev st = Ok st' →
     currentIndex st' = (currentIndex st + 1) mod len (images env)) ∧
  (∀ st',
     handle w env (KeyPress KEY_Left) st = Ok st' →
     currentIndex st' = if currentIndex st =? 0 then len (images env) - 1
                        else currentIndex st - 1) ∧
  (∀ ev imagePath,
     images env !! Z.to_nat (target ev (len (images env)) (currentIndex st))
       = Some imagePath →
     displays w imagePath →
     ∃ st', handle w env ev st = Ok st').
Proof.
  intros Hn Hi. assert (Hr : in_range env st) by done.
  split; [by apply next_spec|]. repeat split.
  - by rewrite turn_spec.
  - by rewrite turn_spec.
  - rewrite turn_spec by done. simpl. by destruct (currentIndex st =? 0).
  - intros ev st' Hev H. apply handle_index in H; [|done]. rewrite H.
    repeat (apply elem_of_cons in Hev as [->|Hev]; [done|]).
    by apply elem_of_nil in Hev.
  - intros st' H. by apply handle_index in H.
  - intros ev imagePath Hl Hd.
    pose proof (target_in_range ev _ _ Hi) as Htg.
    assert (Hgo : ∀ st1, currentIndex st1 = target ev (len (images env)) (currentIndex st) →
                         ∃ st', refresh w env st1 = Ok st').
    { intros st1 H1. apply (refresh_total w env st1 imagePath); unfold in_range;
        by rewrite ?H1. }
    destruct ev as [|keyval|]; simpl.
    + unfold onTimeout. rewrite next_spec by done. cbn [mbind outcome_bind Go.bind].
      destruct (Hgo (set_currentIndex ((currentIndex st + 1) mod len (images env)) st))
        as [st' ->]; [done|]. by eexists.
    + unfold onKeyPress. rewrite turn_spec by done. cbn [mbind outcome_bind Go.bind].
      apply Hgo. unfold target. by repeat case_match.
    + unfold onButtonPress. rewrite next_spec by done. cbn [mbind outcome_bind Go.bind].
      by apply Hgo.
Qed.

Lemma index_transitions_witness :
  next Sample.env initial = Ok (set_currentIndex ((0 + 1) mod 3) initial).
Proof.
  apply (index_transitions Sample.world Sample.env initial).
  - reflexivity.
  - split; [discriminate|reflexivity].
Defined.

(** C1, evaluated with [enable_text: false]: the caption band and the box
    of the labels, put on the overlay when [main] builds the window, are
    still on it after the first [updateImage] and after a mouse click,
    although captions are disabled: [updateImage] removes them only when
    [enableText] holds. *)
Theorem caption_band_shown_without_text :
  ∃ env st0 st1,
    main Sample.world_no_text = Ok (env, st0) ∧
    enableText (conf env) = false ∧
    caption_shown st0 = true ∧
    step Sample.world_no_text env st0 ButtonPress st1 ∧
    caption_shown st1 = true.
Proof.
  eexists _, _, _. split; [vm_compute; reflexivity|].
  split; [reflexivity|]. split; [reflexivity|].
  split; [constructor; vm_compute; reflexivity|reflexivity].
Qed.

(** C2, evaluated on the sample slideshow: the timeout armed by [main]
    fires once; its callback arms no new timeout, so afterwards no source
    is pending and no later turn of the main loop is a timeout. *)
Theorem timer_not_rearmed :
  ∃ env st0 st1,
    main Sample.world = Ok (env, st0) ∧
    timer st0 = Some 5000 ∧
    step Sample.world env st0 Timeout st1 ∧
    timer st1 = None ∧
    ∀ evs st2, steps Sample.world env st1 evs st2 → timer st2 = None ∧ Timeout ∉ evs.
Proof.
  eexists _, _, _. split; [vm_compute; reflexivity|].
  split; [reflexivity|].
  split; [econstructor; [reflexivity|vm_compute; reflexivity]|].
  split; [reflexivity|].
  intros evs st2. by apply steps_unarmed.
Qed.

(** C7, evaluated on a slideshow one of whose images does not decode: for
    that image [updateImage] returns a cleanup that dereferences the nil
    pixbuf, and calling it panics, in [main] when the image is the first,
    on a mouse click when it is the second. *)
Theorem decode_error_panics :
  main Sample.world_bad_first = Panic "nil pointer dereference" ∧
  ∃ env st0,
    main Sample.world_bad_image = Ok (env, st0) ∧
    next env st0 = Ok (set_currentIndex 1 st0) ∧
    images env !! 1%nat = Some "content/b.jpg" ∧
    PixbufNewFromFile Sample.world_bad_image "content/b.jpg"
      = (None, Some "Unrecognized image file format") ∧
    updateImage Sample.world_bad_image env (set_currentIndex 1 st0)
      = Ok (set_currentIndex 1 st0, [None]) ∧
    call [None] = Panic "nil pointer dereference" ∧
    handle Sample.world_bad_image env ButtonPress st0
      = Panic "nil pointer dereference".
Proof.
  split; [vm_compute; reflexivity|].
  eexists _, _. split; [vm_compute; reflexivity|].
  repeat split; vm_compute; reflexivity.
Qed.

(** C9: [loadConfig] and [loadManifest] return an error exactly when the
    read or the unmarshalling fails, and [main] ends with [log.Fatalf] on
    either error, before the images are listed and the index is created. *)
Theorem load_failure_is_fatal w :
  (∀ path, (loadConfig w path).2 ≠ None ↔
           (ReadFile w path).2 ≠ None ∨
           (UnmarshalConfig w (ReadFile w path).1).2 ≠ None) ∧
  (∀ path, (loadManifest w path).2 ≠ None ↔
           (ReadFile w path).2 ≠ None ∨
           (UnmarshalManifest w (ReadFile w path).1).2 ≠ None) ∧
  (∀ e, (loadConfig w "config.yaml").2 = Some e →
        main w = Fatal ("Failed to load config: " +:+ e)) ∧
  (∀ config e,
     loadConfig w "config.yaml" = (Some config, None) →
     (loadManifest w (manifestPath (settings (UintSize w) config))).2 = Some e →
     main w =
     Fatal (match hexToRGB w (fillColor (settings (UintSize w) config)) with
            | Some m => m
            | None => "Failed to load manifest: " +:+ e
            end)).
Proof.
  repeat split.
  - unfold loadConfig. destruct (ReadFile w path) as [data [e|]]; simpl; [by left|].
    destruct (UnmarshalConfig w data) as [config [e|]]; simpl; [by right|done].
  - unfold loadConfig. destruct (ReadFile w path) as [data [e|]]; simpl; [done|].
    destruct (UnmarshalConfig w data) as [config [e|]]; simpl; [done|]. by intros [|].
  - unfold loadManifest. destruct (ReadFile w path) as [data [e|]]; simpl; [by left|].
    destruct (UnmarshalManifest w data) as [m [e|]]; simpl; [by right|done].
  - unfold loadManifest. destruct (ReadFile w path) as [data [e|]]; simpl; [done|].
    destruct (UnmarshalManifest w data) as [m [e|]]; simpl; [done|]. by intros [|].
  - intros e He. unfold main.
    destruct (loadConfig w "config.yaml") as [[c|] o]; simpl in He; by subst o.
  - intros config e Hc He. unfold main, must. rewrite Hc.
    destruct (hexToRGB w _) as [m|]; [done|].
    destruct (loadManifest w _) as [[m|] o]; simpl in He; by subst o.
Qed.

Lemma load_failure_is_fatal_witness :
  main Sample.world_no_config
    = Fatal ("Failed to load config: " +:+ "no such file or directory").
Proof.
  apply (load_failure_is_fatal Sample.world_no_config). reflexivity.
Defined.

(** C10, as stated, fails on a slide interval whose product with 1000 does
    not fit a [uint]: 2^61 seconds is a non-zero interval of a 64-bit
    [uint], and the interval used is 30000 ms, not 2^61 * 1000. *)
Lemma long_interval_wraps :
  SlideInterval Sample.config_long ≠ 0 ∧
  0 ≤ SlideInterval Sample.config_long < 2 ^ 64 ∧
  slideInterval (settings 64 Sample.config_long) = 30000 ∧
  slideInterval (settings 64 Sample.config_long)
    ≠ SlideInterval Sample.config_long * 1000.
Proof. vm_compute. repeat split; discriminate. Qed.

(** On a 32-bit [uint] an interval of 4294968 seconds, some 49 days,
    wraps to 704 ms. *)
Example interval_wraps_32 :
  slideInterval (settings 32 {| ContentDirectory := ""; ManifestPath := "";
                                SlideInterval := 4294968; FillColor := "";
                                TextColor := ""; EnableText := true;
                                IsRandomOrder := false |}) = 704.
Proof. reflexivity. Qed.

(** C10, amended: for every loaded config whose slide interval times 1000
    fits the [uint] type, the settings used are the configured values with
    the fixed defaults in place of empty or zero ones: "./content" for an
    empty content_directory, 30000 ms for a zero slide_interval (otherwise
    the configured seconds times 1000), "#ADD8E6" for an empty fill_color,
    "#000000" for an empty text_color and "./manifest.yaml" for an empty
    manifest_path. *)
Theorem settings_defaults bits config :
  0 ≤ SlideInterval config * 1000 < 2 ^ bits →
  contentDirectory (settings bits config)
    = (if bool_decide (ContentDirectory config = "") then "./content"
       else ContentDirectory config) ∧
  slideInterval (settings bits config)
    = (if SlideInterval config =? 0 then 30000 else SlideInterval config * 1000) ∧
  fillColor (settings bits config)
    = (if bool_decide (FillColor config = "") then "#ADD8E6" else FillColor config) ∧
  textColor (settings bits config)
    = (if bool_decide (TextColor config = "") then "#000000" else TextColor config) ∧
  manifestPath (settings bits config)
    = (if bool_decide (ManifestPath config = "") then "./manifest.yaml"
       else ManifestPath config) ∧
  enableText (settings bits config) = EnableText config.
Proof.
  intros Hfit. repeat split. simpl. unfold uint_mul.
  rewrite Z.mod_small by done.
  destruct (SlideInterval config =? 0) eqn:Hz.
  - apply Z.eqb_eq in Hz. by rewrite Hz.
  - apply Z.eqb_neq in Hz. destruct (SlideInterval config * 1000 =? 0) eqn:Hp; [|done].
    apply Z.eqb_eq in Hp. lia.
Qed.

Lemma settings_defaults_witness :
  contentDirectory (settings 64 Sample.config) = "./content" ∧
  slideInterval (settings 64 Sample.config) = 5000 ∧
  fillColor (settings 64 Sample.config) = "#ADD8E6" ∧
  textColor (settings 64 Sample.config) = "#000000" ∧
  manifestPath (settings 64 Sample.config) = "./manifest.yaml" ∧
  enableText (settings 64 Sample.config) = true.
Proof.
  apply (settings_defaults 64 Sample.config). split; [discriminate|reflexivity].
Defined.

(** C8, as stated, fails on an image one pixel high.  In a window of 1999
    by 155 an image of 1000 by 1 is scaled to 1999 by 1: the factor 1.999
    doubles the width, and the height, 1.999, is cut to one pixel, so the
    proportions are not those of the image.  In the window of 1920 by
    1080 an image of 3000 by 1, decoded without error and with a positive
    width and height, gets the height 0: nothing is scaled and [main]
    ends with the error of [ScaleSimple]. *)
Lemma thin_image_loses_its_proportions :
  dest 1999 155 1000 1 = (1999, 1) ∧
  (let '(destWidth, destHeight) := dest 1999 155 1000 1 in
   destWidth * 1 ≠ destHeight * 1000) ∧
  PixbufNewFromFile Sample.world_thin "content/a.png" = (Some Sample.thin, None) ∧
  0 < Width Sample.thin ∧ 0 < Height Sample.thin ∧
  dest (GetSize Sample.world_thin).1 (GetSize Sample.world_thin).2
       (Width Sample.thin) (Height Sample.thin) = (1920, 0) ∧
  main Sample.world_thin = Fatal "Unable to scale pixbuf:nil pointer".
Proof. vm_compute. repeat split; discriminate. Qed.

(** Beyond the sizes of the amended claim the rounding of the products
    can cost more than the pixel of the truncation. *)
Example proportions_of_huge_sizes :
  dest 1073741824 2147483647 1528979623 1732938813 = (1073741823, 1216974284) ∧
  1073741823 * 1732938813 - 1216974284 * 1528979623 < - 1732938813.
Proof. split; [vm_compute; reflexivity|reflexivity]. Qed.

(** C8, amended: for every image at the index that decodes with a positive
    width and height, the transition computes both dimensions with one
    factor, the minimum of window_width / original_width and
    (window_height - 150) / original_height, as the whole pixels of
    original * factor, and calls [ScaleSimple] with them: it shows the
    image scaled to these dimensions, or ends with the error of
    [ScaleSimple].  When the window is at least as high as the caption
    band of 150, the dimensions fit within the window minus the band and
    keep the proportions of the image up to the pixel that the conversion
    to whole pixels drops; in a lower window neither dimension is
    positive.  Sizes are those of the toolkit (below 2^31), and the bound
    on the proportions is for sizes whose product is at most 2^50. *)
Theorem scaled_image_fits w env st imagePath pb :
  in_range env st →
  images env !! Z.to_nat (currentIndex st) = Some imagePath →
  PixbufNewFromFile w imagePath = (Some pb, None) →
  0 < Width pb < 2 ^ 31 →
  0 < Height pb < 2 ^ 31 →
  0 ≤ (GetSize w).1 < 2 ^ 31 →
  0 ≤ (GetSize w).2 < 2 ^ 31 →
  ∃ destWidth destHeight,
    destWidth
      = Float64.to_int (Float64.mul (Float64.of_int (Width pb))
          (Float64.Min
             (Float64.div (Float64.of_int (GetSize w).1) (Float64.of_int (Width pb)))
             (Float64.div (Float64.of_int ((GetSize w).2 - 150))
                          (Float64.of_int (Height pb))))) ∧
    destHeight
      = Float64.to_int (Float64.mul (Float64.of_int (Height pb))
          (Float64.Min
             (Float64.div (Float64.of_int (GetSize w).1) (Float64.of_int (Width pb)))
             (Float64.div (Float64.of_int ((GetSize w).2 - 150))
                          (Float64.of_int (Height pb))))) ∧
    match ScaleSimple w pb destWidth destHeight with
    | (scaled, None) =>
        ∃ st', updateImage w env st = Ok (st', [Some pb; scaled]) ∧ img st' = scaled
    | (_, Some e) => updateImage w env st = Fatal ("Unable to scale pixbuf:" +:+ e)
    end ∧
    (150 ≤ (GetSize w).2 →
     0 ≤ destWidth ≤ (GetSize w).1 ∧
     0 ≤ destHeight ≤ (GetSize w).2 - 150 ∧
     ((GetSize w).1 * Height pb ≤ 2 ^ 50 ∨ ((GetSize w).2 - 150) * Width pb ≤ 2 ^ 50 →
      - Height pb ≤ destWidth * Height pb - destHeight * Width pb ≤ Width pb)) ∧
    ((GetSize w).2 < 150 → destWidth ≤ 0 ∧ destHeight ≤ 0).
Proof.
  intros Hr Hl Hd HOW HOH HW HH.
  destruct (dest (GetSize w).1 (GetSize w).2 (Width pb) (Height pb))
    as [destWidth destHeight] eqn:Hdest.
  exists destWidth, destHeight.
  assert (Hfit : 150 ≤ (GetSize w).2 →
            0 ≤ destWidth ≤ (GetSize w).1 ∧
            0 ≤ destHeight ≤ (GetSize w).2 - 150 ∧
            ((GetSize w).1 * Height pb ≤ 2 ^ 50 ∨
             ((GetSize w).2 - 150) * Width pb ≤ 2 ^ 50 →
             - Height pb ≤ destWidth * Height pb - destHeight * Width pb ≤ Width pb)).
  { intros Hhigh. apply (Float64Facts.dest_fits _ (GetSize w).2); [done|lia|done..]. }
  assert (Hlow : (GetSize w).2 < 150 → destWidth ≤ 0 ∧ destHeight ≤ 0).
  { intros Hlw. by apply (Float64Facts.dest_low_window (GetSize w).1 (GetSize w).2
                            (Width pb) (Height pb)). }
  assert (Hrun :
    match ScaleSimple w pb destWidth destHeight with
    | (scaled, None) =>
        ∃ st', updateImage w env st = Ok (st', [Some pb; scaled]) ∧ img st' = scaled
    | (_, Some e) => updateImage w env st = Fatal ("Unable to scale pixbuf:" +:+ e)
    end).
  { unfold in_range in Hr. unfold updateImage.
    destruct (Z.ltb_spec (currentIndex st) 0); [lia|].
    destruct (Z.leb_spec (len (images env)) (currentIndex st)); [lia|].
    cbn [orb]. unfold index.
    destruct (Z.ltb_spec (currentIndex st) 0); [lia|]. rewrite Hl.
    cbn [mbind outcome_bind Go.bind]. rewrite Hd.
    destruct (Z.eqb_spec (Width pb) 0); [lia|].
    destruct (Z.eqb_spec (Height pb) 0); [lia|]. cbn [orb].
    destruct (GetSize w) as [width height]. cbn [fst snd] in Hdest. rewrite Hdest.
    destruct (ScaleSimple w pb destWidth destHeight) as [scaled [e|]]; [done|].
    eexists. split; [reflexivity|].
    destruct (enableText (conf env)); [|done].
    by destruct (caption_frame env (Entries (manifest env)) imagePath
                  (Remove textContainer (Remove drawingArea
                     (SetMarkup "" "" (SetFromPixbuf scaled st))))) as (_ & _ & ->). }
  unfold dest in Hdest. rewrite Float64Facts.textCardHeight_int in Hdest.
  unfold scale in Hdest. injection Hdest as <- <-.
  done.
Qed.

Lemma scaled_image_fits_witness :
  ∃ destWidth destHeight,
    updateImage Sample.world Sample.env initial
      = Ok (Sample.first, [Some Sample.page; Some Sample.page_scaled]) ∧
    ScaleSimple Sample.world Sample.page destWidth destHeight
      = (Some Sample.page_scaled, None) ∧
    0 ≤ destWidth ≤ 1920 ∧
    0 ≤ destHeight ≤ 1080 - 150 ∧
    - 2000 ≤ destWidth * 2000 - destHeight * 3000 ≤ 3000.
Proof.
  destruct (scaled_image_fits Sample.world Sample.env initial "content/a.png"
              Sample.page)
    as (dw & dh & Hw & Hh & _ & Hfit & _).
  - split; [discriminate|reflexivity].
  - reflexivity.
  - reflexivity.
  - split; reflexivity.
  - split; reflexivity.
  - split; [discriminate|reflexivity].
  - split; [discriminate|reflexivity].
  - destruct Hfit as (Hfw & Hfh & Ha); [discriminate|].
    exists dw, dh. split; [vm_compute; reflexivity|].
    split; [rewrite Hw, Hh; vm_compute; reflexivity|].
    split; [exact Hfw|]. split; [exact Hfh|].
    apply Ha. left. discriminate.
Defined.

(** * Further properties of the code *)

Section EnumeratorMore.
Import Enumerator.

Lemma image_files_elem_of tree p :
  p ∈ image_files tree ↔
  ∃ v, v ∈ tree ∧ path v = p ∧ IsDir v = false ∧ Ext p ∈ allowed.
Proof.
  unfold image_files. rewrite list_elem_of_filter, list_elem_of_fmap. split.
  - intros [Hi (v & -> & [Hd Hv]%list_elem_of_filter)].
    exists v. repeat split; try done. unfold is_image in Hi.
    by apply bool_decide_unpack in Hi.
  - intros (v & Hv & <- & Hd & He). split.
    + unfold is_image. by apply bool_decide_pack.
    + exists v. split; [done|]. by apply list_elem_of_filter.
Qed.

Lemma listImages_Permutation tree isRandomOrder rdm images :
  listImages tree isRandomOrder rdm = Ok images → images ≡ₚ image_files tree.
Proof.
  unfold listImages, listImagesAsync.
  destruct (Walk tree []) as [sent [e|]] eqn:Hw; [discriminate|].
  apply Walk_ok in Hw. simpl in Hw. subst sent. rewrite receive_id.
  destruct isRandomOrder.
  - destruct (Shuffle_ok rdm (image_files tree)) as (images' & -> & Hp).
    by intros [= <-].
  - by intros [= <-].
Qed.

(** X1: the list returned by [listImages], shuffled or not, holds every
    file of the walk that is not a directory and has one of the five
    extensions, as many times as the walk visits it, and nothing else. *)
Theorem listImages_lists_every_image_file tree isRandomOrder rdm images :
  listImages tree isRandomOrder rdm = Ok images →
  images ≡ₚ image_files tree ∧
  ∀ p, p ∈ images ↔
       ∃ v, v ∈ tree ∧ path v = p ∧ IsDir v = false ∧
            Ext p ∈ [".jpg"; ".jpeg"; ".png"; ".gif"; ".bmp"].
Proof.
  intros Hp%listImages_Permutation. split; [done|].
  intros p. rewrite Hp. apply image_files_elem_of.
Qed.

Lemma listImages_lists_every_image_file_witness :
  ["content/a.png"; "content/b.jpg"; "content/old.gif/c.bmp"]
    ≡ₚ image_files Sample.tree ∧
  ∀ p, p ∈ ["content/a.png"; "content/b.jpg"; "content/old.gif/c.bmp"] ↔
       ∃ v, v ∈ Sample.tree ∧ path v = p ∧ IsDir v = false ∧
            Ext p ∈ [".jpg"; ".jpeg"; ".png"; ".gif"; ".bmp"].
Proof.
  apply (listImages_lists_every_image_file Sample.tree false Sample.seed).
  vm_compute. reflexivity.
Defined.

Lemma Walk_first_error pre v e post : ∀ sent,
  Forall (λ v, err v = None) pre → err v = Some e →
  (Walk (pre ++ v :: post) sent).2 = Some e.
Proof.
  induction pre as [|u pre IH]; intros sent Hpre Hv; simpl.
  - unfold walkFn. by rewrite Hv.
  - inversion_clear Hpre as [|? ? Hu Hpre'].
    unfold walkFn. rewrite Hu.
    destruct (negb (IsDir u)); [destruct (is_image (path u))|]; by apply IH.
Qed.

(** X2: when the walk meets an error, [listImages] ends the program with
    the message of the first one, whatever was found before it and
    whatever follows; the images found before it are not returned. *)
Theorem listImages_fatal_on_first_error pre v e post isRandomOrder rdm :
  Forall (λ v, err v = None) pre → err v = Some e →
  listImages (pre ++ v :: post) isRandomOrder rdm
    = Fatal ("Error listing images: " +:+ e).
Proof.
  intros Hpre Hv. unfold listImages, listImagesAsync.
  pose proof (Walk_first_error pre v e post [] Hpre Hv) as He.
  destruct (Walk _ _) as [sent o]. simpl in He. by subst o.
Qed.

Lemma listImages_fatal_on_first_error_witness :
  listImages Sample.tree_unreadable true Sample.seed
    = Fatal ("Error listing images: " +:+ "permission denied").
Proof.
  apply (listImages_fatal_on_first_error
           [ {| path := "./content"; IsDir := true; err := None |};
             {| path := "content/a.png"; IsDir := false; err := None |} ]
           {| path := "content/b.jpg"; IsDir := false;
              err := Some "permission denied" |}
           "permission denied"
           [ {| path := "content/c.bmp"; IsDir := false; err := None |} ]).
  - repeat constructor.
  - reflexivity.
Defined.

End EnumeratorMore.

Lemma updateImage_empty w env st :
  images env = [] → updateImage w env st = Panic "index out of range".
Proof.
  intros He. unfold updateImage.
  set (st0 := if (currentIndex st <? 0) || (len (images env) <=? currentIndex st)
              then set_currentIndex 0 st else st). clearbody st0.
  unfold index. rewrite He.
  destruct (currentIndex st0 <? 0); [done|]. by rewrite lookup_nil.
Qed.

(** X3: when the configuration, the colour and the manifest load, the
    toolkit builds its widgets and the content directory holds no image,
    [main] ends with an index-out-of-range panic in its first
    [updateImage], before the main loop. *)
Theorem main_panics_without_images w config m :
  loadConfig w "config.yaml" = (Some config, None) →
  hexToRGB w (fillColor (settings (UintSize w) config)) = None →
  loadManifest w (manifestPath (settings (UintSize w) config)) = (Some m, None) →
  toolkit_ok w →
  Enumerator.listImages (Tree w (contentDirectory (settings (UintSize w) config)))
    (IsRandomOrder config) (Seed w) = Ok [] →
  main w = Panic "index out of range".
Proof.
  intros Hc Hh Hm (H1 & H2 & H3 & H4 & H5 & H6 & H7 & H8 & H9) Hl.
  unfold main, must. rewrite Hc, Hh, Hm, H1, H2, H3, H4, H5, H6, H7, H8, H9, Hl.
  cbn [mbind outcome_bind Go.bind]. unfold refresh.
  by rewrite updateImage_empty.
Qed.

Lemma main_panics_without_images_witness :
  main Sample.world_empty = Panic "index out of range".
Proof.
  apply (main_panics_without_images Sample.world_empty Sample.config Sample.captions);
    try reflexivity.
  repeat split.
Defined.

(** X4: on a list that is not empty [updateImage] never panics (on an
    empty one it does, see above);
    when it returns, the index is within the list: unchanged if it was,
    0 if it was not. *)
Theorem updateImage_resets_index w env st :
  images env ≠ [] →
  (∀ msg, updateImage w env st ≠ Panic msg) ∧
  (∀ st' c, updateImage w env st = Ok (st', c) →
            in_range env st' ∧
            currentIndex st' = if bool_decide (in_range env st) then currentIndex st else 0).
Proof.
  intros Hne. split.
  - intros msg. unfold updateImage.
    set (st0 := if (currentIndex st <? 0) || (len (images env) <=? currentIndex st)
                then set_currentIndex 0 st else st).
    assert (Hr : 0 ≤ currentIndex st0 < len (images env)).
    { subst st0. unfold len. destruct (images env) as [|p l]; [done|]. simpl length.
      destruct (Z.ltb_spec (currentIndex st) 0); simpl; [lia|].
      destruct (Z.leb_spec (Z.of_nat (S (length l))) (currentIndex st)); simpl; lia. }
    clearbody st0. unfold index.
    destruct (Z.ltb_spec (currentIndex st0) 0); [lia|].
    destruct (images env !! Z.to_nat (currentIndex st0)) as [imagePath|] eqn:Hl.
    + cbn [mbind outcome_bind Go.bind]. by repeat case_match.
    + apply lookup_ge_None in Hl. unfold len in Hr. lia.
  - intros st' c (_ & Hi & Hr)%updateImage_frame. split; [done|]. rewrite Hi.
    unfold in_range. case_bool_decide as Hd;
      destruct (Z.ltb_spec (currentIndex st) 0);
      destruct (Z.leb_spec (len (images env)) (currentIndex st)); simpl; lia.
Qed.

Lemma updateImage_resets_index_witness :
  (∀ msg, updateImage Sample.world Sample.env (set_currentIndex 7 initial) ≠ Panic msg) ∧
  (∀ st' c, updateImage Sample.world Sample.env (set_currentIndex 7 initial) = Ok (st', c) →
            in_range Sample.env st' ∧
            currentIndex st' =
              if bool_decide (in_range Sample.env (set_currentIndex 7 initial))
              then currentIndex (set_currentIndex 7 initial) else 0).
Proof.
  apply (updateImage_resets_index Sample.world Sample.env (set_currentIndex 7 initial)).
  simpl. discriminate.
Defined.

Lemma refresh_unusable w env st imagePath :
  in_range env st →
  images env !! Z.to_nat (currentIndex st) = Some imagePath →
  unusable w imagePath →
  refresh w env st = Ok st.
Proof.
  intros Hr Hl Hu. unfold in_range in Hr. unfold refresh, updateImage.
  destruct (currentIndex st <? 0) eqn:?; [lia|].
  destruct (len (images env) <=? currentIndex st) eqn:?; [lia|]. simpl.
  unfold index. destruct (currentIndex st <? 0) eqn:?; [lia|]. rewrite Hl.
  cbn [mbind outcome_bind Go.bind].
  destruct Hu as [->|(pb & -> & Hz)]; [done|].
  replace ((Width pb =? 0) || (Height pb =? 0)) with true; [done|].
  symmetry. apply orb_true_iff. rewrite !Z.eqb_eq. done.
Qed.

(** X5: when the next image decodes without an error to no pixbuf, or to
    one without width or height, a mouse click, a right-arrow key press
    and a timeout return with the index moved to that image and everything
    drawn left as it was: the picture and the caption of the image before
    stay on screen. *)
Theorem unusable_image_keeps_display w env st imagePath :
  in_range env st →
  images env !! Z.to_nat ((currentIndex st + 1) mod len (images env)) = Some imagePath →
  unusable w imagePath →
  handle w env ButtonPress st
    = Ok (set_currentIndex ((currentIndex st + 1) mod len (images env)) st) ∧
  handle w env (KeyPress KEY_Right) st
    = Ok (set_currentIndex ((currentIndex st + 1) mod len (images env)) st) ∧
  handle w env Timeout st
    = Ok (set_timer None
            (set_currentIndex ((currentIndex st + 1) mod len (images env)) st)).
Proof.
  intros Hr Hl Hu.
  assert (Hre : refresh w env
                  (set_currentIndex ((currentIndex st + 1) mod len (images env)) st)
                = Ok (set_currentIndex ((currentIndex st + 1) mod len (images env)) st)).
  { apply (refresh_unusable w env _ imagePath); [|done|done].
    unfold in_range in *. simpl. apply Z.mod_pos_bound. lia. }
  simpl. unfold onButtonPress, onKeyPress, onTimeout.
  rewrite turn_spec, next_spec by done. simpl. cbn [mbind outcome_bind Go.bind].
  by rewrite Hre.
Qed.

Lemma unusable_image_keeps_display_witness :
  handle Sample.world_blank Sample.env ButtonPress Sample.first
    = Ok (set_currentIndex 1 Sample.first) ∧
  handle Sample.world_blank Sample.env (KeyPress KEY_Right) Sample.first
    = Ok (set_currentIndex 1 Sample.first) ∧
  handle Sample.world_blank Sample.env Timeout Sample.first
    = Ok (set_timer None (set_currentIndex 1 Sample.first)).
Proof.
  apply (unusable_image_keeps_display Sample.world_blank Sample.env Sample.first
           "content/b.jpg").
  - split; [discriminate|reflexivity].
  - reflexivity.
  - right. eexists. split; [reflexivity|]. left. reflexivity.
Defined.

(** Removing the band and the box of the labels empties the overlay. *)
Lemma Remove_both ws :
  filter (λ y, y ≠ textContainer) (filter (λ y, y ≠ drawingArea) ws) = [].
Proof.
  induction ws as [|x ws IH]; [done|].
  rewrite filter_cons. destruct (decide (x ≠ drawingArea)) as [Hx|Hx]; [|done].
  rewrite filter_cons. destruct (decide (x ≠ textContainer)) as [Hy|Hy]; [|done].
  by destruct x.
Qed.

Lemma caption_first entries imagePath env st :
  match list_find (λ entry, ImagePath entry = imagePath) entries with
  | Some (_, entry) =>
      titleLabel (caption env entries imagePath st)
        = span (textColor (conf env)) "24" (Title entry) ∧
      descLabel (caption env entries imagePath st)
        = span (textColor (conf env)) "20" (Description entry) ∧
      overlay (caption env entries imagePath st)
        = overlay st ++ [drawingArea; textContainer]
  | None => caption env entries imagePath st = st
  end.
Proof.
  induction entries as [|entry entries IH]; [done|].
  cbn [caption list_find]. 
  destruct (decide (ImagePath entry = imagePath)) as [He|He].
  - rewrite (bool_decide_eq_true_2 _ He). simpl. by rewrite <- app_assoc.
  - rewrite (bool_decide_eq_false_2 _ He).
    destruct (list_find _ entries) as [[i e]|]; simpl; done.
Qed.

(** X6: with captions enabled, an [updateImage] that draws its image shows
    the title and the description of the first manifest entry whose image
    path is the path of that image, coloured with the text colour and in
    sizes 24 and 20, over the band; when no entry has that path the two
    labels are empty and neither the band nor the labels are on the
    overlay. *)
Theorem caption_is_first_matching_entry w env st st' pixbuf scaled :
  enableText (conf env) = true →
  updateImage w env st = Ok (st', [pixbuf; scaled]) →
  ∃ imagePath,
    images env !! Z.to_nat (currentIndex st') = Some imagePath ∧
    match list_find (λ entry, ImagePath entry = imagePath) (Entries (manifest env)) with
    | Some (_, entry) =>
        titleLabel st' = span (textColor (conf env)) "24" (Title entry) ∧
        descLabel st' = span (textColor (conf env)) "20" (Description entry) ∧
        overlay st' = [drawingArea; textContainer]
    | None =>
        titleLabel st' = "" ∧ descLabel st' = "" ∧ overlay st' = []
    end.
Proof.
  intros Hyes. unfold updateImage. rewrite Hyes. intros H.
  set (st0 := if (currentIndex st <? 0) || (len (images env) <=? currentIndex st)
              then set_currentIndex 0 st else st) in *. clearbody st0.
  destruct (index (images env) (currentIndex st0)) as [imagePath| |] eqn:Hidx;
    cbn [mbind outcome_bind Go.bind] in H; try discriminate.
  exists imagePath.
  assert (Hl : images env !! Z.to_nat (currentIndex st0) = Some imagePath).
  { unfold index in Hidx. repeat case_match; by simplify_eq. }
  repeat case_match; simplify_eq.
  all: match goal with
       | |- context [caption ?e ?l ?p ?s] =>
           pose proof (caption_first l p e s) as Hc;
           destruct (caption_frame e l p s) as (Hi & _ & _)
       end.
  all: rewrite Hi; split; [done|].
  all: match goal with
       | H : list_find _ _ = _ |- _ => rewrite H in Hc
       end.
  - destruct Hc as (-> & -> & ->). repeat split.
    simpl. by rewrite Remove_both.
  - rewrite Hc. simpl. repeat split. apply Remove_both.
Qed.

Lemma caption_is_first_matching_entry_witness :
  ∃ imagePath,
    images Sample.env !! Z.to_nat (currentIndex Sample.first) = Some imagePath ∧
    match list_find (λ entry, ImagePath entry = imagePath)
                    (Entries (manifest Sample.env)) with
    | Some (_, entry) =>
        titleLabel Sample.first = span (textColor (conf Sample.env)) "24" (Title entry) ∧
        descLabel Sample.first
          = span (textColor (conf Sample.env)) "20" (Description entry) ∧
        overlay Sample.first = [drawingArea; textContainer]
    | None =>
        titleLabel Sample.first = "" ∧ descLabel Sample.first = "" ∧
        overlay Sample.first = []
    end.
Proof.
  apply (caption_is_first_matching_entry Sample.world Sample.env initial Sample.first
           (Some Sample.page) (Some Sample.page_scaled)).
  - reflexivity.
  - vm_compute. reflexivity.
Defined.

(** The index after and before the current one, around the list. *)
Lemma forward_backward n i :
  0 ≤ i < n →
  (let j := (i + 1) mod n in if j =? 0 then n - 1 else j - 1) = i ∧
  ((if i =? 0 then n - 1 else i - 1) + 1) mod n = i.
Proof.
  intros Hi. split.
  - cbv zeta. destruct (Z.eq_dec (i + 1) n) as [Hd|Hd].
    + rewrite Hd, Z.mod_same by lia. simpl. lia.
    + rewrite Z.mod_small by lia. destruct (Z.eqb_spec (i + 1) 0); lia.
  - destruct (Z.eqb_spec i 0) as [->|He].
    + replace (n - 1 + 1) with n by lia. by rewrite Z.mod_same by lia.
    + replace (i - 1 + 1) with i by lia. by rewrite Z.mod_small by lia.
Qed.

(** X7: a left-arrow key press undoes a right-arrow or space key press, and
    the other way round: after the two key presses the index is what it
    was before them. *)
Theorem left_undoes_right w env k1 k2 st st1 st2 :
  in_range env st →
  (k1, k2) ∈ [(KEY_Right, KEY_Left); (KEY_space, KEY_Left);
              (KEY_Left, KEY_Right); (KEY_Left, KEY_space)] →
  handle w env (KeyPress k1) st = Ok st1 →
  handle w env (KeyPress k2) st1 = Ok st2 →
  currentIndex st2 = currentIndex st.
Proof.
  intros Hr Hk H1 H2.
  pose proof (handle_frame _ _ _ _ _ H1) as [Hr1 _].
  apply handle_index in H1; [|done]. apply handle_index in H2; [|done].
  rewrite H2, H1.
  destruct (forward_backward (len (images env)) (currentIndex st) Hr) as [Hfb Hbf].
  repeat (apply elem_of_cons in Hk as [[= -> ->]|Hk]; [done|]).
  by apply elem_of_nil in Hk.
Qed.

Lemma left_undoes_right_witness :
  handle Sample.world Sample.env (KeyPress KEY_Right) Sample.first = Ok Sample.second ∧
  handle Sample.world Sample.env (KeyPress KEY_Left) Sample.second = Ok Sample.first ∧
  currentIndex Sample.first = currentIndex Sample.first.
Proof.
  assert (H1 : handle Sample.world Sample.env (KeyPress KEY_Right) Sample.first
               = Ok Sample.second) by (vm_compute; reflexivity).
  assert (H2 : handle Sample.world Sample.env (KeyPress KEY_Left) Sample.second
               = Ok Sample.first) by (vm_compute; reflexivity).
  split; [exact H1|]. split; [exact H2|].
  apply (left_undoes_right Sample.world Sample.env KEY_Right KEY_Left
           Sample.first Sample.second Sample.first).
  - split; [discriminate|reflexivity].
  - left.
  - exact H1.
  - exact H2.
Defined.

(** X8: every event that moves forward (a timeout, a mouse click, a
    right-arrow or space key press) advances the index by one around the
    list, so a run of [k] of them advances it by [k] modulo the number of
    images, and a run of as many as there are images comes back to the
    index it started from. *)
Theorem forward_events_go_round w env evs st st' :
  in_range env st →
  Forall (λ ev, ev ∈ [Timeout; ButtonPress; KeyPress KEY_Right; KeyPress KEY_space]) evs →
  steps w env st evs st' →
  currentIndex st' = (currentIndex st + len evs) mod len (images env) ∧
  (length evs = length (images env) → currentIndex st' = currentIndex st).
Proof.
  intros Hr Hf Hs.
  assert (Hi : currentIndex st' = (currentIndex st + len evs) mod len (images env)).
  { clear -Hr Hf Hs.
    induction Hs as [st|st ev st1 evs st2 H1 H2 IH].
    - unfold in_range, len in *. simpl. rewrite Z.add_0_r, Z.mod_small; lia.
    - apply Forall_cons in Hf as [Hev Hf].
      apply step_handle in H1.
      pose proof (handle_frame _ _ _ _ _ H1) as [Hr1 _].
      apply handle_index in H1; [|done].
      rewrite (IH Hr1 Hf), H1.
      assert (target ev (len (images env)) (currentIndex st)
              = (currentIndex st + 1) mod len (images env)) as ->.
      { repeat (apply elem_of_cons in Hev as [->|Hev]; [done|]).
        by apply elem_of_nil in Hev. }
      unfold in_range, len in *. rewrite Zplus_mod_idemp_l. f_equal.
      rewrite length_cons. lia. }
  split; [done|]. intros Hl. rewrite Hi. unfold in_range, len in *. rewrite Hl.
  rewrite <- (Z.mul_1_l (Z.of_nat (length (images env)))) at 1.
  rewrite Z.mod_add by lia. rewrite Z.mod_small; lia.
Qed.

Lemma forward_events_go_round_witness :
  steps Sample.world Sample.env Sample.armed
    [ButtonPress; KeyPress KEY_Right; Timeout] Sample.first ∧
  currentIndex Sample.first = (currentIndex Sample.armed + 3) mod 3 ∧
  (3%nat = 3%nat → currentIndex Sample.first = currentIndex Sample.armed).
Proof.
  assert (Hs : steps Sample.world Sample.env Sample.armed
                 [ButtonPress; KeyPress KEY_Right; Timeout] Sample.first).
  { eapply steps_cons; [apply step_button; vm_compute; reflexivity|].
    eapply steps_cons; [apply step_key; vm_compute; reflexivity|].
    eapply steps_cons;
      [eapply step_timeout; [reflexivity|vm_compute; reflexivity]|].
    apply steps_nil. }
  split; [exact Hs|].
  apply (forward_events_go_round Sample.world Sample.env
           [ButtonPress; KeyPress KEY_Right; Timeout] Sample.armed Sample.first).
  - split; [discriminate|reflexivity].
  - repeat constructor.
  - exact Hs.
Defined.

Lemma filter_Timeout_nil (evs : list Event) :
  Timeout ∉ evs → filter (λ ev, ev = Timeout) evs = [].
Proof.
  induction evs as [|e evs IH]; [done|].
  intros [Hne Hno]%not_elem_of_cons.
  rewrite filter_cons, decide_False by done. by apply IH.
Qed.

Lemma steps_timer w env st evs st' :
  steps w env st evs st' →
  timer st' = if bool_decide (Timeout ∈ evs) then None else timer st.
Proof.
  intros Hs. induction Hs as [|st ev st1 evs st2 H1 H2 IH].
  - rewrite bool_decide_eq_false_2; [done|]. apply not_elem_of_nil.
  - apply step_handle, handle_frame in H1 as [_ Ht]. rewrite IH, Ht.
    destruct (decide (ev = Timeout)) as [->|Hne].
    + rewrite (bool_decide_eq_true_2 (Timeout ∈ Timeout :: evs)) by by left.
      by case_bool_decide.
    + assert (bool_decide (Timeout ∈ ev :: evs) = bool_decide (Timeout ∈ evs)) as ->.
      { apply bool_decide_ext. rewrite elem_of_cons.
        split; [by intros [?|?]|by right]. }
      by destruct ev.
Qed.

(** X9: [main] enters the main loop with one timeout armed, for the slide
    interval of the settings; in every run of the main loop it fires at
    most once, and once it has fired no timeout is armed again: the
    slideshow advances by itself once, then only on keys and clicks. *)
Theorem slideshow_advances_by_itself_once w env st0 evs st :
  main w = Ok (env, st0) → steps w env st0 evs st →
  timer st0 = Some (slideInterval (conf env)) ∧
  (length (filter (λ ev, ev = Timeout) evs) ≤ 1)%nat ∧
  timer st = if bool_decide (Timeout ∈ evs) then None
             else Some (slideInterval (conf env)).
Proof.
  intros Hm Hs.
  assert (Ht0 : timer st0 = Some (slideInterval (conf env))).
  { apply main_Ok in Hm as (config & m & imgs & _ & _ & _ & _ & Hr).
    by apply refresh_frame in Hr as (-> & _ & _). }
  split; [done|]. split; [|by rewrite (steps_timer _ _ _ _ _ Hs), Ht0].
  clear Hm Ht0. induction Hs as [|st ev st1 evs st2 H1 H2 IH]; [simpl; lia|].
  rewrite filter_cons. destruct (decide (ev = Timeout)) as [->|Hne]; [|done].
  apply step_handle, handle_frame in H1 as [_ Ht].
  destruct (steps_unarmed w env st1 evs st2 Ht H2) as [_ Hno].
  rewrite (filter_Timeout_nil evs Hno). simpl. lia.
Qed.

Lemma slideshow_advances_by_itself_once_witness :
  timer Sample.armed = Some (slideInterval (conf Sample.env)) ∧
  (length (filter (λ ev, ev = Timeout) [ButtonPress; KeyPress KEY_Right; Timeout]) ≤ 1)%nat ∧
  timer Sample.first =
    if bool_decide (Timeout ∈ [ButtonPress; KeyPress KEY_Right; Timeout]) then None
    else Some (slideInterval (conf Sample.env)).
Proof.
  apply (slideshow_advances_by_itself_once Sample.world Sample.env Sample.armed
           [ButtonPress; KeyPress KEY_Right; Timeout] Sample.first).
  - vm_compute. reflexivity.
  - eapply steps_cons; [apply step_button; vm_compute; reflexivity|].
    eapply steps_cons; [apply step_key; vm_compute; reflexivity|].
    eapply steps_cons;
      [eapply step_timeout; [reflexivity|vm_compute; reflexivity]|].
    apply steps_nil.
Defined.

Lemma updateImage_no_text w env st st' c :
  enableText (conf env) = false →
  updateImage w env st = Ok (st', c) →
  overlay st' = overlay st ∧ titleLabel st' = titleLabel st ∧ descLabel st' = descLabel st.
Proof.
  intros Hno. unfold updateImage. rewrite Hno. intros H.
  set (st0 := if (currentIndex st <? 0) || (len (images env) <=? currentIndex st)
              then set_currentIndex 0 st else st) in *.
  assert (overlay st0 = overlay st ∧ titleLabel st0 = titleLabel st ∧
          descLabel st0 = descLabel st) as (<- & <- & <-)
    by (subst st0; by destruct (_ || _)).
  clearbody st0.
  destruct (index _ _); cbn [mbind outcome_bind Go.bind] in H; try discriminate.
  repeat case_match; by simplify_eq.
Qed.

Lemma handle_no_text w env ev st st' :
  enableText (conf env) = false →
  handle w env ev st = Ok st' →
  overlay st' = overlay st ∧ titleLabel st' = titleLabel st ∧ descLabel st' = descLabel st.
Proof.
  intros Hno.
  assert (Hre : ∀ st1 st2, refresh w env st1 = Ok st2 →
            overlay st2 = overlay st1 ∧ titleLabel st2 = titleLabel st1 ∧
            descLabel st2 = descLabel st1).
  { unfold refresh. intros st1 st2 H.
    destruct (updateImage w env st1) as [[st3 c]| |] eqn:Hu; try discriminate.
    apply updateImage_no_text in Hu; [|done]. simpl in H.
    destruct (call c); simpl in H; by simplify_eq. }
  assert (Hnx : ∀ st1 st2, next env st1 = Ok st2 →
            overlay st2 = overlay st1 ∧ titleLabel st2 = titleLabel st1 ∧
            descLabel st2 = descLabel st1).
  { unfold next. intros st1 st2 H. by destruct (rem _ _); simplify_eq/=. }
  destruct ev as [|keyval|]; simpl.
  - unfold onTimeout. intros H.
    destruct (next env st) as [st1| |] eqn:H1; try discriminate.
    cbn [mbind outcome_bind Go.bind] in H.
    destruct (refresh w env st1) as [st2| |] eqn:H2; try discriminate.
    injection H as <-. simpl.
    destruct (Hre _ _ H2) as (-> & -> & ->). by apply Hnx.
  - unfold onKeyPress. intros H.
    destruct (turn env keyval st) as [st1| |] eqn:H1; try discriminate.
    cbn [mbind outcome_bind Go.bind] in H.
    destruct (Hre _ _ H) as (-> & -> & ->).
    unfold turn in H1. repeat case_match; simplify_eq; try done. by apply Hnx.
  - unfold onButtonPress. intros H.
    destruct (next env st) as [st1| |] eqn:H1; try discriminate.
    cbn [mbind outcome_bind Go.bind] in H.
    destruct (Hre _ _ H) as (-> & -> & ->). by apply Hnx.
Qed.

(** X10: with [enable_text: false] the overlay built by [main] is never
    changed: in every state of the main loop the caption band and the box
    of the labels are on it and both labels are empty, so an empty band
    covers the bottom of every image. *)
Theorem empty_band_when_text_disabled w env st0 evs st :
  main w = Ok (env, st0) → enableText (conf env) = false →
  steps w env st0 evs st →
  overlay st = [drawingArea; textContainer] ∧ titleLabel st = "" ∧ descLabel st = "".
Proof.
  intros (config & m & imgs & _ & _ & _ & _ & Hr)%main_Ok Hno Hs.
  assert (H0 : overlay st0 = [drawingArea; textContainer] ∧ titleLabel st0 = "" ∧
               descLabel st0 = "").
  { unfold refresh in Hr.
    destruct (updateImage w env _) as [[st1 c]| |] eqn:Hu; try discriminate.
    apply updateImage_no_text in Hu; [|done].
    simpl in Hr. destruct (call c); simpl in Hr; by simplify_eq. }
  clear Hr. induction Hs as [|st ev st1 evs st2 H1 _ IH]; [done|].
  apply IH. apply step_handle, handle_no_text in H1 as (-> & -> & ->); done.
Qed.

Lemma empty_band_when_text_disabled_witness :
  ∃ env st0 st,
    main Sample.world_no_text = Ok (env, st0) ∧
    steps Sample.world_no_text env st0 [ButtonPress] st ∧
    overlay st = [drawingArea; textContainer] ∧ titleLabel st = "" ∧ descLabel st = "".
Proof.
  eexists _, _, _.
  split; [vm_compute; reflexivity|].
  split; [eapply steps_cons; [apply step_button; vm_compute; reflexivity|apply steps_nil]|].
  eapply (empty_band_when_text_disabled Sample.world_no_text _ _ [ButtonPress] _).
  - vm_compute. reflexivity.
  - reflexivity.
  - eapply steps_cons; [apply step_button; vm_compute; reflexivity|apply steps_nil].
Defined.

(** X11: whatever the configuration holds, no setting is empty: the four
    strings are not empty and the slide interval, also after a product
    that wrapped around, is a positive [uint], so the timeout is never
    armed for 0 ms. *)
Theorem settings_never_empty bits config :
  15 ≤ bits →
  contentDirectory (settings bits config) ≠ "" ∧
  fillColor (settings bits config) ≠ "" ∧
  textColor (settings bits config) ≠ "" ∧
  manifestPath (settings bits config) ≠ "" ∧
  0 < slideInterval (settings bits config) < 2 ^ bits.
Proof.
  intros Hb. simpl. repeat split; try (case_bool_decide; done).
  - unfold uint_mul. destruct (Z.eqb_spec ((SlideInterval config * 1000) mod 2 ^ bits) 0);
      [lia|].
    pose proof (Z.mod_pos_bound (SlideInterval config * 1000) (2 ^ bits)
                  ltac:(apply Z.pow_pos_nonneg; lia)). lia.
  - unfold uint_mul.
    pose proof (Z.mod_pos_bound (SlideInterval config * 1000) (2 ^ bits)
                  ltac:(apply Z.pow_pos_nonneg; lia)).
    assert (2 ^ 15 ≤ 2 ^ bits) by (apply Z.pow_le_mono_r; lia).
    change (2 ^ 15) with 32768 in *.
    destruct (Z.eqb_spec ((SlideInterval config * 1000) mod 2 ^ bits) 0); lia.
Qed.

Lemma settings_never_empty_witness :
  contentDirectory (settings 64 Sample.config_long) ≠ "" ∧
  fillColor (settings 64 Sample.config_long) ≠ "" ∧
  textColor (settings 64 Sample.config_long) ≠ "" ∧
  manifestPath (settings 64 Sample.config_long) ≠ "" ∧
  0 < slideInterval (settings 64 Sample.config_long) < 2 ^ 64.
Proof.
  apply (settings_never_empty 64 Sample.config_long). discriminate.
Defined.

Lemma handle_total w env ev st :
  (∀ imagePath, imagePath ∈ images env → displays w imagePath) →
  in_range env st →
  ∃ st', handle w env ev st = Ok st'.
Proof.
  intros Hall Hr.
  pose proof (target_in_range ev (len (images env)) (currentIndex st) Hr) as Htg.
  destruct (lookup_lt_is_Some_2 (images env)
              (Z.to_nat (target ev (len (images env)) (currentIndex st))))
    as [imagePath Hl]; [unfold len in *; lia|].
  assert (Hd : displays w imagePath).
  { apply Hall. by eapply list_elem_of_lookup_2. }
  assert (Hgo : ∀ st1, currentIndex st1 = target ev (len (images env)) (currentIndex st) →
                       ∃ st', refresh w env st1 = Ok st').
  { intros st1 H1. apply (refresh_total w env st1 imagePath); unfold in_range;
      by rewrite ?H1. }
  destruct ev as [|keyval|]; simpl.
  - unfold onTimeout. rewrite next_spec by done. cbn [mbind outcome_bind Go.bind].
    destruct (Hgo (set_currentIndex ((currentIndex st + 1) mod len (images env)) st))
      as [st' ->]; [done|]. by eexists.
  - unfold onKeyPress. rewrite turn_spec by done. cbn [mbind outcome_bind Go.bind].
    apply Hgo. unfold target. by repeat case_match.
  - unfold onButtonPress. rewrite next_spec by done. cbn [mbind outcome_bind Go.bind].
    by apply Hgo.
Qed.

Lemma steps_total w env evs : ∀ st,
  (∀ imagePath, imagePath ∈ images env → displays w imagePath) →
  in_range env st →
  (length (filter (λ ev, ev = Timeout) evs) ≤ if timer st is Some _ then 1 else 0)%nat →
  ∃ st', steps w env st evs st'.
Proof.
  induction evs as [|ev evs IH]; intros st Hall Hr Hc.
  - eexists. constructor.
  - destruct (handle_total w env ev st Hall Hr) as [st1 H1].
    destruct (handle_frame w env ev st st1 H1) as [Hr1 Ht1].
    rewrite filter_cons in Hc.
    assert (Hstep : step w env st ev st1).
    { destruct ev as [|keyval|]; simpl in H1.
      - destruct (timer st) as [ms|] eqn:Ht.
        + by econstructor.
        + rewrite decide_True in Hc by done. simpl in Hc. lia.
      - by constructor.
      - by constructor. }
    destruct (IH st1 Hall Hr1) as [st2 H2].
    { rewrite Ht1. destruct (decide (ev = Timeout)) as [->|Hne].
      - simpl in Hc. destruct (timer st); lia.
      - by destruct ev. }
    exists st2. by econstructor.
Qed.

(** X12: once [main] has entered the main loop, and when every image of
    the list decodes with a size and can be scaled, no handler ends the
    program: every sequence of key presses and mouse clicks, with the one
    timeout anywhere in it, is handled to its end, the index staying
    within the list. *)
Theorem slideshow_keeps_running w env st0 evs :
  main w = Ok (env, st0) →
  (∀ imagePath, imagePath ∈ images env → displays w imagePath) →
  (length (filter (λ ev, ev = Timeout) evs) ≤ 1)%nat →
  ∃ st, steps w env st0 evs st ∧ in_range env st.
Proof.
  intros Hm Hall Hc.
  destruct (main_index_in_range w env st0 [] st0 Hm) as [_ Hr]; [constructor|].
  assert (Ht0 : timer st0 = Some (slideInterval (conf env))).
  { apply main_Ok in Hm as (config & m & imgs & _ & _ & _ & _ & Hre).
    by apply refresh_frame in Hre as (-> & _ & _). }
  destruct (steps_total w env evs st0 Hall Hr) as [st Hs]; [by rewrite Ht0|].
  exists st. split; [done|]. by eapply steps_in_range.
Qed.

Lemma slideshow_keeps_running_witness :
  ∃ st, steps Sample.world Sample.env Sample.armed
          [ButtonPress; Timeout; KeyPress KEY_Left] st ∧
        in_range Sample.env st.
Proof.
  apply (slideshow_keeps_running Sample.world Sample.env Sample.armed
           [ButtonPress; Timeout; KeyPress KEY_Left]).
  - vm_compute. reflexivity.
  - intros imagePath _. eexists _, _. split; [reflexivity|].
    split; [discriminate|]. split; [discriminate|]. vm_compute. reflexivity.
  - vm_compute. lia.
Defined.

Lemma refresh_shows w env st st' imagePath pb :
  in_range env st →
  refresh w env st = Ok st' →
  images env !! Z.to_nat (currentIndex st) = Some imagePath →
  PixbufNewFromFile w imagePath = (Some pb, None) →
  Width pb ≠ 0%Z → Height pb ≠ 0%Z →
  currentIndex st' = currentIndex st ∧
  ScaleSimple w pb (dest (GetSize w).1 (GetSize w).2 (Width pb) (Height pb)).1
                   (dest (GetSize w).1 (GetSize w).2 (Width pb) (Height pb)).2
    = (img st', None).
Proof.
  intros Hr H Hl Hd Hw Hh. unfold in_range in Hr. unfold refresh, updateImage in H.
  destruct (currentIndex st <? 0) eqn:?; [lia|].
  destruct (len (images env) <=? currentIndex st) eqn:?; [lia|]. cbn [orb] in H.
  unfold index in H. destruct (currentIndex st <? 0) eqn:?; [lia|]. rewrite Hl in H.
  cbn [mbind outcome_bind Go.bind] in H. rewrite Hd in H.
  destruct (Width pb =? 0) eqn:?; [lia|]. destruct (Height pb =? 0) eqn:?; [lia|].
  cbn [orb] in H. destruct (GetSize w) as [width height]. cbn [fst snd].
  destruct (dest width height (Width pb) (Height pb)) as [dw dh] eqn:Hdest.
  cbn [fst snd].
  destruct (ScaleSimple w pb dw dh) as [scaled [e|]] eqn:Hs; [discriminate|].
  cbn [mbind outcome_bind Go.bind call] in H.
  destruct scaled as [sc|]; cbn [mbind outcome_bind Go.bind call] in H; [|discriminate].
  injection H as <-.
  destruct (enableText (conf env)); [|done].
  by destruct (caption_frame env (Entries (manifest env)) imagePath
                (Remove textContainer (Remove drawingArea
                   (SetMarkup "" "" (SetFromPixbuf (Some sc) st))))) as (-> & _ & ->).
Qed.

(** X13: when a handler returns and the image at the new index decodes
    with a width and a height, the picture on screen is that image, scaled
    to the size computed from the window and the original size. *)
Theorem displayed_image_follows_index w env ev st st' imagePath pb :
  in_range env st →
  handle w env ev st = Ok st' →
  images env !! Z.to_nat (currentIndex st') = Some imagePath →
  PixbufNewFromFile w imagePath = (Some pb, None) →
  Width pb ≠ 0%Z → Height pb ≠ 0%Z →
  ScaleSimple w pb (dest (GetSize w).1 (GetSize w).2 (Width pb) (Height pb)).1
                   (dest (GetSize w).1 (GetSize w).2 (Width pb) (Height pb)).2
    = (img st', None).
Proof.
  intros Hr H Hl Hd Hw Hh.
  pose proof (target_in_range ev (len (images env)) (currentIndex st) Hr) as Htg.
  assert (Hgo : ∀ st1 st2, in_range env st1 → refresh w env st1 = Ok st2 →
                  images env !! Z.to_nat (currentIndex st2) = Some imagePath →
                  ScaleSimple w pb
                    (dest (GetSize w).1 (GetSize w).2 (Width pb) (Height pb)).1
                    (dest (GetSize w).1 (GetSize w).2 (Width pb) (Height pb)).2
                  = (img st2, None)).
  { intros st1 st2 Hr1 Hre Hl2.
    destruct (refresh_frame w env st1 st2 Hre) as (_ & Hidx & _).
    assert (Hi : currentIndex st2 = currentIndex st1).
    { rewrite Hidx. unfold in_range in Hr1.
      destruct (Z.ltb_spec (currentIndex st1) 0); [lia|].
      destruct (Z.leb_spec (len (images env)) (currentIndex st1)); [lia|done]. }
    rewrite Hi in Hl2.
    by destruct (refresh_shows w env st1 st2 imagePath pb Hr1 Hre Hl2 Hd Hw Hh). }
  destruct ev as [|keyval|]; simpl in H.
  - unfold onTimeout in H. rewrite next_spec in H by done.
    cbn [mbind outcome_bind Go.bind] in H.
    destruct (refresh w env _) as [st1| |] eqn:Hre; try discriminate.
    cbn [mbind outcome_bind Go.bind] in H. injection H as <-.
    change (img (set_timer None st1)) with (img st1).
    eapply Hgo; [|done|done]. unfold in_range. simpl.
    apply Z.mod_pos_bound. unfold in_range in Hr. lia.
  - unfold onKeyPress in H. rewrite turn_spec in H by done.
    cbn [mbind outcome_bind Go.bind] in H.
    eapply Hgo; [|done|done]. unfold in_range. simpl.
    unfold target in Htg. by repeat case_match.
  - unfold onButtonPress in H. rewrite next_spec in H by done.
    cbn [mbind outcome_bind Go.bind] in H.
    eapply Hgo; [|done|done]. unfold in_range. simpl.
    apply Z.mod_pos_bound. unfold in_range in Hr. lia.
Qed.
Lemma displayed_image_follows_index_witness :
  ScaleSimple Sample.world
    {| file := "content/b.jpg"; Width := 3000; Height := 2000 |}
    (dest 1920 1080 3000 2000).1 (dest 1920 1080 3000 2000).2
  = (img Sample.second, None).
Proof.
  apply (displayed_image_follows_index Sample.world Sample.env ButtonPress
           Sample.first Sample.second "content/b.jpg"
           {| file := "content/b.jpg"; Width := 3000; Height := 2000 |}).
  - split; [discriminate|reflexivity].
  - vm_compute. reflexivity.
  - reflexivity.
  - reflexivity.
  - discriminate.
  - discriminate.
Defined.

Section Fill.
Import Float64 Float64Facts.
Local Open Scope R_scope.

Lemma Min_pick B x y :
  nonneg B x -> nonneg B y -> Min x y = x ∨ Min x y = y.
Proof.
  intros [->|Hx] [->|Hy].
  - by left.
  - destruct y as [| | |[] m2 e2]; try done. by left.
  - destruct x as [| | |[] m1 e1]; try done. by right.
  - destruct x as [| | |[] m1 e1]; try done. destruct y as [| | |[] m2 e2]; try done.
    unfold Min. simpl is_zero. simpl andb. cbv iota.
    destruct (SFltb _ _); [by left|by right].
Qed.

(** The factor is at least (by [eps]) the smaller quotient. *)
Lemma scale_lower W H' OW OH :
  (0 <= W < 2 ^ 31)%Z -> (0 <= H' < 2 ^ 31)%Z ->
  (0 < OW < 2 ^ 31)%Z -> (0 < OH < 2 ^ 31)%Z ->
  IZR W * (1 - eps) <= IZR OW * FR (scale W H' OW OH) ∨
  IZR H' * (1 - eps) <= IZR OH * FR (scale W H' OW OH).
Proof.
  intros HW HH HOW HOH. unfold scale, div, of_int.
  destruct (of_int_exact W ltac:(lia)) as (HnW & _ & HvW).
  destruct (of_int_exact H' ltac:(lia)) as (HnH & _ & HvH).
  destruct (of_int_exact OW ltac:(lia)) as (_ & HnOW & HvOW).
  destruct (of_int_exact OH ltac:(lia)) as (_ & HnOH & HvOH).
  specialize (HnOW ltac:(lia)). specialize (HnOH ltac:(lia)).
  destruct (div_rel 52 _ _ ltac:(lia) HnW HnOW) as [Hq1 [Hr1 _]].
  destruct (div_rel 52 _ _ ltac:(lia) HnH HnOH) as [Hq2 [Hr2 _]].
  rewrite HvW, HvOW in Hr1. rewrite HvH, HvOH in Hr2.
  assert (0 < IZR OW) by (apply IZR_lt; lia).
  assert (0 < IZR OH) by (apply IZR_lt; lia).
  destruct (Min_pick _ _ _ Hq1 Hq2) as [-> | ->]; [left|right].
  - apply Rle_trans with (IZR OW * (IZR W / IZR OW * (1 - eps))).
    + apply Req_le. field. lra.
    + apply Rmult_le_compat_l; lra.
  - apply Rle_trans with (IZR OH * (IZR H' / IZR OH * (1 - eps))).
    + apply Req_le. field. lra.
    + apply Rmult_le_compat_l; lra.
Qed.

Lemma fills_side n L s :
  (0 < n < 2 ^ 31)%Z -> (0 <= L < 2 ^ 31)%Z -> nonneg 157 s ->
  IZR n * FR s <= IZR L * (1 + eps) ->
  IZR L * (1 - eps) <= IZR n * FR s ->
  (L - 1 <= to_int (mul (of_int n) s))%Z.
Proof.
  intros Hn HL Hs Hup Hlow.
  destruct (side_bound n L s Hn HL Hs Hup) as [_ [Hd _]].
  assert (HLr : 0 <= IZR L <= 2147483647).
  { split; [apply IZR_le; lia|]. apply IZR_le. lia. }
  pose proof eps_val as He.
  assert (Hm : IZR L * (1 - eps) * (1 - eps) <= IZR n * FR s * (1 - eps)).
  { apply Rmult_le_compat_r; [rewrite He; lra|done]. }
  assert (Hlt : IZR (L - 2) < IZR (to_int (mul (of_int n) s))).
  { rewrite minus_IZR. rewrite He in Hm, Hd. lra. }
  apply lt_IZR in Hlt. lia.
Qed.

(** X14: the scaled image is as large as the window allows: its width is
    the width of the window, or its height the height of the window above
    the caption band, up to one pixel, while the other side fits (sizes
    below 2^31, window at least as high as the band). *)
Theorem scaled_image_fills_one_side W H OW OH dw dh :
  (0 <= W < 2 ^ 31)%Z -> (150 <= H < 2 ^ 31)%Z ->
  (0 < OW < 2 ^ 31)%Z -> (0 < OH < 2 ^ 31)%Z ->
  dest W H OW OH = (dw, dh) ->
  (W - 1 <= dw <= W)%Z ∧ (0 <= dh <= H - 150)%Z ∨
  (0 <= dw <= W)%Z ∧ (H - 150 - 1 <= dh <= H - 150)%Z.
Proof.
  intros HW HH HOW HOH Hd.
  destruct (dest_fits W H OW OH dw dh HW HH HOW HOH Hd) as (Hfw & Hfh & _).
  revert Hd. unfold dest. rewrite textCardHeight_int.
  destruct (scale_bound W (H - 150) OW OH) as (Hs & Hb1 & Hb2); [lia..|].
  destruct (scale_lower W (H - 150) OW OH) as [Hl|Hl]; [lia..| |].
  - intros [= <- <-]. left. split; [|done]. split; [|lia].
    apply fills_side; [lia|lia|done..].
  - intros [= <- <-]. right. split; [done|]. split; [|lia].
    apply fills_side; [lia|lia|done..].
Qed.

Lemma scaled_image_fills_one_side_witness :
  (1920 - 1 <= 1395 <= 1920)%Z ∧ (0 <= 930 <= 1080 - 150)%Z ∨
  (0 <= 1395 <= 1920)%Z ∧ (1080 - 150 - 1 <= 930 <= 1080 - 150)%Z.
Proof.
  apply (scaled_image_fills_one_side 1920 1080 3000 2000 1395 930); try lia.
  vm_compute. reflexivity.
Defined.

End Fill.

Section ColourFacts.
Import Float64 Colour.

Lemma bytes_spec c : 0 ≤ c ≤ 255 → c ∈ bytes.
Proof.
  intros Hc. unfold bytes. apply list_elem_of_fmap. exists (Z.to_nat c).
  split; [lia|]. apply elem_of_seq. lia.
Qed.

(** The components of all bytes, compared with 0, with 1 and with each
    other. *)
Lemma channel_table :
  let table := (λ c, (c, channel c)) <$> bytes in
  forallb (λ p, SFleb (S754_zero false) p.2 && SFleb p.2 (of_int 1) &&
                forallb (λ q, Bool.eqb (SFltb p.2 q.2) (p.1 <? q.1)) table)
          table = true.
Proof. vm_compute. reflexivity. Qed.

Lemma channel_table_spec i j :
  0 ≤ i ≤ 255 → 0 ≤ j ≤ 255 →
  SFleb (S754_zero false) (channel i) = true ∧
  SFleb (channel i) (of_int 1) = true ∧
  SFltb (channel i) (channel j) = (i <? j).
Proof.
  intros Hi Hj. pose proof channel_table as Ht. cbv zeta in Ht.
  rewrite forallb_forall in Ht.
  assert (Hin : ∀ c, 0 ≤ c ≤ 255 → In (c, channel c) ((λ c, (c, channel c)) <$> bytes)).
  { intros c Hc. apply list_elem_of_In, list_elem_of_fmap. exists c.
    split; [done|]. by apply bytes_spec. }
  specialize (Ht _ (Hin i Hi)). cbn [fst snd] in Ht.
  apply andb_prop in Ht as [[Hz Ho]%andb_prop Ht].
  rewrite forallb_forall in Ht. specialize (Ht _ (Hin j Hj)). cbn [fst snd] in Ht.
  by apply Bool.eqb_prop in Ht.
Qed.

(** X15: the colour components [hexToRGB] computes from the scanned bytes
    lie between 0 and 1, are 0 for the byte 00 and 1 for the byte ff only,
    and are ordered as the bytes are, so different bytes give different
    components. *)
Theorem colour_components_in_unit_interval c1 c2 :
  0 ≤ c1 ≤ 255 → 0 ≤ c2 ≤ 255 →
  SFleb (S754_zero false) (channel c1) = true ∧
  SFleb (channel c1) (of_int 1) = true ∧
  (channel c1 = S754_zero false ↔ c1 = 0) ∧
  (channel c1 = of_int 1 ↔ c1 = 255) ∧
  (SFltb (channel c1) (channel c2) = true ↔ c1 < c2).
Proof.
  intros H1 H2.
  assert (Hlt : ∀ i j, 0 ≤ i ≤ 255 → 0 ≤ j ≤ 255 →
                  SFltb (channel i) (channel j) = (i <? j)).
  { intros i j Hi Hj. by destruct (channel_table_spec i j Hi Hj) as (_ & _ & ?). }
  destruct (channel_table_spec c1 c2 H1 H2) as (Hz & Ho & _).
  split; [done|]. split; [done|]. split; [|split].
  - split; [|by intros ->].
    intros He. destruct (Z.eq_dec c1 0) as [|Hne]; [done|].
    pose proof (Hlt 0 c1 ltac:(lia) H1) as Hc. rewrite He in Hc.
    destruct (Z.ltb_spec 0 c1); [discriminate|lia].
  - split; [|by intros ->].
    intros He. destruct (Z.eq_dec c1 255) as [|Hne]; [done|].
    pose proof (Hlt c1 255 H1 ltac:(lia)) as Hc. rewrite He in Hc.
    destruct (Z.ltb_spec c1 255); [discriminate|lia].
  - rewrite Hlt by done. apply Z.ltb_lt.
Qed.

Lemma colour_components_in_unit_interval_witness :
  SFleb (S754_zero false) (channel 173) = true ∧
  SFleb (channel 173) (of_int 1) = true ∧
  (channel 173 = S754_zero false ↔ 173 = 0) ∧
  (channel 173 = of_int 1 ↔ 173 = 255) ∧
  (SFltb (channel 173) (channel 216) = true ↔ 173 < 216).
Proof.
  apply (colour_components_in_unit_interval 173 216); lia.
Defined.

End ColourFacts.

(** X16: an image that does not decode makes the handlers panic: when the
    decoder returns an error and no pixbuf for the next image, a mouse
    click, a right-arrow key press and a timeout end with a nil pointer
    dereference, raised by the cleanup that [updateImage] returns. *)
Theorem undecodable_image_panics w env st imagePath e :
  in_range env st →
  images env !! Z.to_nat ((currentIndex st + 1) mod len (images env)) = Some imagePath →
  PixbufNewFromFile w imagePath = (None, Some e) →
  handle w env ButtonPress st = Panic "nil pointer dereference" ∧
  handle w env (KeyPress KEY_Right) st = Panic "nil pointer dereference" ∧
  handle w env Timeout st = Panic "nil pointer dereference".
Proof.
  intros Hr Hl Hd.
  assert (Hre : refresh w env
                  (set_currentIndex ((currentIndex st + 1) mod len (images env)) st)
                = Panic "nil pointer dereference").
  { apply (refresh_decode_error w env _ imagePath e); [|done|done].
    unfold in_range in *. simpl. apply Z.mod_pos_bound. lia. }
  simpl. unfold onButtonPress, onKeyPress, onTimeout.
  rewrite turn_spec, next_spec by done. simpl. cbn [mbind outcome_bind Go.bind].
  by rewrite Hre.
Qed.

Lemma undecodable_image_panics_witness :
  handle Sample.world_bad_image Sample.env ButtonPress Sample.first
    = Panic "nil pointer dereference" ∧
  handle Sample.world_bad_image Sample.env (KeyPress KEY_Right) Sample.first
    = Panic "nil pointer dereference" ∧
  handle Sample.world_bad_image Sample.env Timeout Sample.first
    = Panic "nil pointer dereference".
Proof.
  apply (undecodable_image_panics Sample.world_bad_image Sample.env Sample.first
           "content/b.jpg" "Unrecognized image file format").
  - split; [discriminate|reflexivity].
  - reflexivity.
  - reflexivity.
Defined.

(** * Properties of the previous revision *)

Section PreviousFacts.
Import Previous.

Variable w : World.
Variable env : Env.

Lemma previous_caption_frame entries imagePath st :
  currentIndex (caption env entries imagePath st) = currentIndex st ∧
  img (caption env entries imagePath st) = img st ∧
  timeoutID (caption env entries imagePath st) = timeoutID st ∧
  sources (caption env entries imagePath st) = sources st ∧
  lastID (caption env entries imagePath st) = lastID st.
Proof.
  induction entries as [|entry entries IH]; simpl; [done|].
  by case_bool_decide.
Qed.

Lemma previous_caption_first entries imagePath st :
  match list_find (λ entry, ImagePath entry = imagePath) entries with
  | Some (_, entry) =>
      titleLabel (caption env entries imagePath st)
        = span (textColor (conf env)) "24" (Title entry) ∧
      descLabel (caption env entries imagePath st)
        = span (textColor (conf env)) "20" (Description entry) ∧
      overlay (caption env entries imagePath st)
        = overlay st ++ [drawingArea; textContainer]
  | None => caption env entries imagePath st = st
  end.
Proof.
  induction entries as [|entry entries IH]; [done|].
  cbn [caption list_find].
  destruct (decide (ImagePath entry = imagePath)) as [He|He].
  - rewrite (bool_decide_eq_true_2 _ He). simpl. by rewrite <- app_assoc.
  - rewrite (bool_decide_eq_false_2 _ He).
    destruct (list_find _ entries) as [[i e]|]; simpl; done.
Qed.

(** What an [updateImage] that returns has done: the index is within the
    list, the image at the index is on screen with its caption, and the
    timeout held in [timeoutID] is replaced by a new one. *)
Lemma previous_updateImage_Ok st st' :
  updateImage w env st = Ok st' →
  currentIndex st' =
    (if (currentIndex st <? 0) || (len (images env) <=? currentIndex st)
     then 0 else currentIndex st) ∧
  in_range env st' ∧
  shows w env st' ∧
  lastID st' = lastID st + 1 ∧
  timeoutID st' = lastID st + 1 ∧
  sources st' =
    (if timeoutID st =? 0 then sources st
     else filter (λ s, s.1 ≠ timeoutID st) (sources st))
    ++ [(lastID st + 1, slideInterval (conf env))].
Proof.
  unfold updateImage. intros H.
  set (st0 := if (currentIndex st <? 0) || (len (images env) <=? currentIndex st)
              then set_currentIndex 0 st else st) in *.
  assert (Hi0 : currentIndex st0 =
                if (currentIndex st <? 0) || (len (images env) <=? currentIndex st)
                then 0 else currentIndex st) by (subst st0; by destruct (_ || _)).
  assert (Hfr : timeoutID st0 = timeoutID st ∧ sources st0 = sources st ∧
                lastID st0 = lastID st) by (subst st0; by destruct (_ || _)).
  destruct Hfr as (Ht0 & Hs0 & Hl0). rewrite <- Hi0, <- Ht0, <- Hs0, <- Hl0.
  clear Hi0 Ht0 Hs0 Hl0. clearbody st0.
  destruct (index (images env) (currentIndex st0)) as [imagePath| |] eqn:Hidx;
    cbn [mbind outcome_bind Go.bind] in H; try discriminate.
  assert (Hl : images env !! Z.to_nat (currentIndex st0) = Some imagePath ∧
               0 ≤ currentIndex st0).
  { unfold index in Hidx. destruct (Z.ltb_spec (currentIndex st0) 0); [discriminate|].
    split; [|done]. by destruct (images env !! _); simplify_eq. }
  destruct Hl as [Hl Hnn].
  destruct (PixbufNewFromFile w imagePath) as [[pb|] [e|]] eqn:Hd; try discriminate.
  destruct (GetSize w) as [width height] eqn:Hsz.
  destruct (dest width height (Width pb) (Height pb)) as [dw dh] eqn:Hdest.
  destruct (ScaleSimple w pb dw dh) as [scaled [e|]] eqn:Hs; [discriminate|].
  set (st1 := Remove textContainer (Remove drawingArea
                (SetMarkup "" "" (SetFromPixbuf scaled st0)))) in *.
  set (st2 := if enableText (conf env)
              then caption env (Entries (manifest env)) imagePath st1 else st1) in *.
  assert (Hfr : currentIndex st2 = currentIndex st0 ∧ img st2 = scaled ∧
                timeoutID st2 = timeoutID st0 ∧ sources st2 = sources st0 ∧
                lastID st2 = lastID st0).
  { subst st2. destruct (enableText (conf env)); [|done].
    destruct (previous_caption_frame (Entries (manifest env)) imagePath st1)
      as (-> & -> & -> & -> & ->). done. }
  destruct Hfr as (Hi2 & Hg2 & Ht2 & Hs2 & Hl2).
  assert (Hov : overlay st1 = [] ∧ titleLabel st1 = "" ∧ descLabel st1 = "").
  { subst st1. simpl. by rewrite Remove_both. }
  destruct Hov as (Ho1 & Htl1 & Hdl1).
  assert (Hcap :
    match
      (if enableText (conf env)
       then list_find (λ entry, ImagePath entry = imagePath) (Entries (manifest env))
       else None)
    with
    | Some (_, entry) =>
        titleLabel st2 = span (textColor (conf env)) "24" (Title entry) ∧
        descLabel st2 = span (textColor (conf env)) "20" (Description entry) ∧
        overlay st2 = [drawingArea; textContainer]
    | None => titleLabel st2 = "" ∧ descLabel st2 = "" ∧ overlay st2 = []
    end).
  { subst st2. destruct (enableText (conf env)); [|done].
    pose proof (previous_caption_first (Entries (manifest env)) imagePath st1) as Hc.
    destruct (list_find _ _) as [[i entry]|].
    - destruct Hc as (-> & -> & ->). by rewrite Ho1.
    - by rewrite Hc. }
  clearbody st2. clear st1 Ho1 Htl1 Hdl1.
  assert (Hres : st' = set_timeoutID (lastID st0 + 1)
            (TimeoutAdd (slideInterval (conf env))
               (if timeoutID st2 =? 0 then st2 else SourceRemove (timeoutID st2) st2)).2).
  { unfold TimeoutAdd in *. cbv zeta in H. injection H as <-.
    by destruct (timeoutID st2 =? 0); simpl; rewrite Hl2. }
  clear H. subst st'. rewrite Ht2.
  assert (Hshow : ∀ st3, currentIndex st3 = currentIndex st2 → img st3 = img st2 →
            titleLabel st3 = titleLabel st2 → descLabel st3 = descLabel st2 →
            overlay st3 = overlay st2 → shows w env st3).
  { intros st3 E1 E2 E3 E4 E5. exists imagePath, pb.
    rewrite E1, E2, E3, E4, E5, Hi2, Hg2, Hsz. cbn [fst snd]. rewrite Hdest.
    cbn [fst snd]. done. }
  assert (Hr2 : 0 ≤ currentIndex st2 < len (images env)).
  { rewrite Hi2. split; [done|]. apply lookup_lt_Some in Hl. unfold len. lia. }
  destruct (timeoutID st0 =? 0); simpl;
    (split; [done|]); (split; [exact Hr2|]); (split; [by apply Hshow|]);
    rewrite ?Hs2, ?Hl2; done.
Qed.

Lemma previous_next_spec st :
  in_range env st →
  next env st = Ok (set_currentIndex ((currentIndex st + 1) mod len (images env)) st).
Proof.
  unfold in_range, next, rem. intros Hr.
  destruct (Z.eqb_spec (len (images env)) 0); [lia|].
  cbn [mbind outcome_bind Go.bind]. rewrite Z.rem_mod_nonneg by lia. done.
Qed.

(** Before the update every handler leaves the timeouts as they are. *)
Lemma previous_turn_frame keyval st st1 :
  turn env keyval st = Ok st1 →
  timeoutID st1 = timeoutID st ∧ sources st1 = sources st ∧ lastID st1 = lastID st.
Proof.
  unfold turn, next. intros H.
  destruct (rem _ _); repeat case_match; by simplify_eq/=.
Qed.

Lemma previous_step_armed st ev st' :
  armed env st → step w env st ev st' →
  armed env st' ∧ in_range env st' ∧ shows w env st' ∧ lastID st' = lastID st + 1.
Proof.
  intros (Hs & Ht & Hp) Hstep.
  assert (Hgo : ∀ st1 st2,
            timeoutID st1 = timeoutID st → sources st1 = sources st →
            lastID st1 = lastID st → updateImage w env st1 = Ok st2 →
            in_range env st2 ∧ shows w env st2 ∧ lastID st2 = lastID st + 1 ∧
            timeoutID st2 = lastID st + 1 ∧
            sources st2 = [(lastID st + 1, slideInterval (conf env))]).
  { intros st1 st2 E1 E2 E3 Hu.
    apply previous_updateImage_Ok in Hu as (_ & Hr & Hsh & Hl & Hid & Hso).
    rewrite E1, E2, E3 in *.
    split; [done|]. split; [done|]. split; [done|]. split; [done|].
    rewrite Hso, Hs. destruct (Z.eqb_spec (timeoutID st) 0); [lia|].
    rewrite filter_cons, decide_False; [done|]. simpl. by intros []. }
  assert (Harm : ∀ st2, lastID st2 = lastID st + 1 → timeoutID st2 = lastID st + 1 →
            sources st2 = [(lastID st + 1, slideInterval (conf env))] →
            armed env st2).
  { intros st2 E1 E2 E3. unfold armed. rewrite E1, E2, E3. repeat split. lia. }
  destruct Hstep as [st id interval st' Hin H|st keyval st' H|st st' H].
  - unfold onTimeout in H.
    destruct (next env st) as [st1| |] eqn:Hn; try discriminate.
    cbn [mbind outcome_bind Go.bind] in H.
    destruct (updateImage w env st1) as [st2| |] eqn:Hu; try discriminate.
    cbn [mbind outcome_bind Go.bind] in H. injection H as <-.
    assert (Hf : timeoutID st1 = timeoutID st ∧ sources st1 = sources st ∧
                 lastID st1 = lastID st).
    { unfold next in Hn. destruct (rem _ _); by simplify_eq/=. }
    destruct Hf as (E1 & E2 & E3).
    destruct (Hgo st1 st2 E1 E2 E3 Hu) as (Hr & Hsh & Hl & Hid & Hso).
    rewrite Hs in Hin. apply list_elem_of_singleton in Hin as [= -> ->].
    assert (Hkeep : sources (SourceRemove (timeoutID st) st2)
                    = [(lastID st + 1, slideInterval (conf env))]).
    { simpl. rewrite Hso, filter_cons, decide_True; [done|]. simpl. lia. }
    split; [by apply Harm|]. split; [done|]. split; [|done].
    destruct Hsh as (p & pb & ?). by exists p, pb.
  - unfold onKeyPress in H.
    destruct (turn env keyval st) as [st1| |] eqn:Hn; try discriminate.
    cbn [mbind outcome_bind Go.bind] in H.
    destruct (previous_turn_frame keyval st st1 Hn) as (E1 & E2 & E3).
    destruct (Hgo st1 st' E1 E2 E3 H) as (Hr & Hsh & Hl & Hid & Hso).
    split; [by apply Harm|]. done.
  - unfold onButtonPress in H.
    destruct (next env st) as [st1| |] eqn:Hn; try discriminate.
    cbn [mbind outcome_bind Go.bind] in H.
    assert (Hf : timeoutID st1 = timeoutID st ∧ sources st1 = sources st ∧
                 lastID st1 = lastID st).
    { unfold next in Hn. destruct (rem _ _); by simplify_eq/=. }
    destruct Hf as (E1 & E2 & E3).
    destruct (Hgo st1 st' E1 E2 E3 H) as (Hr & Hsh & Hl & Hid & Hso).
    split; [by apply Harm|]. done.
Qed.

Lemma previous_steps_armed st evs st' :
  armed env st → in_range env st → shows w env st →
  steps w env st evs st' →
  armed env st' ∧ in_range env st' ∧ shows w env st' ∧
  lastID st' = lastID st + len evs.
Proof.
  intros Ha Hr Hsh Hs. induction Hs as [st|st ev st1 evs st2 H1 H2 IH].
  - split; [done|]. split; [done|]. split; [done|]. unfold len. simpl. lia.
  - destruct (previous_step_armed st ev st1 Ha H1) as (Ha1 & Hr1 & Hsh1 & Hl1).
    destruct (IH Ha1 Hr1 Hsh1) as (Ha2 & Hr2 & Hsh2 & Hl2).
    split; [done|]. split; [done|]. split; [done|].
    rewrite Hl2, Hl1. unfold len. rewrite length_cons. lia.
Qed.

(** The two updates of [main]. *)
Lemma previous_start st1 st2 :
  updateImage w env initial = Ok st1 → updateImage w env st1 = Ok st2 →
  armed env st2 ∧ in_range env st2 ∧ shows w env st2 ∧
  lastID st2 = 2 ∧ currentIndex st2 = 0.
Proof.
  intros H1 H2.
  apply previous_updateImage_Ok in H1 as (Hi1 & Hr1 & _ & Hl1 & Ht1 & Hs1).
  apply previous_updateImage_Ok in H2 as (Hi2 & Hr2 & Hsh2 & Hl2 & Ht2 & Hs2).
  simpl in Hi1, Hl1, Ht1, Hs1.
  assert (Hz : currentIndex st1 = 0) by (by destruct (_ <=? _)).
  unfold in_range in Hr1. rewrite Hz in Hr1, Hi2.
  destruct (Z.leb_spec (len (images env)) 0) as [Hle|Hgt]; [lia|].
  simpl in Hi2. rewrite Hl1 in Hl2, Ht2, Hs2. rewrite Ht1, Hs1 in Hs2. simpl in Hs2.
  split; [|done].
  unfold armed. rewrite Hs2, Ht2, Hl2. done.
Qed.

End PreviousFacts.

Lemma previous_main_Ok w env st0 :
  Previous.main w = Ok (env, st0) →
  Previous.armed env st0 ∧ Previous.in_range env st0 ∧ Previous.shows w env st0 ∧
  Previous.lastID st0 = 2 ∧ Previous.currentIndex st0 = 0.
Proof.
  unfold Previous.main, must. intros H.
  destruct (loadConfig w "config.yaml") as [[config|] [e|]] eqn:Hc; try discriminate.
  destruct (hexToRGB w _); try discriminate.
  destruct (loadManifest w _) as [[manifest|] [e|]] eqn:Hm; try discriminate.
  destruct (WindowNew w), (CssProviderNew w), (ScreenGetDefault w),
    (LabelNew_title w), (LabelNew_desc w), (OverlayNew w), (ImageNew w),
    (DrawingAreaNew w), (BoxNew w); try discriminate.
  destruct (Previous.listImages _) as [images [e|]] eqn:Hl; try discriminate.
  destruct (Previous.updateImage w _ Previous.initial) as [st1| |] eqn:H1;
    try discriminate.
  cbn [mbind outcome_bind Go.bind] in H.
  destruct (Previous.updateImage w _ st1) as [st2| |] eqn:H2; try discriminate.
  cbn [mbind outcome_bind Go.bind] in H. injection H as <- <-.
  by apply (previous_start w _ st1 st2).
Qed.


(** X18: in the previous revision what is on screen follows the index in
    every state of the main loop: the picture is the image at the index,
    scaled for the window, and the caption band and the labels are on the
    overlay exactly when captions are enabled and the manifest has an
    entry for the path of that image, whose title and description the
    labels then hold. *)
Theorem previous_display_follows_index w env st0 evs st :
  Previous.main w = Ok (env, st0) →
  Previous.steps w env st0 evs st →
  Previous.in_range env st ∧ Previous.shows w env st.
Proof.
  intros (Ha & Hr & Hsh & _)%previous_main_Ok Hs.
  by destruct (previous_steps_armed w env st0 evs st Ha Hr Hsh Hs) as (_ & ? & ? & _).
Qed.

Lemma previous_updateImage_decode_error w env st imagePath pixbuf e :
  Previous.in_range env st →
  images env !! Z.to_nat (Previous.currentIndex st) = Some imagePath →
  PixbufNewFromFile w imagePath = (pixbuf, Some e) →
  Previous.updateImage w env st = Fatal ("Unable to create pixbuf:" +:+ e).
Proof.
  intros Hr Hl Hd. unfold Previous.in_range in Hr. unfold Previous.updateImage.
  destruct (Z.ltb_spec (Previous.currentIndex st) 0); [lia|].
  destruct (Z.leb_spec (len (images env)) (Previous.currentIndex st)); [lia|].
  cbn [orb]. unfold index.
  destruct (Z.ltb_spec (Previous.currentIndex st) 0); [lia|]. rewrite Hl.
  cbn [mbind outcome_bind Go.bind]. by rewrite Hd.
Qed.

(** X19: in the previous revision an image that does not decode ends the
    program: when the decoder reports an error for the next image, a mouse
    click, a right-arrow key press and a timeout end with [log.Fatal] and
    the message of the decoder; there is no panic. *)
Theorem previous_decode_error_is_fatal w env st imagePath pixbuf e id :
  Previous.in_range env st →
  images env !! Z.to_nat ((Previous.currentIndex st + 1) mod len (images env))
    = Some imagePath →
  PixbufNewFromFile w imagePath = (pixbuf, Some e) →
  Previous.handle w env Previous.ButtonPress st
    = Fatal ("Unable to create pixbuf:" +:+ e) ∧
  Previous.handle w env (Previous.KeyPress KEY_Right) st
    = Fatal ("Unable to create pixbuf:" +:+ e) ∧
  Previous.handle w env (Previous.Timeout id) st
    = Fatal ("Unable to create pixbuf:" +:+ e).
Proof.
  intros Hr Hl Hd.
  assert (Hu : Previous.updateImage w env
                 (Previous.set_currentIndex
                    ((Previous.currentIndex st + 1) mod len (images env)) st)
               = Fatal ("Unable to create pixbuf:" +:+ e)).
  { apply (previous_updateImage_decode_error w env _ imagePath pixbuf); [|done|done].
    unfold Previous.in_range in *. simpl. apply Z.mod_pos_bound. lia. }
  simpl. unfold Previous.onButtonPress, Previous.onKeyPress, Previous.onTimeout,
    Previous.turn.
  rewrite previous_next_spec by done. simpl. cbn [mbind outcome_bind Go.bind].
  by rewrite Hu.
Qed.

Lemma previous_updateImage_total w env st imagePath :
  Previous.in_range env st →
  images env !! Z.to_nat (Previous.currentIndex st) = Some imagePath →
  displays w imagePath →
  ∃ st', Previous.updateImage w env st = Ok st'.
Proof.
  intros Hr Hl (pb & scaled & Hd & _ & _ & Hs).
  unfold Previous.in_range in Hr. unfold Previous.updateImage.
  destruct (Z.ltb_spec (Previous.currentIndex st) 0); [lia|].
  destruct (Z.leb_spec (len (images env)) (Previous.currentIndex st)); [lia|].
  cbn [orb]. unfold index.
  destruct (Z.ltb_spec (Previous.currentIndex st) 0); [lia|]. rewrite Hl.
  cbn [mbind outcome_bind Go.bind]. rewrite Hd.
  destruct (GetSize w) as [width height]. cbn [fst snd] in Hs.
  destruct (dest width height (Width pb) (Height pb)) as [dw dh]. cbn [fst snd] in Hs.
  rewrite Hs. by eexists.
Qed.

Lemma previous_timeouts_S id k :
  Previous.timeouts id (S k) = Previous.Timeout id :: Previous.timeouts (id + 1) k.
Proof.
  unfold Previous.timeouts. rewrite <- cons_seq. rewrite fmap_cons. f_equal.
  - f_equal. lia.
  - rewrite <- fmap_S_seq, <- list_fmap_compose. apply list_fmap_ext.
    intros _ i _. simpl. f_equal. lia.
Qed.

Lemma previous_timeouts_run w env k : ∀ st,
  (∀ imagePath, imagePath ∈ images env → displays w imagePath) →
  Previous.armed env st → Previous.in_range env st →
  ∃ st', Previous.steps w env st (Previous.timeouts (Previous.timeoutID st) k) st' ∧
         Previous.currentIndex st'
           = (Previous.currentIndex st + Z.of_nat k) mod len (images env).
Proof.
  induction k as [|k IH]; intros st Hall Ha Hr.
  - exists st. split; [constructor|]. unfold Previous.in_range in Hr.
    rewrite Z.add_0_r, Z.mod_small; lia.
  - rewrite previous_timeouts_S.
    set (i := (Previous.currentIndex st + 1) mod len (images env)).
    assert (Hi : 0 ≤ i < len (images env)).
    { apply Z.mod_pos_bound. unfold Previous.in_range in Hr. lia. }
    destruct (lookup_lt_is_Some_2 (images env) (Z.to_nat i)) as [imagePath Hl];
      [unfold len in Hi; lia|].
    destruct (previous_updateImage_total w env (Previous.set_currentIndex i st) imagePath)
      as [st1 Hu]; [done|done|by eapply Hall, list_elem_of_lookup_2|].
    assert (Hstep : Previous.step w env st (Previous.Timeout (Previous.timeoutID st))
                      (Previous.SourceRemove (Previous.timeoutID st) st1)).
    { destruct Ha as (Hso & _). eapply Previous.step_timeout.
      - rewrite Hso. by apply list_elem_of_singleton.
      - unfold Previous.onTimeout. rewrite previous_next_spec by done.
        cbn [mbind outcome_bind Go.bind]. fold i. by rewrite Hu. }
    destruct (previous_step_armed w env st _ _ Ha Hstep) as (Ha1 & Hr1 & _ & Hl1).
    destruct (IH _ Hall Ha1 Hr1) as (st' & Hs & Hidx).
    assert (Hid : Previous.timeoutID (Previous.SourceRemove (Previous.timeoutID st) st1)
                  = Previous.timeoutID st + 1).
    { destruct Ha1 as (_ & -> & _). rewrite Hl1. destruct Ha as (_ & -> & _). done. }
    rewrite Hid in Hs. exists st'. split; [by econstructor|].
    rewrite Hidx. simpl.
    apply previous_updateImage_Ok in Hu as (Hi1 & _). rewrite Hi1. simpl.
    destruct (Z.ltb_spec i 0); [lia|]. destruct (Z.leb_spec (len (images env)) i); [lia|].
    simpl. subst i. rewrite Zplus_mod_idemp_l. f_equal. lia.
Qed.

(** X20: in the previous revision the slideshow advances by itself for
    ever: when every image of the list decodes and can be scaled, the
    timeout pending when [main] enters the main loop fires, the one its
    update attaches fires after it, and so on for any number [k] of
    timeouts, after which the index is [k] modulo the number of images. *)
Theorem previous_slideshow_advances_forever w env st0 k :
  Previous.main w = Ok (env, st0) →
  (∀ imagePath, imagePath ∈ images env → displays w imagePath) →
  ∃ st, Previous.steps w env st0 (Previous.timeouts (Previous.timeoutID st0) k) st ∧
        Previous.currentIndex st = Z.of_nat k mod len (images env).
Proof.
  intros (Ha & Hr & _ & _ & Hz)%previous_main_Ok Hall.
  destruct (previous_timeouts_run w env k st0 Hall Ha Hr) as (st & Hs & Hi).
  exists st. split; [done|]. by rewrite Hi, Hz.
Qed.


Lemma previous_display_follows_index_witness :
  Previous.in_range Sample.env Sample.previous_second ∧
  Previous.shows Sample.world Sample.env Sample.previous_second.
Proof.
  apply (previous_display_follows_index Sample.world Sample.env Sample.previous_first
           [Previous.ButtonPress] Sample.previous_second).
  - vm_compute. reflexivity.
  - eapply Previous.steps_cons;
      [apply Previous.step_button; vm_compute; reflexivity|apply Previous.steps_nil].
Defined.

Lemma previous_decode_error_is_fatal_witness :
  Previous.handle Sample.world_bad_image Sample.env Previous.ButtonPress
    Sample.previous_first
    = Fatal ("Unable to create pixbuf:" +:+ "Unrecognized image file format") ∧
  Previous.handle Sample.world_bad_image Sample.env (Previous.KeyPress KEY_Right)
    Sample.previous_first
    = Fatal ("Unable to create pixbuf:" +:+ "Unrecognized image file format") ∧
  Previous.handle Sample.world_bad_image Sample.env (Previous.Timeout 2)
    Sample.previous_first
    = Fatal ("Unable to create pixbuf:" +:+ "Unrecognized image file format").
Proof.
  apply (previous_decode_error_is_fatal Sample.world_bad_image Sample.env
           Sample.previous_first "content/b.jpg" None
           "Unrecognized image file format" 2).
  - split; [discriminate|reflexivity].
  - reflexivity.
  - reflexivity.
Defined.

Lemma previous_slideshow_advances_forever_witness :
  ∃ st, Previous.steps Sample.world Sample.env Sample.previous_first
          (Previous.timeouts (Previous.timeoutID Sample.previous_first) 4) st ∧
        Previous.currentIndex st = Z.of_nat 4 mod len (images Sample.env).
Proof.
  apply (previous_slideshow_advances_forever Sample.world Sample.env
           Sample.previous_first 4).
  - vm_compute. reflexivity.
  - intros imagePath _. eexists _, _. split; [reflexivity|].
    split; [discriminate|]. split; [discriminate|]. vm_compute. reflexivity.
Defined.

Section PreviousEnumerator.
Import Enumerator.

Lemma Walk_app pre rest : ∀ sent,
  Forall (λ v, err v = None) pre →
  Walk (pre ++ rest) sent = Walk rest (sent ++ image_files pre).
Proof.
  induction pre as [|u pre IH]; intros sent Hpre.
  - unfold image_files. simpl. by rewrite app_nil_r.
  - apply Forall_cons in Hpre as [Hu Hpre]. simpl.
    destruct (walkFn u sent) as [s1 [e|]] eqn:Hv.
    + unfold walkFn in Hv. rewrite Hu in Hv. by destruct (negb (IsDir u)).
    + apply walkFn_ok in Hv as [_ ->]. rewrite (IH _ Hpre).
      by rewrite (image_files_cons u pre), app_assoc.
Qed.

(** X21: [listImages] of the previous revision returns the image files of
    the whole walk when no visit carries an error; otherwise it returns the
    first error of the walk, together with the image files found before
    it, and nothing of what follows. *)
Theorem previous_listImages_stops_at_first_error pre :
  Forall (λ v, err v = None) pre →
  Previous.listImages pre = (image_files pre, None) ∧
  ∀ v e post,
    err v = Some e →
    Previous.listImages (pre ++ v :: post) = (image_files pre, Some e).
Proof.
  intros Hpre. unfold Previous.listImages. split.
  - rewrite <- (app_nil_r pre) at 1. by rewrite Walk_app.
  - intros v e post Hv. rewrite Walk_app by done. simpl.
    unfold walkFn. by rewrite Hv.
Qed.

Lemma previous_listImages_stops_at_first_error_witness :
  Previous.listImages Sample.tree_unreadable = (["content/a.png"], Some "permission denied").
Proof.
  destruct (previous_listImages_stops_at_first_error
              [ {| path := "./content"; IsDir := true; err := None |};
                {| path := "content/a.png"; IsDir := false; err := None |} ])
    as [_ H].
  - repeat constructor.
  - apply (H {| path := "content/b.jpg"; IsDir := false;
                err := Some "permission denied" |}
             "permission denied"
             [ {| path := "content/c.bmp"; IsDir := false; err := None |} ]).
    reflexivity.
Defined.

End PreviousEnumerator.

(** * Properties of the first revision *)

Section EarliestFacts.
Import Previous.

Variable w : World.
Variable env : Earliest.Env.

Lemma earliest_caption_frame entries imagePath st :
  currentIndex (Earliest.caption entries imagePath st) = currentIndex st ∧
  img (Earliest.caption entries imagePath st) = img st ∧
  timeoutID (Earliest.caption entries imagePath st) = timeoutID st ∧
  sources (Earliest.caption entries imagePath st) = sources st ∧
  lastID (Earliest.caption entries imagePath st) = lastID st.
Proof.
  induction entries as [|entry entries IH]; simpl; [done|].
  by case_bool_decide.
Qed.

(** An update that returns has drawn the image at the index, reset to 0
    beyond the list, and left the index one above it. *)
Lemma earliest_updateImage_Ok st st' :
  Earliest.updateImage w env st = Ok st' →
  Earliest.onscreen w env
    (if len (Earliest.images env) <=? currentIndex st then 0 else currentIndex st) st'.
Proof.
  unfold Earliest.updateImage. intros H.
  set (st0 := if len (Earliest.images env) <=? currentIndex st
              then set_currentIndex 0 st else st) in *.
  assert (Hi0 : currentIndex st0 =
                if len (Earliest.images env) <=? currentIndex st
                then 0 else currentIndex st) by (subst st0; by destruct (_ <=? _)).
  rewrite <- Hi0. clear Hi0. clearbody st0.
  destruct (index (Earliest.images env) (currentIndex st0)) as [imagePath| |] eqn:Hidx;
    cbn [mbind outcome_bind Go.bind] in H; try discriminate.
  assert (Hl : Earliest.images env !! Z.to_nat (currentIndex st0) = Some imagePath ∧
               0 ≤ currentIndex st0).
  { unfold index in Hidx. destruct (Z.ltb_spec (currentIndex st0) 0); [discriminate|].
    split; [|done]. by destruct (Earliest.images env !! _); simplify_eq. }
  destruct Hl as [Hl Hnn].
  destruct (PixbufNewFromFile w imagePath) as [[pb|] [e|]] eqn:Hd; try discriminate.
  destruct (GetSize w) as [width height] eqn:Hsz.
  destruct (Earliest.dest width height (Width pb) (Height pb)) as [dw dh] eqn:Hdest.
  destruct (ScaleSimple w pb dw dh) as [scaled [e|]] eqn:Hs; [discriminate|].
  set (st1 := Remove textContainer (Remove drawingArea
                (SetMarkup "" "" (SetFromPixbuf scaled st0)))) in *.
  destruct (earliest_caption_frame (Entries (Earliest.manifest env)) imagePath st1)
    as (Hi2 & Hg2 & _).
  set (st2 := Earliest.caption (Entries (Earliest.manifest env)) imagePath st1) in *.
  change (currentIndex st1) with (currentIndex st0) in Hi2.
  change (img st1) with scaled in Hg2.
  clearbody st2. clear st1.
  assert (Hres : currentIndex st' = currentIndex st0 + 1 ∧ img st' = scaled).
  { unfold TimeoutAdd in H. cbv zeta in H. injection H as <-.
    by destruct (timeoutID _ =? 0); simpl; rewrite Hi2, Hg2. }
  destruct Hres as [Hi Hg]. split; [done|]. split; [done|].
  exists imagePath, pb. rewrite Hg, Hsz. cbn [fst snd]. rewrite Hdest. done.
Qed.

Lemma earliest_onscreen_lt d st :
  Earliest.onscreen w env d st → 0 ≤ d < len (Earliest.images env).
Proof.
  intros (_ & Hd & p & pb & Hl & _). split; [done|].
  apply lookup_lt_Some in Hl. unfold len. lia.
Qed.

Lemma earliest_next_spec d st :
  Earliest.onscreen w env d st →
  Earliest.next env st
    = Ok (set_currentIndex ((d + 2) mod len (Earliest.images env)) st).
Proof.
  intros Ho. pose proof (earliest_onscreen_lt d st Ho) as Hd.
  destruct Ho as (Hi & _). unfold Earliest.next, rem. rewrite Hi.
  destruct (Z.eqb_spec (len (Earliest.images env)) 0); [lia|].
  cbn [mbind outcome_bind Go.bind]. rewrite Z.rem_mod_nonneg by lia.
  by replace (d + 1 + 1) with (d + 2) by lia.
Qed.

Lemma earliest_update_at i st st' :
  0 ≤ i < len (Earliest.images env) →
  Earliest.updateImage w env (set_currentIndex i st) = Ok st' →
  Earliest.onscreen w env i st'.
Proof.
  intros Hi Hu. apply earliest_updateImage_Ok in Hu. simpl in Hu.
  by destruct (Z.leb_spec (len (Earliest.images env)) i); [lia|].
Qed.

End EarliestFacts.

(** X22: in the first revision the keys do not move as they say.  With
    image number [d] on screen, a mouse click, a timeout and a right-arrow
    or space key press that return put image number [(d + 2) mod n] on
    screen, skipping one image (with two images the picture never
    changes), and a left-arrow key press puts image [d] on screen again;
    any other key changes nothing. *)
Theorem earliest_forward_skips_and_left_stays w env ev d st st' :
  Earliest.onscreen w env d st →
  Earliest.handle w env ev st = Ok st' →
  match ev with
  | Previous.KeyPress keyval =>
      if (keyval =? KEY_space) || (keyval =? KEY_Right)
      then Earliest.onscreen w env ((d + 2) mod len (Earliest.images env)) st'
      else if keyval =? KEY_Left then Earliest.onscreen w env d st'
      else st' = st
  | _ => Earliest.onscreen w env ((d + 2) mod len (Earliest.images env)) st'
  end.
Proof.
  intros Ho H.
  pose proof (earliest_onscreen_lt w env d st Ho) as Hd.
  pose proof (Z.mod_pos_bound (d + 2) (len (Earliest.images env)) ltac:(lia)) as Hm.
  pose proof (earliest_next_spec w env d st Ho) as Hn.
  destruct ev as [id|keyval|]; simpl in H.
  - unfold Earliest.onTimeout in H. rewrite Hn in H.
    cbn [mbind outcome_bind Go.bind] in H.
    destruct (Earliest.updateImage w env _) as [st1| |] eqn:Hu; try discriminate.
    cbn [mbind outcome_bind Go.bind] in H. injection H as <-.
    apply earliest_update_at in Hu; [|done].
    destruct Hu as (Hi & Hnn & p & pb & Hrest). split; [done|]. split; [done|].
    by exists p, pb.
  - unfold Earliest.onKeyPress in H.
    destruct ((keyval =? KEY_space) || (keyval =? KEY_Right)).
    + rewrite Hn in H. cbn [mbind outcome_bind Go.bind] in H.
      by apply earliest_update_at in H.
    + destruct (keyval =? KEY_Left); [|by injection H as <-].
      destruct Ho as (Hi & _). rewrite Hi in H.
      destruct (Z.eqb_spec (d + 1) 0); [lia|].
      replace (d + 1 - 1) with d in H by lia.
      by apply earliest_update_at in H.
  - unfold Earliest.onButtonPress in H. rewrite Hn in H.
    cbn [mbind outcome_bind Go.bind] in H.
    by apply earliest_update_at in H.
Qed.

(** X23: the first revision starts with the second image: [main] updates
    the image twice before the main loop, so it enters the loop with
    image number 1 on screen when there are at least two images (image 0
    when there is one). *)
Theorem earliest_starts_at_second_image w env st0 :
  Earliest.main w = Ok (env, st0) →
  Earliest.onscreen w env (1 mod len (Earliest.images env)) st0.
Proof.
  unfold Earliest.main, must. intros H.
  destruct (loadManifest w "./manifest.yaml") as [[manifest|] [e|]] eqn:Hm;
    try discriminate.
  destruct (WindowNew w), (CssProviderNew w), (LabelNew_title w), (LabelNew_desc w),
    (OverlayNew w), (ImageNew w), (DrawingAreaNew w), (BoxNew w); try discriminate.
  destruct (Previous.listImages _) as [images [e|]] eqn:Hl; try discriminate.
  destruct (Earliest.updateImage w _ Previous.initial) as [st1| |] eqn:H1;
    try discriminate.
  cbn [mbind outcome_bind Go.bind] in H.
  destruct (Earliest.updateImage w _ st1) as [st2| |] eqn:H2; try discriminate.
  cbn [mbind outcome_bind Go.bind] in H. injection H as <- <-.
  set (env := {| Earliest.images := images; Earliest.manifest := manifest |}) in *.
  apply earliest_updateImage_Ok in H1. apply earliest_updateImage_Ok in H2.
  change (Previous.currentIndex Previous.initial) with 0 in H1.
  assert (H0 : Earliest.onscreen w env 0 st1) by (by destruct (_ <=? _)).
  pose proof (earliest_onscreen_lt w env 0 st1 H0) as Hn.
  destruct H0 as (Hi & _). rewrite Hi in H2.
  change (0 + 1) with 1 in H2.
  destruct (Z.leb_spec (len (Earliest.images env)) 1) as [Hle|Hgt].
  - assert (Hone : len (Earliest.images env) = 1) by lia. by rewrite Hone.
  - by rewrite Z.mod_small by lia.
Qed.

Lemma earliest_forward_skips_and_left_stays_witness :
  Earliest.onscreen Sample.world Sample.earliest_env
    ((1 + 2) mod len (Earliest.images Sample.earliest_env))
    Sample.earliest_after_click.
Proof.
  apply (earliest_forward_skips_and_left_stays Sample.world Sample.earliest_env
           Previous.ButtonPress 1 Sample.earliest_start Sample.earliest_after_click).
  - split; [reflexivity|]. split; [discriminate|].
    eexists _, _. split; [reflexivity|]. split; [reflexivity|].
    vm_compute. reflexivity.
  - vm_compute. reflexivity.
Defined.

Lemma earliest_starts_at_second_image_witness :
  Earliest.onscreen Sample.world Sample.earliest_env
    (1 mod len (Earliest.images Sample.earliest_env)) Sample.earliest_start.
Proof.
  apply (earliest_starts_at_second_image Sample.world Sample.earliest_env
           Sample.earliest_start).
  vm_compute. reflexivity.
Defined.
